(** * snakeoil: argument-parsing extensions and the formatter test double

    A shallow embedding of [snakeoil/cli/arghparse.py] and
    [snakeoil/test/argparse_helpers.py], with the properties of the
    comma-list actions, the boolean converter, the delayed-value
    resolution protocol of [ArgumentParser.parse_args], the default
    subcommand fallback and the [ListStream] test double.

    Python values are modelled as follows: [str] is [string] (lists of
    8-bit characters), [bytes] is [list Byte.byte], integers are [Z],
    exceptions are an inductive type, a function that may raise returns a
    [result], and code that mutates the namespace object is written in a
    state-and-exception monad over the namespace. *)

From Stdlib Require Import String Ascii List ZArith Bool Lia.
From Stdlib Require Import Strings.Byte DecimalString.
From Stdlib Require Import Permutation Sorted.
Import ListNotations.

Local Open Scope string_scope.
Local Open Scope list_scope.

(** ** Exceptions and results *)

(** The exception classes the embedded code raises or catches.  Every
    constructor carries what [str(err)] returns. *)
Inductive exc : Type :=
| TypeError (msg : string)
| ValueError (msg : string)
| AttributeError (msg : string)
| ArgumentError (msg : string)      (* argparse.ArgumentError *)
| ArgumentTypeError (msg : string)  (* argparse.ArgumentTypeError *)
| UnicodeDecodeError (msg : string)
| SystemExit (status : Z)
| OtherError (msg : string).        (* any other exception class *)

Definition exc_str (e : exc) : string :=
  match e with
  | TypeError m | ValueError m | AttributeError m | ArgumentError m
  | ArgumentTypeError m | UnicodeDecodeError m | OtherError m => m
  | SystemExit _ => ""
  end.

(** [isinstance(e, ValueError)]: [UnicodeDecodeError] is a subclass. *)
Definition is_ValueError (e : exc) : bool :=
  match e with
  | ValueError _ | UnicodeDecodeError _ => true
  | _ => false
  end.

Inductive result (A : Type) : Type :=
| Ok (a : A)
| Raise (e : exc).
Arguments Ok {A} a.
Arguments Raise {A} e.

(** ** Python string primitives *)

Module Py.

(** Truth value of a [str]: non-empty. *)
Definition truthy (s : string) : bool :=
  match s with EmptyString => false | String _ _ => true end.

(** [s.split(sep)] for a one-character separator: always at least one
    piece, empty pieces kept. *)
Fixpoint split (sep : ascii) (s : string) : list string :=
  match s with
  | EmptyString => [EmptyString]
  | String c rest =>
      if Ascii.eqb c sep then EmptyString :: split sep rest
      else match split sep rest with
           | [] => [String c EmptyString]
           | piece :: more => String c piece :: more
           end
  end.

(** [sep.join(l)]. *)
Fixpoint join (sep : string) (l : list string) : string :=
  match l with
  | [] => EmptyString
  | [x] => x
  | x :: rest => x ++ sep ++ join sep rest
  end.

(** [c.lower()] on one character: the 26 ASCII capitals are shifted,
    everything else is left alone.  Outside ASCII Python has further
    lower-case mappings; none of them yields a letter of the literals
    that [StoreBool.boolean] compares with. *)
Definition lower_ascii (c : ascii) : ascii :=
  let n := nat_of_ascii c in
  if andb (Nat.leb 65 n) (Nat.leb n 90) then ascii_of_nat (n + 32) else c.

Fixpoint lower (s : string) : string :=
  match s with
  | EmptyString => EmptyString
  | String c rest => String (lower_ascii c) (lower rest)
  end.

Fixpoint contains (c : ascii) (s : string) : bool :=
  match s with
  | EmptyString => false
  | String d rest => Ascii.eqb c d || contains c rest
  end.

Definition hex_digit (n : nat) : ascii :=
  if Nat.ltb n 10 then ascii_of_nat (48 + n) else ascii_of_nat (87 + n).

(** One character of [repr(s)], [q] being the quote in use. *)
Definition repr_char (q : ascii) (c : ascii) : string :=
  let n := nat_of_ascii c in
  if Ascii.eqb c "\" then "\\"
  else if Ascii.eqb c q then String "\" (String q EmptyString)
  else if Nat.eqb n 10 then "\n"
  else if Nat.eqb n 13 then "\r"
  else if Nat.eqb n 9 then "\t"
  else if Nat.ltb n 32 || Nat.eqb n 127 then
    String "\" (String "x" (String (hex_digit (n / 16))
                              (String (hex_digit (n mod 16)) EmptyString)))
  else String c EmptyString.

Fixpoint repr_body (q : ascii) (s : string) : string :=
  match s with
  | EmptyString => EmptyString
  | String c rest => repr_char q c ++ repr_body q rest
  end.

(** [repr(s)] (what [%r] formats): single quotes, unless the string holds
    a single quote and no double quote. *)
Definition repr (s : string) : string :=
  let dq : ascii := ascii_of_nat 34 in
  let q : ascii := if contains "'" s && negb (contains dq s)
                   then dq else "'"%char in
  String q (repr_body q s ++ String q EmptyString).

(** [x in t] for a tuple of strings. *)
Definition str_in (x : string) (t : list string) : bool :=
  existsb (String.eqb x) t.

End Py.

(** ** Comma-list actions *)

(** The [values] argument of an action: one [str], or a sequence of
    them (what [nargs] hands over). *)
Inductive values : Type :=
| Str (s : string)
| Strs (l : list string).

(** [x for x in value.split(',') if x] *)
Definition comma_tokens (value : string) : list string :=
  filter Py.truthy (Py.split "," value).

(** [if isinstance(values, str): values = [values]] *)
Definition as_list (vs : values) : list string :=
  match vs with
  | Str s => [s]
  | Strs l => l
  end.

(** Every token the action sees, over all the values, in order. *)
Definition all_tokens (vs : values) : list string :=
  flat_map comma_tokens (as_list vs).

Module CommaSeparatedValues.

Definition parse_values (vs : values) : list string :=
  let items := [] in
  match vs with
  | Str s => items ++ comma_tokens s
  | Strs l => fold_left (fun items value => items ++ comma_tokens value) l items
  end.

End CommaSeparatedValues.

Module CommaSeparatedNegations.
Section WithSplitter.
(** [snakeoil.sequences.split_negations], applied to the tokens of
    one value. *)
Variable split_negations :
  list string -> result (list string * list string).

Fixpoint loop (vs : list string) (disabled enabled : list string)
  : result (list string * list string) :=
  match vs with
  | [] => Ok (disabled, enabled)
  | value :: rest =>
      match split_negations (comma_tokens value) with
      | Raise e =>
          if is_ValueError e then Raise (ArgumentTypeError (exc_str e))
          else Raise e
      | Ok (neg, pos) => loop rest (disabled ++ neg) (enabled ++ pos)
      end
  end.

Definition parse_values (vs : values)
  : result (list string * list string) :=
  loop (as_list vs) [] [].
End WithSplitter.
End CommaSeparatedNegations.

Module CommaSeparatedElements.
Section WithSplitter.
(** [snakeoil.sequences.split_elements], applied to the tokens of one
    value. *)
Variable split_elements :
  list string -> result (list string * list string * list string).

Fixpoint loop (vs : list string) (disabled neutral enabled : list string)
  : result (list string * list string * list string) :=
  match vs with
  | [] => Ok (disabled, neutral, enabled)
  | value :: rest =>
      match split_elements (comma_tokens value) with
      | Raise e =>
          if is_ValueError e then Raise (ArgumentTypeError (exc_str e))
          else Raise e
      | Ok (neg, neu, pos) =>
          loop rest (disabled ++ neg) (neutral ++ neu) (enabled ++ pos)
      end
  end.

Definition parse_values (vs : values)
  : result (list string * list string * list string) :=
  loop (as_list vs) [] [] [].
End WithSplitter.
End CommaSeparatedElements.

(** The splitting routines of [snakeoil.sequences]. *)
Module Sequences.

Definition has_sign (sign : ascii) (token : string) : bool :=
  match token with
  | String c _ => Ascii.eqb c sign
  | EmptyString => false
  end.

Definition is_disabled (token : string) : bool := has_sign "-" token.
Definition is_enabled (token : string) : bool := has_sign "+" token.
Definition is_neutral (token : string) : bool :=
  negb (is_disabled token) && negb (is_enabled token).

(** The token without its one-character sign prefix. *)
Definition strip_sign (token : string) : string :=
  match token with
  | String c rest =>
      if Ascii.eqb c "-" || Ascii.eqb c "+" then rest else token
  | EmptyString => token
  end.

Definition strip_minus (token : string) : string :=
  match token with
  | String c rest => if Ascii.eqb c "-" then rest else token
  | EmptyString => token
  end.

(** A sign with no token after it. *)
Definition bare_sign (token : string) : bool :=
  String.eqb token "-" || String.eqb token "+".

Section Malformed.
(** Which token sequences the routines reject: a malformed sequence
    is a value error, and what makes one malformed is left open. *)
Variable malformed : list string -> bool.

(** Modelled from the spec: the source of
    [snakeoil.sequences.split_elements] is missing.  Each token is classified by its
    leading sign: ["-"] disabled, ["+"] enabled, none neutral; the
    sign is removed; a malformed sequence is a value error. *)
Definition split_elements (tokens : list string)
  : result (list string * list string * list string) :=
  if malformed tokens then Raise (ValueError "malformed token sequence")
  else Ok (map strip_sign (filter is_disabled tokens),
           filter is_neutral tokens,
           map strip_sign (filter is_enabled tokens)).

(** Modelled from the spec: the source of
    [snakeoil.sequences.split_negations] is missing.  A token with a leading ["-"] is
    disabled and loses the sign, every other token is enabled as it
    is; a malformed sequence is a value error. *)
Definition split_negations (tokens : list string)
  : result (list string * list string) :=
  if malformed tokens then Raise (ValueError "malformed token sequence")
  else Ok (map strip_minus (filter is_disabled tokens),
           filter (fun t => negb (is_disabled t)) tokens).
End Malformed.

(** The usual reading of malformed: some token is a bare sign. *)
Definition has_bare_sign (tokens : list string) : bool :=
  existsb bare_sign tokens.

End Sequences.

(** ** The boolean converter *)

Module StoreBool.

Definition boolean (value : string) : result bool :=
  let value := Py.lower value in
  if Py.str_in value ["y"; "yes"; "true"] then Ok true
  else if Py.str_in value ["n"; "no"; "false"] then Ok false
  else Raise (ValueError ("value " ++ Py.repr value
                            ++ " must be [y|yes|true|n|no|false]")).

End StoreBool.

(** ** Delayed values *)

(** The class of a delayed value decides how [__call__] uses the
    invokable. *)
Inductive delayed_kind : Type :=
| KDelayedValue
| KDelayedDefault
| KDelayedParse
| KOrderedParse.

(** What a delayed value wraps: the partial application
    [partial(DelayedDefault._wipe, attrs)], or any other callable, named
    by an identifier that the environment of user callables interprets. *)
Inductive callable : Type :=
| Wipe (attrs : list string)
| Functor (id : nat).

Record delayed : Type := Delayed {
  kind : delayed_kind;
  priority : Z;
  invokable : callable
}.

(** What a namespace attribute can hold. *)
Inductive value : Type :=
| VNone
| VBool (b : bool)
| VInt (z : Z)
| VStr (s : string)
| VStrs (l : list string)
| VFunc (id : nat)
| VDelayed (d : delayed).

(** [isinstance(val, DelayedValue)] and [isinstance(val, DelayedDefault)] *)
Definition is_DelayedValue (v : value) : bool :=
  match v with VDelayed _ => true | _ => false end.

Definition is_DelayedDefault (v : value) : bool :=
  match v with
  | VDelayed d => match kind d with KDelayedDefault => true | _ => false end
  | _ => false
  end.

Module DelayedDefault.
(** [DelayedDefault.wipe(attrs, priority)] *)
Definition wipe (attrs : values) (priority : Z) : delayed :=
  Delayed KDelayedDefault priority (Wipe (as_list attrs)).
End DelayedDefault.

(** ** The namespace object *)

(** [namespace.__dict__]: attribute names to values, in insertion
    order. *)
Definition namespace : Type := list (string * value).

Module Dict.
Definition has_key (k : string) (d : namespace) : bool :=
  existsb (fun kv => String.eqb (fst kv) k) d.

Fixpoint get (k : string) (d : namespace) : option value :=
  match d with
  | [] => None
  | (k', v) :: rest => if String.eqb k' k then Some v else get k rest
  end.

(** Assignment keeps the position of a key that is present and appends
    a new one. *)
Definition set (k : string) (v : value) (d : namespace) : namespace :=
  if has_key k d
  then map (fun kv => if String.eqb (fst kv) k then (fst kv, v) else kv) d
  else d ++ [(k, v)].

Definition remove (k : string) (d : namespace) : namespace :=
  filter (fun kv => negb (String.eqb (fst kv) k)) d.
End Dict.

(** One write to [sys.stderr]. *)
Inductive stderr_event : Type :=
| Printed (text : string)
| Traceback (handling : option exc).   (* traceback.print_exc() *)

(** The state the parser code works on: the namespace object, what was
    written to standard error, and a log of every [__call__] of a delayed
    value (attribute name and priority), kept to state ordering
    properties. *)
Record world : Type := World {
  ns : namespace;
  stderr : list stderr_event;
  calls : list (string * Z)
}.

Definition set_ns (w : world) (d : namespace) : world :=
  World d (stderr w) (calls w).

(** Computations over the world that may raise; the state survives an
    exception, as mutations of a Python object do. *)
Definition M (A : Type) : Type := world -> result A * world.

Definition ret {A} (a : A) : M A := fun w => (Ok a, w).
Definition raise {A} (e : exc) : M A := fun w => (Raise e, w).
Definition bind {A B} (m : M A) (k : A -> M B) : M B :=
  fun w => match m w with
           | (Ok a, w') => k a w'
           | (Raise e, w') => (Raise e, w')
           end.

Notation "x <- m ;; k" := (bind m (fun x => k))
  (at level 61, m at next level, right associativity).
Notation "m ;;; k" := (bind m (fun _ => k))
  (at level 61, right associativity).

(** [try: m except AttributeError: handler] *)
Definition except_AttributeError {A} (m : M A) (handler : M A) : M A :=
  fun w => match m w with
           | (Raise (AttributeError _), w') => handler w'
           | r => r
           end.

Definition get_ns : M namespace := fun w => (Ok (ns w), w).
Definition put_ns (d : namespace) : M unit := fun w => (Ok tt, set_ns w d).
Definition log_call (attr : string) (prio : Z) : M unit :=
  fun w => (Ok tt, World (ns w) (stderr w) (calls w ++ [(attr, prio)])).
Definition write_stderr (e : stderr_event) : M unit :=
  fun w => (Ok tt, World (ns w) (stderr w ++ [e]) (calls w)).

(** [setattr(namespace, name, v)] and [delattr(namespace, name)] *)
Definition setattr (name : string) (v : value) : M unit :=
  d <- get_ns ;; put_ns (Dict.set name v d).

Definition delattr (name : string) : M unit :=
  d <- get_ns ;;
  if Dict.has_key name d then put_ns (Dict.remove name d)
  else raise (AttributeError name).

(** An argument handed to a user callable. *)
Inductive pyarg : Type :=
| ANamespace
| AParser
| AStr (s : string).

(** The user callables: what the callable named [id] does to the
    namespace when called with the given arguments, and whether it
    raises. *)
Definition F_env : Type :=
  nat -> list pyarg -> namespace -> result unit * namespace.

(** Where a delayed value is called from: [val(namespace, attr)] by the
    resolution loops and by attribute access, or [final_check(self, args)]
    when such an object is what the [final_check] attribute holds. *)
Inductive call_site : Type :=
| Resolve (attr : string)
| AsFinalCheck.

Definition site_name (s : call_site) : string :=
  match s with
  | Resolve attr => attr
  | AsFinalCheck => "final_check"
  end.

(** ** Parsers *)

#[local] Set Warnings "-register-all".

(** An [ArgumentParser] instance, as far as the embedded methods read
    it.  [options] and [defaults] stand for the registered actions of
    the underlying argparse parser: the option strings of its
    [store_true] flags, and the defaults it puts into a namespace. *)
Inductive parser : Type := Parser {
  prog : string;
  debug : bool;
  default_subparser : option string;      (* __default_subparser *)
  subparsers : list (string * parser);    (* the subparsers property *)
  parents : list parser;                  (* _parents *)
  main_func : option nat;                 (* __main_func *)
  final_check : option nat;               (* __final_check *)
  options : list string;
  defaults : namespace
}.

Definition nl : string := String (ascii_of_nat 10) EmptyString.

(** [name in self.subparsers] and [self.subparsers.get(name)] *)
Fixpoint find_parser (name : string) (l : list (string * parser))
  : option parser :=
  match l with
  | [] => None
  | (n, q) :: rest => if String.eqb n name then Some q else find_parser name rest
  end.

Definition known_subparser (name : string) (p : parser) : bool :=
  match find_parser name (subparsers p) with Some _ => true | None => false end.

(** [sorted(names)], by insertion. *)
Fixpoint insert_str (x : string) (l : list string) : list string :=
  match l with
  | [] => [x]
  | y :: rest => if String.leb x y then x :: l else y :: insert_str x rest
  end.

Definition sorted_str (l : list string) : list string :=
  fold_right insert_str [] l.

(** [sorted(items, key=lambda val: val[1].priority)]: stable, ascending. *)
Fixpoint insert_by_priority (x : string * delayed) (l : list (string * delayed))
  : list (string * delayed) :=
  match l with
  | [] => [x]
  | y :: rest =>
      if (priority (snd x) <=? priority (snd y))%Z then x :: l
      else y :: insert_by_priority x rest
  end.

Definition sorted_by_priority (l : list (string * delayed))
  : list (string * delayed) :=
  fold_right insert_by_priority [] l.

(** The generator [(attr, val) for attr, val in args.__dict__.items()
    if isinstance(val, cls)], for the two classes used. *)
Fixpoint delayed_items (only_defaults : bool) (d : namespace)
  : list (string * delayed) :=
  match d with
  | [] => []
  | (attr, VDelayed dv) :: rest =>
      if negb only_defaults || is_DelayedDefault (VDelayed dv)
      then (attr, dv) :: delayed_items only_defaults rest
      else delayed_items only_defaults rest
  | _ :: rest => delayed_items only_defaults rest
  end.

Section Resolution.

Variable functors : F_env.

Definition call_functor (id : nat) (args : list pyarg) : M unit :=
  fun w => let (r, d) := functors id args (ns w) in (r, set_ns w d).

(** [DelayedDefault._wipe(attrs, namespace, triggering_attr)] *)
Fixpoint wipe_attrs (attrs : list string) : M unit :=
  match attrs with
  | [] => ret tt
  | attr :: rest =>
      except_AttributeError (delattr attr) (ret tt) ;;; wipe_attrs rest
  end.

Definition _wipe (attrs : list string) (triggering_attr : string) : M unit :=
  wipe_attrs attrs ;;;
  except_AttributeError (delattr triggering_attr) (ret tt).

(** Calling the wrapped callable.  The partial application of [_wipe]
    needs exactly the two remaining arguments; handed the parser and
    the namespace it ends in [delattr(parser, namespace)], a type
    error. *)
Definition invoke (c : callable) (args : list pyarg) : M unit :=
  match c with
  | Functor id => call_functor id args
  | Wipe attrs =>
      match args with
      | [ANamespace; AStr triggering_attr] => _wipe attrs triggering_attr
      | [_; _] => raise (TypeError "attribute name must be string")
      | _ => raise (TypeError "_wipe() missing required positional arguments")
      end
  end.

(** [DelayedValue.__call__], [DelayedParse.__call__] and
    [OrderedParse.__call__]; [DelayedDefault] inherits the first. *)
Definition __call__ (d : delayed) (site : call_site) : M unit :=
  log_call (site_name site) (priority d) ;;;
  match kind d, site with
  | (KDelayedValue | KDelayedDefault), Resolve attr =>
      invoke (invokable d) [ANamespace; AStr attr]
  | (KDelayedValue | KDelayedDefault), AsFinalCheck =>
      invoke (invokable d) [AParser; ANamespace]
  | KDelayedParse, _ => invoke (invokable d) []
  | KOrderedParse, Resolve attr =>
      invoke (invokable d) [ANamespace] ;;; delattr attr
  | KOrderedParse, AsFinalCheck =>
      invoke (invokable d) [AParser] ;;;
      raise (TypeError "attribute name must be string")
  end.

(** [Namespace.__getattribute__]: a delayed value found under the name
    is called, and the attribute is read again. *)
Definition raw_getattribute (name : string) : M value :=
  d <- get_ns ;;
  match Dict.get name d with
  | Some v => ret v
  | None => raise (AttributeError name)
  end.

Definition __getattribute__ (name : string) : M value :=
  val <- raw_getattribute name ;;
  match val with
  | VDelayed d => __call__ d (Resolve name) ;;; raw_getattribute name
  | _ => ret val
  end.

(** [getattr(namespace, name, None)] and [hasattr(namespace, name)] *)
Definition getattr_or_None (name : string) : M value :=
  except_AttributeError (__getattribute__ name) (ret VNone).

Definition hasattr (name : string) : M bool :=
  except_AttributeError (__getattribute__ name ;;; ret true) (ret false).

(** [ArgumentParser.exit] of argparse: print the message, leave. *)
Definition exit {A} (status : Z) (message : string) : M A :=
  (if Py.truthy message then write_stderr (Printed message) else ret tt) ;;;
  raise (SystemExit status).

(** [ArgumentParser.error]; [handling] is the exception being handled
    at the call, which is what [traceback.print_exc] prints. *)
Definition error {A} (self : parser) (handling : option exc)
           (message : string) (status : Z) : M A :=
  (if debug self then write_stderr (Traceback handling) else ret tt) ;;;
  exit status (prog self ++ ": error: " ++ message ++ nl).

(** A [for attr, functor in ...: functor(args, attr)] loop; when a call
    raises, the loop stops with the exception and with [attr], the
    loop variable at that moment. *)
Fixpoint run_delayed (schedule : list (string * delayed))
  : world -> option (string * exc) * world :=
  match schedule with
  | [] => fun w => (None, w)
  | (attr, d) :: rest => fun w =>
      match __call__ d (Resolve attr) w with
      | (Ok _, w') => run_delayed rest w'
      | (Raise e, w') => (Some (attr, e), w')
      end
  end.

(** Pass 1 of [parse_args]: the delayed defaults, unprotected. *)
Definition pass1 : M unit :=
  fun w =>
    let i := delayed_items true (ns w) in
    match run_delayed (sorted_by_priority i) w with
    | (None, w') => (Ok tt, w')
    | (Some (_, e), w') => (Raise e, w')
    end.

(** Pass 2 of [parse_args]: every delayed value, with the two
    handlers. *)
Definition pass2 (self : parser) : M unit :=
  fun w =>
    let i := delayed_items false (ns w) in
    match run_delayed (sorted_by_priority i) w with
    | (None, w') => (Ok tt, w')
    | (Some (attr, err), w') =>
        match err with
        | TypeError _ | ValueError _ | UnicodeDecodeError _ =>
            (Raise (TypeError ("failed loading/parsing '" ++ attr ++ "': "
                                 ++ exc_str err)), w')
        | ArgumentError _ => error self (Some err) (exc_str err) 2 w'
        | _ => (Raise err, w')
        end
    end.

(** Calling whatever the [final_check] attribute held. *)
Definition call_value (v : value) : M unit :=
  match v with
  | VFunc id => call_functor id [AParser; ANamespace]
  | VDelayed d => __call__ d AsFinalCheck
  | _ => raise (TypeError "object is not callable")
  end.

(** The last step of [parse_args]. *)
Definition run_final_check : M unit :=
  final_check <- getattr_or_None "final_check" ;;
  match final_check with
  | VNone => ret tt
  | _ => delattr "final_check" ;;; call_value final_check
  end.

(** Lines 656 to 678 of [parse_args]: the two passes and the final
    check, on the namespace that tokenizing left. *)
Definition resolve (self : parser) : M unit :=
  pass1 ;;; pass2 self ;;; run_final_check.

End Resolution.

(** ** Subcommands and [parse_args] *)

Definition help_requested (arg_strings : list string) : bool :=
  existsb (fun a => String.eqb a "-h" || String.eqb a "--help") arg_strings.

(** The condition computed at the top of [_parse_known_args]. *)
Definition skip_subparser_fallback (self : parser) (arg_strings : list string)
  : bool :=
  match default_subparser self with None => true | Some _ => false end
  || help_requested arg_strings
  || match arg_strings with
     | [] => false
     | first :: _ => known_subparser first self
     end.

Definition unknown_subparser_message (self : parser) (default : string)
  : string :=
  "unknown subparser " ++ Py.repr default ++ " (available subparsers "
    ++ Py.join ", " (sorted_str (map fst (subparsers self))) ++ ")".

(** [ArgumentParser.add_subparsers(default=...)]: the name is stored,
    nothing is checked. *)
Definition add_subparsers (default : option string) (self : parser) : parser :=
  Parser (prog self) (debug self) default (subparsers self) (parents self)
         (main_func self) (final_check self) (options self) (defaults self).

(** [subparsers.add_parser(name, ...)], seen from the owning parser. *)
Definition add_parser (name : string) (sub : parser) (self : parser) : parser :=
  Parser (prog self) (debug self) (default_subparser self)
         (subparsers self ++ [(name, sub)]) (parents self)
         (main_func self) (final_check self) (options self) (defaults self).

(** [parser.set_defaults(name=v)] of argparse. *)
Definition set_defaults (name : string) (v : value) (self : parser) : parser :=
  Parser (prog self) (debug self) (default_subparser self) (subparsers self)
         (parents self) (main_func self) (final_check self) (options self)
         (Dict.set name v (defaults self)).

(** [ArgumentParser.bind_delayed_default(priority, name)(functor)] *)
Definition bind_delayed_default (priority : Z) (name : string) (functor : nat)
           (self : parser) : parser :=
  set_defaults name (VDelayed (Delayed KDelayedValue priority (Functor functor)))
               self.

(** [ArgumentParser.bind_parse_priority(priority)(functor)]; [name] is
    [functor.__name__]. *)
Definition bind_parse_priority (priority : Z) (name : string) (functor : nat)
           (self : parser) : parser :=
  set_defaults name (VDelayed (Delayed KOrderedParse priority (Functor functor)))
               self.

(** [ArgumentParser.bind_final_check(functor)] *)
Definition bind_final_check (functor : nat) (self : parser) : parser :=
  let self := set_defaults "final_check" (VFunc functor) self in
  Parser (prog self) (debug self) (default_subparser self) (subparsers self)
         (parents self) (main_func self) (Some functor) (options self)
         (defaults self).

(** [ArgumentParser.bind_main_func(functor)] *)
Definition bind_main_func (functor : nat) (self : parser) : parser :=
  let self := set_defaults "main_func" (VFunc functor) self in
  let self :=
    Parser (prog self) (debug self) (default_subparser self) (subparsers self)
           (parents self) (Some functor) (final_check self) (options self)
           (defaults self) in
  set_defaults "prog" (VStr (prog self)) self.

Section Parsing.

Variable functors : F_env.

(** [argparse.ArgumentParser._parse_known_args], the tokenizer of the
    standard library that [super()._parse_known_args] reaches: it
    works on the namespace and returns the strings it did not
    recognise. *)
Variable super__parse_known_args : parser -> list string -> M (list string).

(** [ArgumentParser._parse_known_args] *)
Fixpoint _parse_known_args (self : parser) (arg_strings : list string)
  {struct self} : M (list string) :=
  if skip_subparser_fallback self arg_strings
  then super__parse_known_args self arg_strings
  else
    match default_subparser self with
    | None => super__parse_known_args self arg_strings
    | Some default =>
        if negb (known_subparser default self)
        then raise (ValueError (unknown_subparser_message self default))
        else
          arg_strings <-
            (fix over_parents (ps : list parser) (arg_strings : list string)
               : M (list string) :=
               match ps with
               | [] => ret arg_strings
               | parser :: rest =>
                   arg_strings <- _parse_known_args parser arg_strings ;;
                   over_parents rest arg_strings
               end) (parents self) arg_strings ;;
          super__parse_known_args self (default :: arg_strings)
    end.

(** The loop over [self._parents] on its own. *)
Fixpoint parse_parents (ps : list parser) (arg_strings : list string)
  : M (list string) :=
  match ps with
  | [] => ret arg_strings
  | parser :: rest =>
      arg_strings <- _parse_known_args parser arg_strings ;;
      parse_parents rest arg_strings
  end.

(** The defaults that [parse_known_args] of argparse puts into the
    namespace where the name is not set. *)
Fixpoint add_defaults (l : namespace) : M unit :=
  match l with
  | [] => ret tt
  | (dest, v) :: rest =>
      present <- hasattr functors dest ;;
      (if present then ret tt else setattr dest v) ;;;
      add_defaults rest
  end.

Definition _UNRECOGNIZED_ARGS_ATTR : string := "_unrecognized_args".

(** [argparse.ArgumentParser.parse_known_args], which [parse_args]
    inherits: defaults, then [self._parse_known_args], the argument
    errors of which go to [self.error]. *)
Definition parse_known_args (self : parser) (args : list string)
  : M (list string) :=
  add_defaults (defaults self) ;;;
  fun w =>
    match (args <- _parse_known_args self args ;;
           present <- hasattr functors _UNRECOGNIZED_ARGS_ATTR ;;
           if present
           then
             extra <- __getattribute__ functors _UNRECOGNIZED_ARGS_ATTR ;;
             delattr _UNRECOGNIZED_ARGS_ATTR ;;;
             match extra with
             | VStrs l => ret (args ++ l)
             | _ => raise (TypeError "object is not iterable")
             end
           else ret args) w with
    | (Raise (ArgumentError msg), w') =>
        error self (Some (ArgumentError msg)) msg 2 w'
    | r => r
    end.

(** [self.subparsers.get(name, None)]; a list is not hashable. *)
Definition subparsers_get (self : parser) (name : value)
  : M (option parser) :=
  match name with
  | VStr s => ret (find_parser s (subparsers self))
  | VStrs _ => raise (TypeError "unhashable type: 'list'")
  | _ => ret None
  end.

(** Lines 626 to 644 of [parse_args]: tokenizing, the attributes
    taken from the parser of the subcommand, and the error for
    arguments nobody recognised. *)
Definition parse_args_head (self : parser) (args : list string) : M unit :=
  unknown_args <- parse_known_args self args ;;
  subcommand <- getattr_or_None functors "subcommand" ;;
  subcmd_parser <- subparsers_get self subcommand ;;
  match subcmd_parser with
  | Some sub =>
      setattr "prog" (VStr (prog sub)) ;;;
      match main_func sub with
      | Some f => setattr "main_func" (VFunc f)
      | None => ret tt
      end ;;;
      match final_check sub with
      | Some f => setattr "final_check" (VFunc f)
      | None => ret tt
      end
  | None => ret tt
  end ;;;
  match unknown_args with
  | [] => ret tt
  | _ => error self None
           ("unrecognized arguments: " ++ Py.join " " unknown_args) 2
  end.

(** [ArgumentParser.parse_args(args, namespace)]; the namespace object
    is the one of the world, and it is what the method returns. *)
Definition parse_args (self : parser) (args : list string) : M unit :=
  parse_args_head self args ;;; resolve functors self.

End Parsing.

(** ** A small tokenizer in place of argparse's

    Enough of [argparse.ArgumentParser._parse_known_args] to run the
    parser on concrete command lines: [store_true] flags, one level of
    subcommands, and [_SubParser.__call__] for the subcommand. *)
Module Argparse.

(** [option_string.lstrip('-')]: the destination of a flag. *)
Fixpoint lstrip_dash (s : string) : string :=
  match s with
  | String c rest => if Ascii.eqb c "-" then lstrip_dash rest else s
  | EmptyString => s
  end.

Definition is_option (s : string) : bool :=
  match s with
  | String c _ => Ascii.eqb c "-"
  | EmptyString => false
  end.

Section Flags.
Variable functors : F_env.

(** The flags of one parser against the strings: a known flag is
    stored as true, anything else is handed back. *)
Fixpoint consume_flags (flags : list string) (arg_strings : list string)
  : M (list string) :=
  match arg_strings with
  | [] => ret []
  | a :: rest =>
      if Py.str_in a flags
      then setattr (lstrip_dash a) (VBool true) ;;; consume_flags flags rest
      else extras <- consume_flags flags rest ;; ret (a :: extras)
  end.

(** [parse_known_args] of a subcommand's parser, which has flags
    only. *)
Definition leaf_parse_known_args (sub : parser) (arg_strings : list string)
  : M (list string) :=
  add_defaults functors (defaults sub) ;;;
  consume_flags (options sub) arg_strings.

(** [_SubParser.__call__(parser, namespace, values)], with
    [dest = 'subcommand'] as [add_subparsers] sets it; for a name
    that is not registered the handler looks up [_], which the
    module binds nowhere: a [NameError]. *)
Definition _SubParser__call__ (self : parser) (values : list string)
  : M unit :=
  match values with
  | [] => raise (OtherError "IndexError")
  | parser_name :: arg_strings =>
      setattr "subcommand" (VStr parser_name) ;;;
      match find_parser parser_name (subparsers self) with
      | None => raise (OtherError "name '_' is not defined")
      | Some sub =>
          arg_strings <- leaf_parse_known_args sub arg_strings ;;
          match arg_strings with
          | [] => ret tt
          | _ =>
              d <- get_ns ;;
              match Dict.get _UNRECOGNIZED_ARGS_ATTR d with
              | Some (VStrs old) =>
                  setattr _UNRECOGNIZED_ARGS_ATTR (VStrs (old ++ arg_strings))
              | Some _ => raise (AttributeError "extend")
              | None => setattr _UNRECOGNIZED_ARGS_ATTR (VStrs arg_strings)
              end
          end
      end
  end.

(** The tokenizer: flags of the parser itself up to the first
    positional string, which selects the subcommand and hands it
    everything that follows. *)
Fixpoint tokenize (self : parser) (arg_strings : list string)
  : M (list string) :=
  match arg_strings with
  | [] =>
      match subparsers self with
      | [] => ret []
      | _ => error self None
               "the following arguments are required: subcommand" 2
      end
  | a :: rest =>
      if Py.str_in a (options self)
      then setattr (lstrip_dash a) (VBool true) ;;; tokenize self rest
      else if is_option a
      then extras <- tokenize self rest ;; ret (a :: extras)
      else
        match subparsers self with
        | [] => extras <- tokenize self rest ;; ret (a :: extras)
        | _ => _SubParser__call__ self arg_strings ;;; ret []
        end
  end.
End Flags.

End Argparse.

(** ** The formatter test double *)

(** The style markers [Color(mode, color)], [Reset()] and [Bold()]. *)
Inductive FormatterObject : Type :=
| Color (mode : string) (color : option string) | Reset | Bold.

(** What can be written to a [ListStream]: [bytes], a style marker, or
    any other object, of which the name of the type is kept, and the
    contents where it gives access to a buffer ([bytearray],
    [memoryview]). *)
Inductive item : Type :=
| Bytes (b : list byte)
| Fmt (o : FormatterObject)
| Other (type_name : string) (buffer : option (list byte)).

Definition is_bytes (x : item) : bool :=
  match x with Bytes _ => true | _ => false end.

Definition is_FormatterObject (x : item) : bool :=
  match x with Fmt _ => true | _ => false end.

Module ListStream.

Definition t : Type := list item.

(** The loop of [write]: [stringlist] collects the pending [bytes],
    [objectlist] the finished entries. *)
Fixpoint collect (args : list item) (stringlist : list (list byte))
         (objectlist : list item) : list item :=
  match args with
  | [] => objectlist ++ [Bytes (concat stringlist)]
  | Bytes b :: rest => collect rest (stringlist ++ [b]) objectlist
  | arg :: rest =>
      collect rest [] (objectlist ++ [Bytes (concat stringlist); arg])
  end.

(** [self[-1]] when [len(self)] is not zero. *)
Fixpoint last_entry (self : t) : option item :=
  match self with
  | [] => None
  | [x] => Some x
  | _ :: rest => last_entry rest
  end.

Definition write (self : t) (args : list item) : t :=
  let objectlist := collect args [] [] in
  match last_entry self, objectlist with
  | Some (Bytes tail), Bytes head :: rest =>
      removelast self ++ [Bytes (tail ++ head)] ++ rest
  | _, _ => self ++ objectlist
  end.

End ListStream.

(** [str(n)] for an index. *)
Definition decimal (n : nat) : string :=
  NilEmpty.string_of_uint (Nat.to_uint n).

(** The first byte outside ASCII, with its position. *)
Fixpoint first_non_ascii (pos : nat) (b : list byte) : option (nat * byte) :=
  match b with
  | [] => None
  | c :: rest =>
      if (Byte.to_N c <? 128)%N then first_non_ascii (S pos) rest
      else Some (pos, c)
  end.

(** [str(err)] of the error for the byte [c] at [pos]. *)
Definition ascii_decode_error (pos : nat) (c : byte) : exc :=
  let n := N.to_nat (Byte.to_N c) in
  UnicodeDecodeError
    ("'ascii' codec can't decode byte 0x"
       ++ String (Py.hex_digit (n / 16))
            (String (Py.hex_digit (n mod 16)) EmptyString)
       ++ " in position " ++ decimal pos ++ ": ordinal not in range(128)").

(** [b.decode('ascii')] *)
Definition decode_ascii (b : list byte) : result string :=
  match first_non_ascii 0 b with
  | None => Ok (string_of_list_byte b)
  | Some (pos, c) => Raise (ascii_decode_error pos c)
  end.

(** [type(x).__name__] *)
Definition type_name_of (x : item) : string :=
  match x with
  | Bytes _ => "bytes"
  | Fmt (Color _ _) => "Color"
  | Fmt Reset => "Reset"
  | Fmt Bold => "Bold"
  | Other type_name _ => type_name
  end.

(** The buffer [b''.join] reads from an entry: [bytes] itself, and any
    other object with a buffer. *)
Definition buffer_of (x : item) : option (list byte) :=
  match x with
  | Bytes b => Some b
  | Fmt _ => None
  | Other _ buffer => buffer
  end.

(** The loop of [b''.join(l)], from index [i] on: the first entry
    without a buffer is a type error that names its index and type. *)
Fixpoint join_from (i : nat) (l : list item) : result (list byte) :=
  match l with
  | [] => Ok []
  | x :: rest =>
      match buffer_of x with
      | Some b =>
          match join_from (S i) rest with
          | Ok tail => Ok (b ++ tail)
          | Raise e => Raise e
          end
      | None =>
          Raise (TypeError ("sequence item " ++ decimal i
                              ++ ": expected a bytes-like object, "
                              ++ type_name_of x ++ " found"))
      end
  end.

(** [b''.join(l)] *)
Definition join_bytes (l : list item) : result (list byte) := join_from 0 l.

Module FakeStreamFormatter.

Record t : Type := Make { stream : ListStream.t }.

(** [FakeStreamFormatter()] and [resetstream] *)
Definition init : t := Make [].
Definition resetstream (self : t) : t := Make [].

(** The attributes [self.reset] and [self.bold]. *)
Definition reset (self : t) : FormatterObject := Reset.
Definition bold (self : t) : FormatterObject := Bold.

Definition fg (color : option string) : FormatterObject := Color "fg" color.
Definition bg (color : option string) : FormatterObject := Color "bg" color.

(** [self.stream.write] with the given arguments *)
Definition write (self : t) (args : list item) : t :=
  Make (ListStream.write (stream self) args).

(** [FormatterObject.__call__(formatter)] *)
Definition call_object (o : FormatterObject) (formatter : t) : t :=
  write formatter [Fmt o].

Definition get_text_stream (self : t) : result string :=
  match join_bytes (filter (fun x => negb (is_FormatterObject x))
                           (stream self)) with
  | Ok b => decode_ascii b
  | Raise e => Raise e
  end.

End FakeStreamFormatter.

(** ** Vocabulary of the statements *)

(** No two neighbours of the raw stream are both [bytes]. *)
Fixpoint no_adjacent_bytes (l : list item) : bool :=
  match l with
  | [] => true
  | x :: rest =>
      match rest with
      | y :: _ => negb (is_bytes x && is_bytes y)
      | [] => true
      end && no_adjacent_bytes rest
  end.

(** The successive [write] calls of a test, from a fresh formatter. *)
Definition written (calls : list (list item)) : FakeStreamFormatter.t :=
  fold_left FakeStreamFormatter.write calls FakeStreamFormatter.init.

(** An argument that is text or a marker. *)
Definition entry (x : list byte + FormatterObject) : item :=
  match x with
  | inl b => Bytes b
  | inr o => Fmt o
  end.

(** All the text of a list of entries, in order. *)
Definition text_of (l : list item) : list byte :=
  flat_map (fun x => match x with Bytes b => b | _ => [] end) l.

(** The entries that are not [bytes], in order. *)
Definition objects_of (l : list item) : list item :=
  filter (fun x => negb (is_bytes x)) l.

(** The order of a schedule: ascending priority. *)
Definition by_priority (x y : string * delayed) : Prop :=
  (priority (snd x) <= priority (snd y))%Z.

(** What the call log records for an entry of a schedule. *)
Definition entry_key (p : string * delayed) : string * Z :=
  (fst p, priority (snd p)).

(** A computation that neither writes to standard error nor calls a
    delayed value. *)
Definition quiet {A} (m : M A) : Prop :=
  forall w, calls (snd (m w)) = calls w /\ stderr (snd (m w)) = stderr w.

(** A namespace obtained from another by deleting attributes. *)
Definition shrinks (d' d : namespace) (deleted : list string) : Prop :=
  exists keep : string * value -> bool,
    d' = filter keep d
    /\ forall k v, In k deleted -> keep (k, v) = false.

(** A delayed default made by [DelayedDefault.wipe]. *)
Definition wipe_made (d : delayed) : Prop :=
  kind d = KDelayedDefault /\ exists attrs, invokable d = Wipe attrs.

(** No delayed value is stored under the name. *)
Definition no_delayed_at (attr : string) (d : namespace) : Prop :=
  forall dv, ~ In (attr, VDelayed dv) d.

(** Every delayed value of [d'] was already in [d], under its name. *)
Definition delayed_sub (d' d : namespace) : Prop :=
  forall k dv, In (k, VDelayed dv) d' -> In (k, VDelayed dv) d.

(** A namespace without delayed values. *)
Definition resolved (d : namespace) : Prop :=
  forall k v, In (k, v) d -> is_DelayedValue v = false.

(** No user callable stores a delayed value into the namespace. *)
Definition stores_no_delayed (functors : F_env) : Prop :=
  forall id args d r d', functors id args d = (r, d') -> delayed_sub d' d.

(** The callable of a delayed value, when it returns, has replaced or
    deleted the attribute it was called for. *)
Definition resolves_itself (functors : F_env) (attr : string) (dv : delayed)
  : Prop :=
  match invokable dv, kind dv with
  | Functor id, (KDelayedValue | KDelayedDefault) =>
      forall d d', functors id [ANamespace; AStr attr] d = (Ok tt, d') ->
                   no_delayed_at attr d'
  | Functor id, KDelayedParse =>
      forall d d', functors id [] d = (Ok tt, d') -> no_delayed_at attr d'
  | _, _ => True
  end.

(** Every delayed value of the namespace has such a callable. *)
Definition well_behaved (functors : F_env) (d : namespace) : Prop :=
  forall attr dv, In (attr, VDelayed dv) d -> resolves_itself functors attr dv.

(** A computation that adds no delayed value to the namespace. *)
Definition shrinking {A} (m : M A) : Prop :=
  forall w, delayed_sub (ns (snd (m w))) (ns w).

(** A stream that alternates: [bytes], then pairs of one other entry
    and one [bytes]. *)
Definition unpairs (ps : list (item * list byte)) : list item :=
  flat_map (fun p => [fst p; Bytes (snd p)]) ps.

(** The first components are not [bytes]. *)
Definition no_bytes_first (ps : list (item * list byte)) : Prop :=
  Forall (fun p => is_bytes (fst p) = false) ps.

(** ** Concrete parsers and callables

    Small set-ups of the kind a command-line tool makes, on which the
    statements are instantiated. *)
Module Examples.

(** A fresh [Namespace()], nothing printed, nothing called. *)
Definition fresh : world := World [] [] [].

(** [def f(namespace, attr): pass] for every callable. *)
Definition idle : F_env := fun _ _ d => (Ok tt, d).

(** Callable 0 is [def f(namespace, attr): setattr(namespace, attr, 42)];
    the others do nothing. *)
Definition store : F_env :=
  fun id args d =>
    match id, args with
    | O, [ANamespace; AStr attr] => (Ok tt, Dict.set attr (VInt 42) d)
    | _, _ => (Ok tt, d)
    end.

(** Callable 0 raises a value error, callable 1 an argument error. *)
Definition failing : F_env :=
  fun id _ d =>
    match id with
    | O => (Raise (ValueError "bad value"), d)
    | _ => (Raise (ArgumentError "bad argument"), d)
    end.

Definition delayed_x : delayed := Delayed KDelayedValue 0 (Functor 0).

(** A parser with nothing registered, and the same after
    [bind_delayed_default(0, 'x')(f)], [f] being callable 0. *)
Definition bare : parser :=
  Parser "prog" false None [] [] None None [] [].

Definition plain : parser := bind_delayed_default 0 "x" 0 bare.

(** A parent parser with a [--flag], a subcommand [build] without it,
    and root parsers with [build] as default subcommand: one built on
    the parent, whose flag it inherits, and one without parents. *)
Definition parent : parser :=
  Parser "prog" false None [] [] None None ["--flag"]
         [("flag", VBool false)].

Definition build : parser :=
  Parser "prog build" false None [] [] None None [] [].

Definition root : parser :=
  Parser "prog" false (Some "build") [("build", build)] [parent]
         None None ["--flag"] [("flag", VBool false)].

Definition orphan : parser :=
  Parser "prog" false (Some "build") [("build", build)] []
         None None ["--flag"] [("flag", VBool false)].

(** [add_subparsers(default='bogus')], then [add_parser('build')]. *)
Definition misconfigured : parser :=
  add_parser "build" build (add_subparsers (Some "bogus") bare).

(** Two delayed values, priority 2 stored before priority 1. *)
Definition two_delayed : world :=
  World [("b", VDelayed (Delayed KDelayedValue 2 (Functor 0)));
         ("a", VDelayed (Delayed KDelayedValue 1 (Functor 0)))] [] [].

(** A configuration path and a delayed default that suppresses it. *)
Definition suppressing : world :=
  World [("config", VStr "/etc/tool.conf");
         ("no_config", VDelayed (DelayedDefault.wipe (Str "config") 0))]
        [] [].

Definition one_delayed : world :=
  World [("x", VDelayed delayed_x)] [] [].

End Examples.

(** ** The actions that store into the namespace *)

(** What [list.extend(values)] appends: the elements of a sequence, or
    the characters of a single [str]. *)
Fixpoint characters (s : string) : list string :=
  match s with
  | EmptyString => []
  | String c rest => String c EmptyString :: characters rest
  end.

Definition iterate (vs : values) : list string :=
  match vs with
  | Str s => characters s
  | Strs l => l
  end.

Module Actions.
Section WithCallables.
Variable functors : F_env.

(** [argparse._ensure_value(namespace, name, value)] *)
Definition _ensure_value (name : string) (v : value) : M value :=
  current <- getattr_or_None functors name ;;
  match current with
  | VNone => setattr name v
  | _ => ret tt
  end ;;;
  __getattribute__ functors name.

(** [ExtendAction.__call__]: a copy of the list under [dest],
    extended by the values, is stored back; anything but a list has
    no [extend]. *)
Definition ExtendAction__call__ (dest : string) (vs : values) : M unit :=
  items <- _ensure_value dest (VStrs []) ;;
  match items with
  | VStrs items => setattr dest (VStrs (items ++ iterate vs))
  | _ => raise (AttributeError "extend")
  end.

(** [CommaSeparatedValues.__call__] *)
Definition CommaSeparatedValues__call__ (dest : string) (vs : values)
  : M unit :=
  let items := CommaSeparatedValues.parse_values vs in
  setattr dest (VStrs items).

(** [CommaSeparatedValuesAppend.__call__] *)
Definition CommaSeparatedValuesAppend__call__ (dest : string) (vs : values)
  : M unit :=
  let items := CommaSeparatedValues.parse_values vs in
  ExtendAction__call__ dest (Strs items).
End WithCallables.

(** The destination of a signed comma-list action, as its [__call__]
    reads and writes it: [None] while the attribute is missing or
    [None], otherwise the tuple of lists it holds. *)
Definition tuple_attr : Type := option (list (list string)).

(** [tuple(o + n for o, n in zip(old, new))] *)
Definition zip_add (old new : list (list string)) : list (list string) :=
  map (fun on => fst on ++ snd on) (combine old new).

Section Signed.
Variable split_negations : list string -> result (list string * list string).
Variable split_elements :
  list string -> result (list string * list string * list string).

(** [CommaSeparatedNegations.__call__] *)
Definition CommaSeparatedNegations__call__ (vs : values) (dest : tuple_attr)
  : result unit * tuple_attr :=
  match CommaSeparatedNegations.parse_values split_negations vs with
  | Ok (disabled, enabled) => (Ok tt, Some [disabled; enabled])
  | Raise e => (Raise e, dest)
  end.

(** [CommaSeparatedNegationsAppend.__call__]; [_ensure_value] has
    stored the empty pair before [parse_values] can raise. *)
Definition CommaSeparatedNegationsAppend__call__ (vs : values)
           (dest : tuple_attr) : result unit * tuple_attr :=
  let old := match dest with Some t => t | None => [[]; []] end in
  match CommaSeparatedNegations.parse_values split_negations vs with
  | Ok (disabled, enabled) => (Ok tt, Some (zip_add old [disabled; enabled]))
  | Raise e => (Raise e, Some old)
  end.

(** [CommaSeparatedElements.__call__] *)
Definition CommaSeparatedElements__call__ (vs : values) (dest : tuple_attr)
  : result unit * tuple_attr :=
  match CommaSeparatedElements.parse_values split_elements vs with
  | Ok (disabled, neutral, enabled) =>
      (Ok tt, Some [disabled; neutral; enabled])
  | Raise e => (Raise e, dest)
  end.

(** [CommaSeparatedElementsAppend.__call__] *)
Definition CommaSeparatedElementsAppend__call__ (vs : values)
           (dest : tuple_attr) : result unit * tuple_attr :=
  let old := match dest with Some t => t | None => [[]; []; []] end in
  match CommaSeparatedElements.parse_values split_elements vs with
  | Ok (disabled, neutral, enabled) =>
      (Ok tt, Some (zip_add old [disabled; neutral; enabled]))
  | Raise e => (Raise e, Some old)
  end.
End Signed.
End Actions.

(** ** More string primitives *)

Module PyStr.

(** [c.isspace()] for a character below 256. *)
Definition isspace (c : ascii) : bool :=
  let n := nat_of_ascii c in
  (Nat.leb 9 n && Nat.leb n 13) || (Nat.leb 28 n && Nat.leb n 32)
  || Nat.eqb n 133 || Nat.eqb n 160.

(** [s.lstrip()], [s.rstrip()] and [s.strip()] *)
Fixpoint lstrip (s : string) : string :=
  match s with
  | String c rest => if isspace c then lstrip rest else s
  | EmptyString => EmptyString
  end.

Fixpoint rstrip (s : string) : string :=
  match s with
  | EmptyString => EmptyString
  | String c rest =>
      match rstrip rest with
      | EmptyString => if isspace c then EmptyString else String c EmptyString
      | kept => String c kept
      end
  end.

Definition strip (s : string) : string := rstrip (lstrip s).

(** [s.split(sep, 1)]: cut at the first separator only. *)
Fixpoint split1 (sep : ascii) (s : string) : list string :=
  match s with
  | EmptyString => [EmptyString]
  | String c rest =>
      if Ascii.eqb c sep then [EmptyString; rest]
      else match split1 sep rest with
           | [] => [String c EmptyString]
           | piece :: more => String c piece :: more
           end
  end.

(** [l[-1]] of a list of strings that is not empty. *)
Fixpoint last_piece (l : list string) : string :=
  match l with
  | [] => EmptyString
  | [x] => x
  | _ :: rest => last_piece rest
  end.

End PyStr.

(** ** Setting up a parser *)

Module Init.

(** [Counter(sys.argv[1:])[x]] *)
Definition count (x : string) (argv : list string) : Z :=
  Z.of_nat (count_occ string_dec argv x).

(** [self.debug = debug and '--debug' in sys.argv[1:]] *)
Definition debug_attr (debug : bool) (argv : list string) : bool :=
  debug && Py.str_in "--debug" argv.

(** [self.verbose] as [__init__] computes it from the [verbose]
    parameter and the command line. *)
Definition verbose_attr (verbose : Z) (argv : list string) : Z :=
  if (verbose =? 0)%Z then verbose
  else if (count "-q" argv + count "--quiet" argv =? 0)%Z
       then (count "-v" argv + count "--verbose" argv)%Z
       else (-1)%Z.

(** The [script=(__file__, __name__)] parameter: the project and the
    program name taken from the module name; [exists] is
    [os.path.exists(script_path)]. *)
Definition script_names (path_exists : bool) (script_module : string)
           (prog : option string) : result (string * string) :=
  if path_exists
  then
    let project := hd EmptyString (Py.split "." script_module) in
    let prog := match prog with
                | None => PyStr.last_piece (Py.split "." script_module)
                | Some p => p
                end in
    Ok (project, prog)
  else Raise (ValueError
                "invalid script parameter, should be (__file__, __name__)").

(** [ArgumentParser._update_desc(description, docs)]: the description
    it returns and stores, and the [_docs] attribute when
    [_generate_docs] has it assigned. *)
Definition _update_desc (generate_docs : bool)
           (description docs : option string)
  : option string * option (option string) :=
  let description_lines :=
    match description with
    | Some d => PyStr.split1 (ascii_of_nat 10) (PyStr.strip d)
    | None => []
    end in
  let description :=
    match description with
    | Some _ => Some (hd EmptyString description_lines)
    | None => None
    end in
  let _docs :=
    if generate_docs
    then Some match docs, description_lines with
              | None, [_; rest] => Some rest
              | _, _ => docs
              end
    else None in
  (description, _docs).

End Init.

(** ** The subparsers action *)

Module SubParser.

(** The two keywords of [add_parser] that are linked. *)
Record kwds : Type := Kwds {
  kw_description : option string;
  kw_help : option string
}.

(** The first lines of [_SubParser.add_parser]. *)
Definition link (k : kwds) : kwds :=
  match kw_description k with
  | None =>
      match kw_help k with
      | Some help_txt => Kwds (Some help_txt) (kw_help k)
      | None => k
      end
  | Some description =>
      match kw_help k with
      | None => Kwds (kw_description k) (Some description)
      | Some _ => k
      end
  end.

Section AddParser.
Variable parser_object : Type.
(** [argparse._SubParsersAction.add_parser], which builds the parser
    with the class in [self._parser_class]. *)
Variable super_add_parser : nat -> string -> kwds -> result parser_object.

(** [_SubParser.add_parser(name, cls, **kwds)], on the
    [_parser_class] attribute: the result and the attribute
    afterwards. *)
Definition add_parser (name : string) (cls : option nat) (k : kwds)
           (_parser_class : nat) : result parser_object * nat :=
  let k := link k in
  let orig_class := _parser_class in
  let _parser_class :=
    match cls with Some c => c | None => _parser_class end in
  match super_add_parser _parser_class name k with
  | Ok parser => (Ok parser, orig_class)
  | Raise e => (Raise e, _parser_class)
  end.
End AddParser.

Section Call.
Variable functors : F_env.
(** [parser.parse_known_args(arg_strings, namespace)] of the selected
    parser. *)
Variable parse_known_args : parser -> list string -> M (list string).

(** [_SubParser.__call__(parser, namespace, values)]; [dest] is
    [None] for [argparse.SUPPRESS].  In the handler of the
    [KeyError] the message is built with [_], a name the module
    binds nowhere: looking it up is a [NameError]. *)
Definition __call__ (dest : option string)
           (_name_parser_map : list (string * parser))
           (values : list string) : M unit :=
  match values with
  | [] => raise (OtherError "IndexError")
  | parser_name :: arg_strings =>
      match dest with
      | Some d => setattr d (VStr parser_name)
      | None => ret tt
      end ;;;
      match find_parser parser_name _name_parser_map with
      | None => raise (OtherError "name '_' is not defined")
      | Some parser =>
          arg_strings <- parse_known_args parser arg_strings ;;
          match arg_strings with
          | [] => ret tt
          | _ =>
              d <- get_ns ;;
              (if Dict.has_key _UNRECOGNIZED_ARGS_ATTR d then ret tt
               else setattr _UNRECOGNIZED_ARGS_ATTR (VStrs [])) ;;;
              stored <- __getattribute__ functors _UNRECOGNIZED_ARGS_ATTR ;;
              match stored with
              | VStrs old =>
                  setattr _UNRECOGNIZED_ARGS_ATTR (VStrs (old ++ arg_strings))
              | _ => raise (AttributeError "extend")
              end
          end
      end
  end.
End Call.

End SubParser.

(** ** Vocabulary of the further statements *)

(** The list an attribute holds for an appending action: empty while the
    attribute is missing or [None]. *)
Definition stored_list (dest : string) (d : namespace) : option (list string) :=
  match Dict.get dest d with
  | None | Some VNone => Some []
  | Some (VStrs l) => Some l
  | Some _ => None
  end.

(** A quiet flag is among the arguments. *)
Definition quiet_flag (argv : list string) : Prop :=
  In "-q" argv \/ In "--quiet" argv.

(** Two runs of entries put together the way [ListStream.write] does it:
    where [bytes] meets [bytes] at the seam, they become one entry. *)
Fixpoint glue (l1 l2 : list item) : list item :=
  match l1 with
  | [] => l2
  | [x] =>
      match x, l2 with
      | Bytes tail, Bytes head :: rest => Bytes (tail ++ head) :: rest
      | _, _ => x :: l2
      end
  | x :: rest1 => x :: glue rest1 l2
  end.

(** The bytes of an ASCII [str]. *)
Definition is_ascii (b : list byte) : bool :=
  forallb (fun c => (Byte.to_N c <? 128)%N) b.

(** What [b''.join] takes from the entries that are not markers: the
    [bytes] and the contents of the other objects with a buffer. *)
Definition joined_of (l : list item) : list byte :=
  flat_map (fun x => match buffer_of x with Some b => b | None => [] end) l.

(** An entry that is no marker and has no buffer. *)
Definition unjoinable (x : item) : bool :=
  negb (is_FormatterObject x)
  && match buffer_of x with Some _ => false | None => true end.

(** The message of the type error of [b''.join] at index [i]. *)
Definition join_error (i : nat) (type_name : string) : exc :=
  TypeError ("sequence item " ++ decimal i
               ++ ": expected a bytes-like object, " ++ type_name ++ " found").

(** The attributes a namespace keeps when the named ones are deleted. *)
Definition without (names : list string) (d : namespace) : namespace :=
  filter (fun kv => negb (Py.str_in (fst kv) names)) d.

(** What a wipe-made delayed default stored under [attr] deletes. *)
Definition wiped_by (p : string * delayed) : list string :=
  match invokable (snd p) with
  | Wipe attrs => attrs ++ [fst p]
  | Functor _ => [fst p]
  end.

(** ** Arguments from standard input *)

Module Stdin.
(** [sys.stdin], as far as [ParseStdin] looks at it: whether it is a
    terminal, and the lines [readlines()] returns. *)
Record t : Type := Make {
  isatty : bool;
  readlines : list string
}.
End Stdin.

Module ParseStdin.

(** The attributes of the action that [__call__] and the argument
    error read. *)
Record action : Type := Action {
  option_strings : list string;
  metavar : option string;
  dest : string;
  allow_stdin : bool
}.

Definition SUPPRESS : string := "==SUPPRESS==".

(** [argparse._get_action_name(action)], for an action without
    choices. *)
Definition _get_action_name (self : action) : option string :=
  let by_dest :=
    if String.eqb (dest self) SUPPRESS then None else Some (dest self) in
  match option_strings self with
  | _ :: _ => Some (Py.join "/" (option_strings self))
  | [] =>
      match metavar self with
      | Some m => if String.eqb m SUPPRESS then by_dest else Some m
      | None => by_dest
      end
  end.

(** [argparse.ArgumentError(self, message)], with what [str] gives for
    it. *)
Definition argument_error (self : action) (message : string) : exc :=
  match _get_action_name self with
  | Some name => ArgumentError ("argument " ++ name ++ ": " ++ message)
  | None => ArgumentError message
  end.

(** [len(values) == 1 and values[0] == '-'], for a [str] as for a
    list. *)
Definition is_dash (vs : values) : bool :=
  match vs with
  | Str s => String.eqb s "-"
  | Strs [x] => String.eqb x "-"
  | Strs _ => false
  end.

(** [[x.strip() for x in lines if x.strip() != '']] *)
Definition stripped_lines (lines : list string) : list string :=
  map PyStr.strip
      (filter (fun x => negb (String.eqb (PyStr.strip x) EmptyString)) lines).

Section Call.
Variable functors : F_env.

(** What [open('/dev/tty')] does: the stream it returns, or the
    error it raises where there is no terminal to open. *)
Variable open_tty : result Stdin.t.

(** [ParseStdin.__call__], for [values] that are a [str] or a list;
    the second component is [sys.stdin] afterwards.  When the
    terminal cannot be opened the input has been read to its end,
    and nothing has been stored. *)
Definition __call__ (self : action) (vs : values) (stdin : Stdin.t)
           (w : world) : (result unit * world) * Stdin.t :=
  if allow_stdin self && is_dash vs
  then
    if negb (Stdin.isatty stdin)
    then
      let vs := Strs (stripped_lines (Stdin.readlines stdin)) in
      match open_tty with
      | Ok tty => (Actions.ExtendAction__call__ functors (dest self) vs w, tty)
      | Raise e => ((Raise e, w), Stdin.Make (Stdin.isatty stdin) [])
      end
    else
      ((Raise (argument_error self "'-' is only valid when piping data in"),
        w),
       stdin)
  else (Actions.ExtendAction__call__ functors (dest self) vs w, stdin).
End Call.

End ParseStdin.

(** A string that [strip] leaves alone and that is not empty. *)
Definition bare_word (s : string) : Prop :=
  s <> EmptyString /\ PyStr.strip s = s.

(** * Properties *)

(** ** The primitives on small inputs *)

Example split_keeps_empty_pieces :
  Py.split "," "a,,b" = ["a"; ""; "b"] /\ Py.split "," ",a," = [""; "a"; ""]
  /\ Py.split "," "" = [""].
Proof. repeat split. Qed.

Example repr_quotes :
  Py.repr "bogus" = "'bogus'" /\ Py.repr "it's" = String (ascii_of_nat 34)
                                                     ("it's" ++ String (ascii_of_nat 34) "").
Proof. repeat split. Qed.

Example negations_example :
  CommaSeparatedNegations.parse_values
    (Sequences.split_negations Sequences.has_bare_sign) (Str "-a,b,c,-d")
  = Ok (["a"; "d"], ["b"; "c"]).
Proof. reflexivity. Qed.

Example elements_example :
  CommaSeparatedElements.parse_values
    (Sequences.split_elements Sequences.has_bare_sign)
    (Strs ["-a,b"; "+c,-d,e"])
  = Ok (["a"; "d"], ["b"; "e"], ["c"]).
Proof. reflexivity. Qed.

Example elements_bare_sign :
  CommaSeparatedElements.parse_values
    (Sequences.split_elements Sequences.has_bare_sign) (Str "a,-,b")
  = Raise (ArgumentTypeError "malformed token sequence").
Proof. reflexivity. Qed.

Example write_pads_with_empty_chunks :
  ListStream.write [] [Fmt Bold; Fmt Reset]
  = [Bytes []; Fmt Bold; Bytes []; Fmt Reset; Bytes []]
  /\ ListStream.write [Bytes [x61]; Fmt Bold; Bytes []] [Bytes [x62]; Bytes [x63]]
     = [Bytes [x61]; Fmt Bold; Bytes [x62; x63]].
Proof. repeat split. Qed.

Example sorted_by_priority_example :
  map fst (sorted_by_priority
             [("c", Delayed KDelayedValue 2 (Functor 0));
              ("a", Delayed KDelayedParse 1 (Functor 1));
              ("d", Delayed KOrderedParse 2 (Functor 2));
              ("b", Delayed KDelayedDefault 1 (Wipe []))])
  = ["a"; "b"; "c"; "d"].
Proof. reflexivity. Qed.

(** ** Splitting on the delimiter *)

Lemma split_not_nil (sep : ascii) (s : string) : Py.split sep s <> [].
Proof.
  destruct s as [|c rest]; simpl; [discriminate|].
  destruct (Ascii.eqb c sep); [discriminate|].
  destruct (Py.split sep rest); discriminate.
Qed.

(** Splitting distributes over a separator in the middle. *)
Lemma split_app (sep : ascii) (a b : string) :
  Py.split sep (a ++ String sep b)%string = Py.split sep a ++ Py.split sep b.
Proof.
  induction a as [|c a IH]; simpl.
  - now rewrite Ascii.eqb_refl.
  - destruct (Ascii.eqb c sep); [now rewrite IH|].
    rewrite IH.
    destruct (Py.split sep a) eqn:E; [now apply split_not_nil in E|].
    reflexivity.
Qed.

Lemma comma_tokens_app (a b : string) :
  comma_tokens (a ++ String "," b)%string = comma_tokens a ++ comma_tokens b.
Proof.
  unfold comma_tokens. now rewrite split_app, filter_app.
Qed.

Lemma comma_tokens_empty : comma_tokens "" = [].
Proof. reflexivity. Qed.

Lemma comma_tokens_leading (a : string) :
  comma_tokens ("," ++ a)%string = comma_tokens a.
Proof. exact (comma_tokens_app "" a). Qed.

Lemma comma_tokens_trailing (a : string) :
  comma_tokens (a ++ ",")%string = comma_tokens a.
Proof.
  change (a ++ ",")%string with (a ++ String "," "")%string; rewrite comma_tokens_app.
  now rewrite comma_tokens_empty, app_nil_r.
Qed.

Lemma comma_tokens_doubled (a b : string) :
  comma_tokens (a ++ ",," ++ b)%string = comma_tokens (a ++ "," ++ b)%string.
Proof.
  change (a ++ ",," ++ b)%string with (a ++ String "," (String "," b))%string.
  change (a ++ "," ++ b)%string with (a ++ String "," b)%string.
  rewrite !comma_tokens_app.
  pose proof (comma_tokens_leading b) as H; simpl in H.
  now rewrite H.
Qed.

Lemma comma_tokens_nonempty (s : string) :
  Forall (fun t => t <> "") (comma_tokens s).
Proof.
  unfold comma_tokens. apply Forall_forall. intros t Ht.
  apply filter_In in Ht. destruct Ht as [_ Ht]. now destruct t.
Qed.

Lemma all_tokens_nonempty (vs : values) :
  Forall (fun t => t <> "") (all_tokens vs).
Proof.
  unfold all_tokens. apply Forall_forall. intros t Ht.
  apply in_flat_map in Ht. destruct Ht as [v [_ Ht]].
  pose proof (comma_tokens_nonempty v) as H.
  rewrite Forall_forall in H. now apply H.
Qed.

Lemma extend_loop (l : list string) (items : list string) :
  fold_left (fun items value => items ++ comma_tokens value) l items
  = items ++ flat_map comma_tokens l.
Proof.
  revert items; induction l as [|v l IH]; intros items; simpl.
  - now rewrite app_nil_r.
  - now rewrite IH, app_assoc.
Qed.

Lemma csv_parse_values_tokens (vs : values) :
  CommaSeparatedValues.parse_values vs = all_tokens vs.
Proof.
  destruct vs as [s|l]; unfold CommaSeparatedValues.parse_values, all_tokens; simpl.
  - now rewrite app_nil_r.
  - now rewrite extend_loop.
Qed.

(** ** Comma-list actions *)

Section AnySplitter.
Variable split_negations : list string -> result (list string * list string).
Variable split_elements :
  list string -> result (list string * list string * list string).

(** The two signed variants read their input through its tokens
    only. *)
Lemma negations_loop_tokens (l1 l2 : list string) :
  map comma_tokens l1 = map comma_tokens l2 ->
  forall d e,
    CommaSeparatedNegations.loop split_negations l1 d e
    = CommaSeparatedNegations.loop split_negations l2 d e.
Proof.
  revert l2; induction l1 as [|v1 l1 IH]; intros [|v2 l2] H d e;
    try discriminate; [reflexivity|].
  simpl in H. injection H as Hv Hl. simpl. rewrite Hv.
  destruct (split_negations (comma_tokens v2)) as [[neg pos]|err];
    [now apply IH|reflexivity].
Qed.

Lemma elements_loop_tokens (l1 l2 : list string) :
  map comma_tokens l1 = map comma_tokens l2 ->
  forall d n e,
    CommaSeparatedElements.loop split_elements l1 d n e
    = CommaSeparatedElements.loop split_elements l2 d n e.
Proof.
  revert l2; induction l1 as [|v1 l1 IH]; intros [|v2 l2] H d n e;
    try discriminate; [reflexivity|].
  simpl in H. injection H as Hv Hl. simpl. rewrite Hv.
  destruct (split_elements (comma_tokens v2)) as [[[neg neu] pos]|err];
    [now apply IH|reflexivity].
Qed.

Lemma negations_str_tokens (s1 s2 : string) :
  comma_tokens s1 = comma_tokens s2 ->
  CommaSeparatedNegations.parse_values split_negations (Str s1)
  = CommaSeparatedNegations.parse_values split_negations (Str s2).
Proof.
  intros H. unfold CommaSeparatedNegations.parse_values.
  apply negations_loop_tokens. simpl. now rewrite H.
Qed.

Lemma elements_str_tokens (s1 s2 : string) :
  comma_tokens s1 = comma_tokens s2 ->
  CommaSeparatedElements.parse_values split_elements (Str s1)
  = CommaSeparatedElements.parse_values split_elements (Str s2).
Proof.
  intros H. unfold CommaSeparatedElements.parse_values.
  apply elements_loop_tokens. simpl. now rewrite H.
Qed.
End AnySplitter.

Lemma csv_str_tokens (s1 s2 : string) :
  comma_tokens s1 = comma_tokens s2 ->
  CommaSeparatedValues.parse_values (Str s1)
  = CommaSeparatedValues.parse_values (Str s2).
Proof. intros H. now rewrite !csv_parse_values_tokens; unfold all_tokens; simpl; rewrite H. Qed.

(** C10. Every comma-list action drops the empty strings that splitting
    on the delimiter produces: the tokens it works on are exactly the
    non-empty pieces, so a delimiter at the start, at the end, or doubled
    in the middle changes nothing and raises nothing, whatever the
    splitting routine of the signed variants is; "a,,b" gives a and b,
    ",a," gives a. *)
Theorem empty_tokens_dropped :
  forall (split_negations : list string -> result (list string * list string))
         (split_elements :
            list string -> result (list string * list string * list string))
         (a b : string),
    let csv := CommaSeparatedValues.parse_values in
    let neg := CommaSeparatedNegations.parse_values split_negations in
    let elt := CommaSeparatedElements.parse_values split_elements in
    let bare := Sequences.has_bare_sign in
    (forall vs, csv vs = all_tokens vs /\ Forall (fun t => t <> "") (csv vs)) /\
    (forall value,
        comma_tokens value = filter Py.truthy (Py.split "," value) /\
        Forall (fun t => t <> "") (comma_tokens value)) /\
    (csv (Str ("," ++ a)%string) = csv (Str a) /\
     csv (Str (a ++ ",")%string) = csv (Str a) /\
     csv (Str (a ++ ",," ++ b)%string) = csv (Str (a ++ "," ++ b)%string)) /\
    (neg (Str ("," ++ a)%string) = neg (Str a) /\
     neg (Str (a ++ ",")%string) = neg (Str a) /\
     neg (Str (a ++ ",," ++ b)%string) = neg (Str (a ++ "," ++ b)%string)) /\
    (elt (Str ("," ++ a)%string) = elt (Str a) /\
     elt (Str (a ++ ",")%string) = elt (Str a) /\
     elt (Str (a ++ ",," ++ b)%string) = elt (Str (a ++ "," ++ b)%string)) /\
    (csv (Str "a,,b") = ["a"; "b"] /\ csv (Str ",a,") = ["a"] /\
     csv (Strs ["a,,b"; ",a,"]) = ["a"; "b"; "a"]) /\
    (neg (Str "a,,b") = neg (Str "a,b") /\ neg (Str ",a,") = neg (Str "a") /\
     elt (Str "a,,b") = elt (Str "a,b") /\ elt (Str ",a,") = elt (Str "a")) /\
    (CommaSeparatedNegations.parse_values (Sequences.split_negations bare)
       (Str "a,,b") = Ok ([], ["a"; "b"]) /\
     CommaSeparatedNegations.parse_values (Sequences.split_negations bare)
       (Str ",a,") = Ok ([], ["a"]) /\
     CommaSeparatedElements.parse_values (Sequences.split_elements bare)
       (Str "a,,b") = Ok ([], ["a"; "b"], []) /\
     CommaSeparatedElements.parse_values (Sequences.split_elements bare)
       (Str ",a,") = Ok ([], ["a"], [])).
Proof.
  intros split_negations split_elements a b csv neg elt bare.
  pose proof (comma_tokens_leading a) as Hl.
  pose proof (comma_tokens_trailing a) as Ht.
  pose proof (comma_tokens_doubled a b) as Hd.
  repeat match goal with |- _ /\ _ => split | |- forall _, _ => intro end;
    try reflexivity;
    try (apply csv_str_tokens; assumption);
    try (apply negations_str_tokens; assumption);
    try (apply elements_str_tokens; assumption).
  - apply csv_parse_values_tokens.
  - unfold csv. rewrite csv_parse_values_tokens. apply all_tokens_nonempty.
  - apply comma_tokens_nonempty.
Qed.

(** ** The three-way splitter *)

Lemma sign_classes (t : string) :
  (Sequences.is_disabled t = true /\ Sequences.is_neutral t = false
   /\ Sequences.is_enabled t = false)
  \/ (Sequences.is_disabled t = false /\ Sequences.is_neutral t = true
      /\ Sequences.is_enabled t = false)
  \/ (Sequences.is_disabled t = false /\ Sequences.is_neutral t = false
      /\ Sequences.is_enabled t = true).
Proof.
  unfold Sequences.is_neutral, Sequences.is_disabled, Sequences.is_enabled.
  destruct t as [|c t]; simpl; [tauto|].
  destruct (Ascii.eqb c "-") eqn:Em; destruct (Ascii.eqb c "+") eqn:Ep;
    simpl; try tauto.
  apply Ascii.eqb_eq in Em, Ep. subst. discriminate.
Qed.

Lemma strip_sign_neutral (t : string) :
  Sequences.is_neutral t = true -> Sequences.strip_sign t = t.
Proof.
  unfold Sequences.is_neutral, Sequences.is_disabled, Sequences.is_enabled.
  destruct t as [|c t]; simpl; [reflexivity|].
  destruct (Ascii.eqb c "-"); destruct (Ascii.eqb c "+"); simpl;
    intros H; try discriminate; reflexivity.
Qed.

(** Three filters that classify every element exactly once rearrange
    the list. *)
Lemma three_way_permutation (toks : list string) :
  Permutation
    (filter Sequences.is_disabled toks ++ filter Sequences.is_neutral toks
       ++ filter Sequences.is_enabled toks)
    toks.
Proof.
  induction toks as [|t toks IH]; simpl; [constructor|].
  destruct (sign_classes t) as [(-> & -> & ->)|[(-> & -> & ->)|(-> & -> & ->)]].
  - simpl. now constructor.
  - symmetry. apply Permutation_cons_app. now symmetry.
  - symmetry. rewrite app_assoc. apply Permutation_cons_app.
    rewrite <- app_assoc. now symmetry.
Qed.

Lemma map_strip_neutral (toks : list string) :
  map Sequences.strip_sign (filter Sequences.is_neutral toks)
  = filter Sequences.is_neutral toks.
Proof.
  induction toks as [|t toks IH]; simpl; [reflexivity|].
  destruct (Sequences.is_neutral t) eqn:E; simpl; [|exact IH].
  now rewrite IH, strip_sign_neutral.
Qed.

Section Elements.
Variable malformed : list string -> bool.

Let split := Sequences.split_elements malformed.

(** The loop of [parse_values] extends the three accumulators with the
    classified tokens of the values, or stops at a malformed value. *)
Lemma elements_loop_spec (l : list string) :
  forall d n e,
    match CommaSeparatedElements.loop split l d n e with
    | Ok (d', n', e') =>
        let toks := flat_map comma_tokens l in
        d' = d ++ map Sequences.strip_sign (filter Sequences.is_disabled toks)
        /\ n' = n ++ filter Sequences.is_neutral toks
        /\ e' = e ++ map Sequences.strip_sign (filter Sequences.is_enabled toks)
    | Raise err =>
        err = ArgumentTypeError "malformed token sequence"
        /\ exists value, In value l /\ malformed (comma_tokens value) = true
    end.
Proof.
  induction l as [|v l IH]; intros d n e; simpl.
  - now rewrite !app_nil_r.
  - unfold split at 1, Sequences.split_elements.
    destruct (malformed (comma_tokens v)) eqn:Ev; simpl.
    + split; [reflexivity|]. exists v. auto.
    + specialize (IH (d ++ map Sequences.strip_sign
                              (filter Sequences.is_disabled (comma_tokens v)))
                     (n ++ filter Sequences.is_neutral (comma_tokens v))
                     (e ++ map Sequences.strip_sign
                              (filter Sequences.is_enabled (comma_tokens v)))).
      fold split.
      destruct (CommaSeparatedElements.loop split l _ _ _) as [[[d' n'] e']|err].
      * destruct IH as (-> & -> & ->).
        rewrite !filter_app, !map_app, <- !app_assoc. auto.
      * destruct IH as [-> [value [Hin Hm]]].
        split; [reflexivity|]. exists value. auto.
Qed.
End Elements.

(** C6, as the code has it. The tokens of the input are the pieces
    between commas that are not empty, of every value in order.  When
    the disabled/neutral/enabled splitter returns, every one of these
    tokens, counted as often as it occurs, has gone to exactly one of
    the three lists, the one of its sign class (the classes exclude each
    other and cover every token), without its sign; each list keeps the
    input order, and the three lists together hold the input tokens
    without their signs, each as often as the input has it.  The
    splitter raises only on a value the splitting routine rejects. *)
Theorem elements_partition :
  forall (malformed : list string -> bool) (vs : values),
    let toks := all_tokens vs in
    toks = flat_map (fun value =>
                       filter (fun x => negb (String.eqb x EmptyString))
                              (Py.split "," value))
                    (as_list vs) /\
    all_tokens (Strs ["-a,b"; ",+c,,d"]) = ["-a"; "b"; "+c"; "d"] /\
    CommaSeparatedElements.parse_values
      (Sequences.split_elements Sequences.has_bare_sign)
      (Strs ["-a,b"; ",+c,,d"])
    = Ok (["a"], ["b"; "d"], ["c"]) /\
    (forall t,
        (Sequences.is_disabled t = true /\ Sequences.is_neutral t = false
         /\ Sequences.is_enabled t = false)
        \/ (Sequences.is_disabled t = false /\ Sequences.is_neutral t = true
            /\ Sequences.is_enabled t = false)
        \/ (Sequences.is_disabled t = false /\ Sequences.is_neutral t = false
            /\ Sequences.is_enabled t = true)) /\
    match CommaSeparatedElements.parse_values
            (Sequences.split_elements malformed) vs with
    | Ok (disabled, neutral, enabled) =>
        disabled = map Sequences.strip_sign (filter Sequences.is_disabled toks)
        /\ neutral = map Sequences.strip_sign (filter Sequences.is_neutral toks)
        /\ neutral = filter Sequences.is_neutral toks
        /\ enabled = map Sequences.strip_sign (filter Sequences.is_enabled toks)
        /\ Permutation (disabled ++ neutral ++ enabled)
                       (map Sequences.strip_sign toks)
        /\ (forall name,
               count_occ string_dec (disabled ++ neutral ++ enabled) name
               = count_occ string_dec (map Sequences.strip_sign toks) name)
        /\ length disabled + length neutral + length enabled = length toks
    | Raise err =>
        err = ArgumentTypeError "malformed token sequence"
        /\ exists value,
            In value (as_list vs) /\ malformed (comma_tokens value) = true
    end.
Proof.
  intros malformed vs toks.
  split.
  { unfold toks, all_tokens. apply flat_map_ext. intros value.
    unfold comma_tokens. apply filter_ext. now intros []. }
  split; [reflexivity|]. split; [reflexivity|].
  split; [exact sign_classes|].
  unfold CommaSeparatedElements.parse_values.
  pose proof (elements_loop_spec malformed (as_list vs) [] [] []) as H.
  destruct (CommaSeparatedElements.loop _ (as_list vs) [] [] [])
    as [[[d n] e]|err]; [|exact H].
  simpl in H. destruct H as (-> & -> & ->).
  fold (all_tokens vs) in *. fold toks.
  assert (HP : Permutation
                 (map Sequences.strip_sign (filter Sequences.is_disabled toks)
                    ++ filter Sequences.is_neutral toks
                    ++ map Sequences.strip_sign (filter Sequences.is_enabled toks))
                 (map Sequences.strip_sign toks)).
  { rewrite <- (map_strip_neutral toks), <- !map_app.
    apply Permutation_map, three_way_permutation. }
  repeat match goal with |- _ /\ _ => split end; try reflexivity.
  - now rewrite map_strip_neutral.
  - exact HP.
  - intros name. now apply Permutation_count_occ.
  - apply Permutation_length in HP.
    rewrite !length_app, !length_map in HP. rewrite !length_map. lia.
Qed.

(** The claim C6 fails on a name that is given with several signs: every
    token of -a,a,+a goes to one list, and the output token a is in all
    three. *)
Lemma same_name_in_three_lists :
  all_tokens (Str "-a,a,+a") = ["-a"; "a"; "+a"]
  /\ CommaSeparatedElements.parse_values
       (Sequences.split_elements Sequences.has_bare_sign) (Str "-a,a,+a")
     = Ok (["a"], ["a"], ["a"]).
Proof. split; reflexivity. Qed.

(** ** The boolean converter *)

Lemma str_in_In (x : string) (t : list string) :
  Py.str_in x t = true <-> In x t.
Proof.
  unfold Py.str_in. rewrite existsb_exists. split.
  - intros [y [Hy E]]. apply String.eqb_eq in E. now subst.
  - intros H. exists x. split; [exact H|apply String.eqb_refl].
Qed.

Lemma lower_ascii_idempotent (c : ascii) :
  Py.lower_ascii (Py.lower_ascii c) = Py.lower_ascii c.
Proof. destruct c as [[] [] [] [] [] [] [] []]; reflexivity. Qed.

Lemma lower_idempotent (s : string) : Py.lower (Py.lower s) = Py.lower s.
Proof.
  induction s as [|c s IH]; simpl; [reflexivity|].
  now rewrite lower_ascii_idempotent, IH.
Qed.

(** C7. The boolean converter lowers its argument and then returns true
    exactly for y, yes and true, false exactly for n, no and false; on
    every other token it raises a value error whose message ends with
    the list of the allowed literals. *)
Theorem boolean_literals :
  forall value : string,
    let v := Py.lower value in
    (StoreBool.boolean value = Ok true <-> In v ["y"; "yes"; "true"]) /\
    (StoreBool.boolean value = Ok false <-> In v ["n"; "no"; "false"]) /\
    ((exists e, StoreBool.boolean value = Raise e)
     <-> ~ In v ["y"; "yes"; "true"; "n"; "no"; "false"]) /\
    (forall e, StoreBool.boolean value = Raise e ->
               e = ValueError ("value " ++ Py.repr v
                                 ++ " must be [y|yes|true|n|no|false]")) /\
    StoreBool.boolean v = StoreBool.boolean value /\
    (StoreBool.boolean "yes" = Ok true /\ StoreBool.boolean "YES" = Ok true /\
     StoreBool.boolean "Y" = Ok true /\ StoreBool.boolean "True" = Ok true /\
     StoreBool.boolean "n" = Ok false /\ StoreBool.boolean "No" = Ok false /\
     StoreBool.boolean "FALSE" = Ok false) /\
    StoreBool.boolean "bogus"
    = Raise (ValueError "value 'bogus' must be [y|yes|true|n|no|false]").
Proof.
  intros value v.
  assert (Hyes : Py.str_in v ["y"; "yes"; "true"] = true
                 <-> In v ["y"; "yes"; "true"]) by apply str_in_In.
  assert (Hno : Py.str_in v ["n"; "no"; "false"] = true
                <-> In v ["n"; "no"; "false"]) by apply str_in_In.
  assert (Hdisj : In v ["y"; "yes"; "true"] -> In v ["n"; "no"; "false"] -> False).
  { simpl. intros [<-|[<-|[<-|[]]]] [E|[E|[E|[]]]]; discriminate. }
  assert (Hall : In v ["y"; "yes"; "true"; "n"; "no"; "false"]
                 <-> In v ["y"; "yes"; "true"] \/ In v ["n"; "no"; "false"]).
  { simpl. tauto. }
  repeat match goal with |- _ /\ _ => split end; try reflexivity.
  - unfold StoreBool.boolean. fold v. split.
    + destruct (Py.str_in v ["y"; "yes"; "true"]); [tauto|].
      destruct (Py.str_in v ["n"; "no"; "false"]); intros H; discriminate.
    + intros H. apply Hyes in H. now rewrite H.
  - unfold StoreBool.boolean. fold v. split.
    + destruct (Py.str_in v ["y"; "yes"; "true"]); [intros H; discriminate|].
      destruct (Py.str_in v ["n"; "no"; "false"]); [tauto|].
      intros H; discriminate.
    + intros H.
      destruct (Py.str_in v ["y"; "yes"; "true"]) eqn:E.
      * exfalso. apply (Hdisj (proj1 Hyes eq_refl) H).
      * apply Hno in H. now rewrite H.
  - unfold StoreBool.boolean. fold v. split.
    + intros [e He] Hin. apply Hall in Hin. revert He.
      destruct Hin as [H|H].
      * apply Hyes in H. rewrite H. discriminate.
      * apply Hno in H. rewrite H.
        destruct (Py.str_in v ["y"; "yes"; "true"]); discriminate.
    + intros Hn.
      destruct (Py.str_in v ["y"; "yes"; "true"]) eqn:E1.
      * exfalso. apply Hn, Hall. left. now apply Hyes.
      * destruct (Py.str_in v ["n"; "no"; "false"]) eqn:E2.
        -- exfalso. apply Hn, Hall. right. now apply Hno.
        -- eexists. reflexivity.
  - intros e. unfold StoreBool.boolean. fold v.
    destruct (Py.str_in v ["y"; "yes"; "true"]); [discriminate|].
    destruct (Py.str_in v ["n"; "no"; "false"]); [discriminate|].
    intros H. now injection H as <-.
  - unfold StoreBool.boolean. subst v. now rewrite lower_idempotent.
Qed.

(** ** The formatter test double *)


Lemma collect_shape (args : list item) :
  forall stringlist objectlist,
  exists head ps,
    ListStream.collect args stringlist objectlist
    = objectlist ++ Bytes head :: unpairs ps
    /\ no_bytes_first ps.
Proof.
  induction args as [|arg args IH]; intros sl ol; simpl.
  - exists (concat sl), []. split; [reflexivity|constructor].
  - destruct arg as [b|o|n buf].
    + apply IH.
    + destruct (IH [] (ol ++ [Bytes (concat sl); Fmt o])) as (h & ps & E & F).
      exists (concat sl), ((Fmt o, h) :: ps). split.
      * rewrite E, <- app_assoc. reflexivity.
      * constructor; [reflexivity|exact F].
    + destruct (IH [] (ol ++ [Bytes (concat sl); Other n buf])) as (h & ps & E & F).
      exists (concat sl), ((Other n buf, h) :: ps). split.
      * rewrite E, <- app_assoc. reflexivity.
      * constructor; [reflexivity|exact F].
Qed.

Lemma last_entry_app (l : list item) (x : item) :
  ListStream.last_entry (l ++ [x]) = Some x.
Proof.
  induction l as [|y l IH]; [reflexivity|].
  simpl. destruct (l ++ [x]) eqn:E; [now destruct l|exact IH].
Qed.

Lemma last_entry_split (l : list item) (x : item) :
  ListStream.last_entry l = Some x -> l = removelast l ++ [x].
Proof.
  induction l as [|y l IH]; [discriminate|].
  destruct l as [|z l].
  - simpl. intros H. now injection H as ->.
  - intros H. change (removelast (y :: z :: l)) with (y :: removelast (z :: l)).
    simpl. f_equal. apply IH. exact H.
Qed.

(** The last entry of an alternating stream is [bytes]. *)
Lemma alternating_last (ps : list (item * list byte)) :
  forall head,
  exists front tail,
    Bytes head :: unpairs ps = front ++ [Bytes tail]
    /\ forall h rest,
        exists head' ps',
          front ++ Bytes (tail ++ h) :: unpairs rest
          = Bytes head' :: unpairs ps'
          /\ (no_bytes_first ps -> no_bytes_first rest -> no_bytes_first ps').
Proof.
  induction ps as [|[x b] ps IH]; intros head.
  - exists [], head. split; [reflexivity|].
    intros h rest. exists (head ++ h), rest. split; [reflexivity|auto].
  - destruct (IH b) as (front & tail & E & K).
    exists (Bytes head :: x :: front), tail. split.
    + simpl. simpl in E. now rewrite E.
    + intros h rest. destruct (K h rest) as (b' & ps' & E' & F').
      exists head, ((x, b') :: ps'). split.
      * simpl. simpl in E'. now rewrite E'.
      * intros Hps Hrest. inversion Hps; subst.
        constructor; [assumption|apply F'; assumption].
Qed.

(** [write] keeps a stream that started empty alternating. *)
Lemma write_alternating (self : ListStream.t) (args : list item) :
  (self = [] \/ exists head ps, self = Bytes head :: unpairs ps
                                /\ no_bytes_first ps) ->
  exists head ps,
    ListStream.write self args = Bytes head :: unpairs ps /\ no_bytes_first ps.
Proof.
  intros Hself. unfold ListStream.write.
  destruct (collect_shape args [] []) as (h & rest & E & F).
  rewrite E. simpl.
  destruct Hself as [->|(head & ps & -> & Fps)].
  - simpl. eauto.
  - destruct (alternating_last ps head) as (front & tail & E1 & K).
    rewrite E1, last_entry_app, removelast_last.
    destruct (K h rest) as (head' & ps' & E' & F').
    simpl. rewrite E'. eauto.
Qed.

Lemma alternating_no_adjacent (ps : list (item * list byte)) :
  no_bytes_first ps ->
  forall head, no_adjacent_bytes (Bytes head :: unpairs ps) = true.
Proof.
  induction 1 as [|[x b] ps Hx Hps IH]; intros head; [reflexivity|].
  simpl in Hx.
  change (unpairs ((x, b) :: ps)) with (x :: Bytes b :: unpairs ps).
  specialize (IH b).
  cbn [no_adjacent_bytes] in *. rewrite Hx. simpl. exact IH.
Qed.

Lemma written_alternating (calls : list (list item)) :
  forall self,
    (self = [] \/ exists head ps, self = Bytes head :: unpairs ps
                                  /\ no_bytes_first ps) ->
    no_adjacent_bytes
      (FakeStreamFormatter.stream
         (fold_left FakeStreamFormatter.write calls
                    (FakeStreamFormatter.Make self))) = true.
Proof.
  induction calls as [|args calls IH]; intros self Hself; simpl.
  - destruct Hself as [->|(head & ps & -> & F)]; [reflexivity|].
    now apply alternating_no_adjacent.
  - apply IH. right. now apply write_alternating.
Qed.

Lemma text_of_app (l1 l2 : list item) :
  text_of (l1 ++ l2) = text_of l1 ++ text_of l2.
Proof. apply flat_map_app. Qed.

Lemma objects_of_app (l1 l2 : list item) :
  objects_of (l1 ++ l2) = objects_of l1 ++ objects_of l2.
Proof. apply filter_app. Qed.

Lemma collect_text (args : list item) :
  forall stringlist objectlist,
    text_of (ListStream.collect args stringlist objectlist)
    = text_of objectlist ++ concat stringlist ++ text_of args.
Proof.
  induction args as [|arg args IH]; intros sl ol; simpl.
  - rewrite text_of_app. simpl. now rewrite !app_nil_r.
  - destruct arg as [b|o|n buf]; rewrite IH.
    + rewrite concat_app. simpl. now rewrite app_nil_r, <- !app_assoc.
    + rewrite text_of_app. simpl. now rewrite app_nil_r, <- !app_assoc.
    + rewrite text_of_app. simpl. now rewrite app_nil_r, <- !app_assoc.
Qed.

Lemma collect_objects (args : list item) :
  forall stringlist objectlist,
    objects_of (ListStream.collect args stringlist objectlist)
    = objects_of objectlist ++ objects_of args.
Proof.
  induction args as [|arg args IH]; intros sl ol; simpl.
  - rewrite objects_of_app. reflexivity.
  - destruct arg as [b|o|n buf]; rewrite IH.
    + reflexivity.
    + rewrite objects_of_app. simpl. now rewrite <- app_assoc.
    + rewrite objects_of_app. simpl. now rewrite <- app_assoc.
Qed.

(** The cases of [write]: the last entry of the stream and the first
    collected entry decide between merging and extending. *)
Ltac write_cases self args L H :=
  unfold ListStream.write;
  destruct (ListStream.last_entry self) as [[tail|o|n]|] eqn:L;
  revert H;
  destruct (ListStream.collect args [] []) as [|[h|o'|n'] rest];
  intros H.

Lemma write_text (self : ListStream.t) (args : list item) :
  text_of (ListStream.write self args) = text_of self ++ text_of args.
Proof.
  pose proof (collect_text args [] []) as H. simpl in H.
  write_cases self args L H; rewrite ?text_of_app, ?H; try reflexivity.
  apply last_entry_split in L. rewrite L at 2.
  rewrite !text_of_app. rewrite <- H. simpl.
  now rewrite app_nil_r, <- !app_assoc.
Qed.

Lemma write_objects (self : ListStream.t) (args : list item) :
  objects_of (ListStream.write self args) = objects_of self ++ objects_of args.
Proof.
  pose proof (collect_objects args [] []) as H. simpl in H.
  write_cases self args L H; rewrite ?objects_of_app, ?H; try reflexivity.
  apply last_entry_split in L. rewrite L at 2.
  rewrite !objects_of_app. rewrite <- H. simpl.
  now rewrite app_nil_r.
Qed.

Lemma written_text_objects (calls : list (list item)) :
  forall self,
    let f := fold_left FakeStreamFormatter.write calls
                       (FakeStreamFormatter.Make self) in
    text_of (FakeStreamFormatter.stream f) = text_of self ++ text_of (concat calls)
    /\ objects_of (FakeStreamFormatter.stream f)
       = objects_of self ++ objects_of (concat calls).
Proof.
  induction calls as [|args calls IH]; intros self; simpl.
  - now rewrite !app_nil_r.
  - destruct (IH (ListStream.write self args)) as [Ht Ho].
    unfold FakeStreamFormatter.write at 2 4. simpl.
    rewrite Ht, Ho, write_text, write_objects, text_of_app, objects_of_app.
    now rewrite <- !app_assoc.
Qed.

(** With markers as the only non-text entries, the text stream is the
    text of the raw stream. *)
Lemma join_from_text (l : list item) :
  Forall (fun x => is_FormatterObject x = true) (objects_of l) ->
  forall i,
    join_from i (filter (fun x => negb (is_FormatterObject x)) l)
    = Ok (text_of l).
Proof.
  induction l as [|x l IH]; intros H i; [reflexivity|].
  destruct x as [b|o|n buf]; simpl in *.
  - now rewrite IH.
  - inversion H; subst. now apply IH.
  - inversion H; subst. discriminate.
Qed.

Lemma join_text (l : list item) :
  Forall (fun x => is_FormatterObject x = true) (objects_of l) ->
  join_bytes (filter (fun x => negb (is_FormatterObject x)) l) = Ok (text_of l).
Proof. intros H. now apply join_from_text. Qed.

Lemma entries_objects (l : list (list byte + FormatterObject)) :
  Forall (fun x => is_FormatterObject x = true) (objects_of (map entry l)).
Proof.
  induction l as [|[b|o] l IH]; simpl; [constructor|exact IH|].
  constructor; [reflexivity|exact IH].
Qed.

(** C9. Writing text a, the marker Bold and text b to the stream of the
    test double, in one call or entry by entry, leaves the raw stream
    [a, Bold, b] and the text stream reads ab; neighbouring text chunks
    are merged into one entry.  In general a stream that started empty
    never holds two neighbouring text entries, keeps every marker as an
    entry of its own in the order written, and its text stream is the
    written text in order, markers left out. *)
Theorem text_stream_excludes_markers :
  forall (calls : list (list item))
         (typed : list (list (list byte + FormatterObject))),
    let a := [x61] in
    let b := [x62] in
    let raw := [Bytes a; Fmt Bold; Bytes b] in
    let stream_of l := FakeStreamFormatter.stream (written l) in
    let text_stream l := FakeStreamFormatter.get_text_stream (written l) in
    (stream_of [raw] = raw /\ text_stream [raw] = Ok "ab") /\
    (stream_of [[Bytes a]; [Fmt Bold]; [Bytes b]] = raw
     /\ text_stream [[Bytes a]; [Fmt Bold]; [Bytes b]] = Ok "ab") /\
    (FakeStreamFormatter.stream
       (FakeStreamFormatter.write
          (FakeStreamFormatter.call_object Bold
             (FakeStreamFormatter.write FakeStreamFormatter.init [Bytes a]))
          [Bytes b]) = raw) /\
    (stream_of [[Bytes a]; [Bytes b]] = [Bytes (a ++ b)]
     /\ stream_of [[Bytes a; Bytes b]] = [Bytes (a ++ b)]) /\
    no_adjacent_bytes (stream_of calls) = true /\
    text_of (stream_of calls) = text_of (concat calls) /\
    objects_of (stream_of calls) = objects_of (concat calls) /\
    text_stream (map (map entry) typed)
    = decode_ascii (text_of (concat (map (map entry) typed))).
Proof.
  intros calls typed a b raw stream_of text_stream.
  repeat match goal with |- _ /\ _ => split end; try reflexivity.
  - unfold stream_of, written, FakeStreamFormatter.init.
    apply written_alternating. now left.
  - unfold stream_of, written, FakeStreamFormatter.init.
    now destruct (written_text_objects calls []) as [H _].
  - unfold stream_of, written, FakeStreamFormatter.init.
    now destruct (written_text_objects calls []) as [_ H].
  - unfold text_stream, FakeStreamFormatter.get_text_stream.
    set (l := map (map entry) typed).
    destruct (written_text_objects l []) as [Ht Ho]. simpl in Ht, Ho.
    rewrite join_text.
    + unfold written, FakeStreamFormatter.init. now rewrite Ht.
    + unfold written, FakeStreamFormatter.init. rewrite Ho.
      unfold l. rewrite <- concat_map. apply entries_objects.
Qed.

(** ** The schedule of a resolution pass *)


Lemma insert_by_priority_perm (x : string * delayed) (l : list (string * delayed)) :
  Permutation (x :: l) (insert_by_priority x l).
Proof.
  induction l as [|y l IH]; simpl; [reflexivity|].
  destruct (priority (snd x) <=? priority (snd y))%Z; [reflexivity|].
  rewrite perm_swap. now constructor.
Qed.

Lemma sorted_by_priority_perm (l : list (string * delayed)) :
  Permutation l (sorted_by_priority l).
Proof.
  induction l as [|x l IH]; simpl; [constructor|].
  rewrite <- insert_by_priority_perm. now constructor.
Qed.

Lemma insert_by_priority_sorted (x : string * delayed) (l : list (string * delayed)) :
  StronglySorted by_priority l ->
  StronglySorted by_priority (insert_by_priority x l).
Proof.
  induction 1 as [|y l Hl IH Hy]; simpl.
  - repeat constructor.
  - destruct (priority (snd x) <=? priority (snd y))%Z eqn:E.
    + apply Z.leb_le in E. constructor; [now constructor|].
      constructor; [exact E|].
      eapply Forall_impl; [|exact Hy]. unfold by_priority. intros; lia.
    + apply Z.leb_gt in E. constructor; [exact IH|].
      rewrite <- insert_by_priority_perm.
      constructor; [unfold by_priority; lia|exact Hy].
Qed.

Lemma sorted_by_priority_sorted (l : list (string * delayed)) :
  StronglySorted by_priority (sorted_by_priority l).
Proof.
  induction l as [|x l IH]; simpl; [constructor|].
  now apply insert_by_priority_sorted.
Qed.

(** The sort is stable: entries of one priority keep the order the
    namespace lists them in. *)
Lemma insert_by_priority_stable (p : Z) (x : string * delayed)
      (l : list (string * delayed)) :
  filter (fun e => (priority (snd e) =? p)%Z) (insert_by_priority x l)
  = filter (fun e => (priority (snd e) =? p)%Z) (x :: l).
Proof.
  induction l as [|y l IH]; [reflexivity|].
  cbn [insert_by_priority].
  destruct (priority (snd x) <=? priority (snd y))%Z eqn:E; [reflexivity|].
  apply Z.leb_gt in E. cbn [filter] in *. rewrite IH.
  destruct (priority (snd y) =? p)%Z eqn:Ey; [|reflexivity].
  apply Z.eqb_eq in Ey.
  destruct (priority (snd x) =? p)%Z eqn:Ex; [|reflexivity].
  apply Z.eqb_eq in Ex. lia.
Qed.

Lemma sorted_by_priority_stable (p : Z) (l : list (string * delayed)) :
  filter (fun e => (priority (snd e) =? p)%Z) (sorted_by_priority l)
  = filter (fun e => (priority (snd e) =? p)%Z) l.
Proof.
  induction l as [|x l IH]; [reflexivity|].
  cbn [sorted_by_priority fold_right].
  fold (sorted_by_priority l).
  rewrite insert_by_priority_stable. cbn [filter]. now rewrite IH.
Qed.

Lemma sorted_middle (R : string * delayed -> string * delayed -> Prop)
      (l1 l2 : list (string * delayed)) (x : string * delayed) :
  StronglySorted R (l1 ++ x :: l2) -> Forall (R x) l2.
Proof.
  induction l1 as [|y l1 IH]; simpl; intros H; inversion H; subst; auto.
Qed.

(** What the generator of a pass yields. *)
Lemma delayed_items_In (only_defaults : bool) (d : namespace)
      (attr : string) (dv : delayed) :
  In (attr, dv) (delayed_items only_defaults d)
  <-> In (attr, VDelayed dv) d
      /\ (only_defaults = true -> kind dv = KDelayedDefault).
Proof.
  induction d as [|[k v] d IH]; simpl; [tauto|].
  destruct v as [| | | | | |dv'];
    try (rewrite IH; split;
         [intros [H1 H2]; auto
         |intros [[H1|H1] H2]; [discriminate|auto]]).
  unfold is_DelayedDefault.
  destruct only_defaults; simpl.
  - destruct (kind dv') eqn:K; simpl; rewrite IH; split;
      try (intros [H1 H2]; now auto);
      try (intros [[H1|H1] H2]; [injection H1 as -> ->|]; auto;
           specialize (H2 eq_refl); congruence).
    intros [H1|[H1 H2]]; [injection H1 as -> ->; auto|auto].
  - rewrite IH. split.
    + intros [H1|[H1 H2]]; [injection H1 as -> ->; split; [auto|discriminate]|auto].
    + intros [[H1|H1] H2]; [injection H1 as -> ->; auto|auto].
Qed.

(** ** What the calls leave untouched *)


Lemma quiet_ret {A} (a : A) : quiet (ret a).
Proof. intros w. now split. Qed.

Lemma quiet_raise {A} (e : exc) : quiet (@raise A e).
Proof. intros w. now split. Qed.

Lemma quiet_bind {A B} (m : M A) (k : A -> M B) :
  quiet m -> (forall a, quiet (k a)) -> quiet (bind m k).
Proof.
  intros Hm Hk w. unfold bind. specialize (Hm w).
  destruct (m w) as [[a|e] w1]; simpl in *; [|exact Hm].
  specialize (Hk a w1). destruct Hk as [-> ->]. exact Hm.
Qed.

Lemma quiet_except {A} (m h : M A) :
  quiet m -> quiet h -> quiet (except_AttributeError m h).
Proof.
  intros Hm Hh w. unfold except_AttributeError. specialize (Hm w).
  destruct (m w) as [[a|e] w1]; simpl in *; [exact Hm|].
  destruct e; try exact Hm.
  specialize (Hh w1). destruct Hh as [-> ->]. exact Hm.
Qed.

Lemma quiet_get_ns : quiet get_ns.
Proof. intros w. now split. Qed.

Lemma quiet_put_ns (d : namespace) : quiet (put_ns d).
Proof. intros w. now split. Qed.

Lemma quiet_setattr (name : string) (v : value) : quiet (setattr name v).
Proof.
  apply quiet_bind; [apply quiet_get_ns|]. intros d. apply quiet_put_ns.
Qed.

Lemma quiet_delattr (name : string) : quiet (delattr name).
Proof.
  apply quiet_bind; [apply quiet_get_ns|]. intros d.
  destruct (Dict.has_key name d); [apply quiet_put_ns|apply quiet_raise].
Qed.

Lemma logged_then {A} (attr : string) (prio : Z) (m : M A) (w : world) :
  quiet m ->
  calls (snd ((log_call attr prio ;;; m) w)) = calls w ++ [(attr, prio)]
  /\ stderr (snd ((log_call attr prio ;;; m) w)) = stderr w.
Proof.
  intros Q. unfold bind, log_call.
  destruct (Q (World (ns w) (stderr w) (calls w ++ [(attr, prio)]))) as [Hc Hs].
  destruct (m _) as [[a|e] w1]; simpl in *; auto.
Qed.

Create HintDb quiet.

#[local] Hint Resolve quiet_ret quiet_raise quiet_get_ns quiet_put_ns
  quiet_setattr quiet_delattr : quiet.

Section Calls.
Variable functors : F_env.

Lemma quiet_call_functor (id : nat) (args : list pyarg) :
  quiet (call_functor functors id args).
Proof.
  intros w. unfold call_functor.
  destruct (functors id args (ns w)) as [r d]. now split.
Qed.

Lemma quiet_wipe_attrs (attrs : list string) : quiet (wipe_attrs attrs).
Proof.
  induction attrs as [|a attrs IH]; simpl; [apply quiet_ret|].
  apply quiet_bind; [|intros _; exact IH].
  apply quiet_except; auto with quiet.
Qed.

Lemma quiet__wipe (attrs : list string) (trig : string) :
  quiet (_wipe attrs trig).
Proof.
  apply quiet_bind; [apply quiet_wipe_attrs|]. intros _.
  apply quiet_except; auto with quiet.
Qed.

Lemma quiet_invoke (c : callable) (args : list pyarg) :
  quiet (invoke functors c args).
Proof.
  destruct c as [attrs|id]; simpl; [|apply quiet_call_functor].
  destruct args as [|[] [|[] [|? ?]]];
    try apply quiet_raise; apply quiet__wipe.
Qed.

(** A call of a delayed value adds its own entry to the log and
    nothing else. *)
Lemma call_logged (d : delayed) (site : call_site) (w : world) :
  calls (snd (__call__ functors d site w))
  = calls w ++ [(site_name site, priority d)]
  /\ stderr (snd (__call__ functors d site w)) = stderr w.
Proof.
  unfold __call__.
  assert (Q : quiet
                match kind d, site with
                | (KDelayedValue | KDelayedDefault), Resolve attr =>
                    invoke functors (invokable d) [ANamespace; AStr attr]
                | (KDelayedValue | KDelayedDefault), AsFinalCheck =>
                    invoke functors (invokable d) [AParser; ANamespace]
                | KDelayedParse, _ => invoke functors (invokable d) []
                | KOrderedParse, Resolve attr =>
                    invoke functors (invokable d) [ANamespace] ;;; delattr attr
                | KOrderedParse, AsFinalCheck =>
                    invoke functors (invokable d) [AParser] ;;;
                    raise (TypeError "attribute name must be string")
                end).
  { destruct (kind d), site; try apply quiet_invoke;
      (apply quiet_bind; [apply quiet_invoke|intros _; auto with quiet]). }
  apply logged_then. exact Q.
Qed.


Lemma run_delayed_app (pre post : list (string * delayed)) (w : world) :
  run_delayed functors (pre ++ post) w
  = match run_delayed functors pre w with
    | (None, w1) => run_delayed functors post w1
    | stopped => stopped
    end.
Proof.
  revert w; induction pre as [|[attr d] pre IH]; intros w; simpl;
    [reflexivity|].
  destruct (__call__ functors d (Resolve attr) w) as [[u|e] w1];
    [apply IH|reflexivity].
Qed.

(** The loop calls the entries of its schedule from the front, one
    after the other, and stops at the first call that raises. *)
Lemma run_delayed_log (schedule : list (string * delayed)) :
  forall w,
  exists done todo,
    schedule = done ++ todo
    /\ calls (snd (run_delayed functors schedule w))
       = calls w ++ map entry_key done
    /\ stderr (snd (run_delayed functors schedule w)) = stderr w
    /\ match fst (run_delayed functors schedule w) with
       | None => todo = []
       | Some (attr, _) =>
           exists before d, done = before ++ [(attr, d)]
       end.
Proof.
  induction schedule as [|[attr d] rest IH]; intros w; simpl.
  - exists [], []. simpl. now rewrite app_nil_r.
  - destruct (call_logged d (Resolve attr) w) as [Hc Hs].
    destruct (__call__ functors d (Resolve attr) w) as [[u|e] w1];
      simpl in Hc, Hs.
    + destruct (IH w1) as (done & todo & E & Hc' & Hs' & Hf).
      exists ((attr, d) :: done), todo. repeat split.
      * simpl. now rewrite E.
      * rewrite Hc', Hc, <- app_assoc. reflexivity.
      * now rewrite Hs'.
      * destruct (fst (run_delayed functors rest w1)) as [[a e]|];
          [|exact Hf].
        destruct Hf as (before & d' & ->).
        exists ((attr, d) :: before), d'. reflexivity.
    + exists [(attr, d)], rest. repeat split; simpl; auto.
      exists [], d. reflexivity.
Qed.

End Calls.

(** ** Pass 2 *)

Section Pass2.
Variable functors : F_env.

Lemma error_result (self : parser) (handling : option exc)
      (message : string) (status : Z) (w : world) :
  @error unit self handling message status w
  = (Raise (SystemExit status),
     World (ns w)
           (stderr w
              ++ (if debug self then [Traceback handling] else [])
              ++ [Printed (prog self ++ ": error: " ++ message ++ nl)])
           (calls w)).
Proof.
  unfold error, exit, bind, write_stderr, raise.
  destruct (debug self); simpl.
  - destruct (prog self); simpl; now rewrite <- app_assoc.
  - destruct (prog self); reflexivity.
Qed.

Lemma pass2_log (self : parser) (w : world) :
  exists done todo,
    sorted_by_priority (delayed_items false (ns w)) = done ++ todo
    /\ calls (snd (pass2 functors self w)) = calls w ++ map entry_key done
    /\ (fst (pass2 functors self w) = Ok tt -> todo = []).
Proof.
  unfold pass2.
  destruct (run_delayed_log functors
              (sorted_by_priority (delayed_items false (ns w))) w)
    as (done & todo & E & Hc & _ & Hf).
  exists done, todo. split; [exact E|].
  destruct (run_delayed functors _ w) as [[[attr err]|] w1]; simpl in *.
  - destruct err; simpl; try (split; [exact Hc|discriminate]).
    rewrite error_result. simpl. split; [exact Hc|discriminate].
  - split; [exact Hc|auto].
Qed.

End Pass2.

(** C4. When the call of a delayed value in the loop of pass 2 raises a
    type error or a value error, pass 2, and with it [parse_args], raises
    a type error whose message names the attribute being resolved and
    carries the text of the original error.  When the call raises an
    argument error, the parser's [error] method runs instead: the
    message goes to standard error (after a traceback in debug mode) and
    the exit with status 2 is what reaches the caller, not the argument
    error. *)
Theorem pass2_error_handling :
  forall (functors : F_env)
         (super__parse_known_args : parser -> list string -> M (list string))
         (self : parser) (args : list string) (w_in w0 w w1 w' : world)
         (pre post : list (string * delayed)) (attr : string) (d : delayed)
         (err : exc),
    parse_args_head functors super__parse_known_args self args w_in
    = (Ok tt, w0) ->
    pass1 functors w0 = (Ok tt, w) ->
    sorted_by_priority (delayed_items false (ns w)) = pre ++ (attr, d) :: post ->
    run_delayed functors pre w = (None, w1) ->
    __call__ functors d (Resolve attr) w1 = (Raise err, w') ->
    let named msg :=
      (Raise (TypeError ("failed loading/parsing '" ++ attr ++ "': " ++ msg)), w')
    in
    let exited msg :=
      (Raise (SystemExit 2),
       World (ns w')
             (stderr w'
                ++ (if debug self then [Traceback (Some err)] else [])
                ++ [Printed (prog self ++ ": error: " ++ msg ++ nl)])
             (calls w'))
    in
    (forall msg, err = TypeError msg \/ err = ValueError msg ->
                 pass2 functors self w = named msg
                 /\ parse_args functors super__parse_known_args self args w_in
                    = named msg) /\
    (forall msg, err = ArgumentError msg ->
                 pass2 functors self w = error self (Some err) msg 2 w'
                 /\ pass2 functors self w = exited msg
                 /\ parse_args functors super__parse_known_args self args w_in
                    = exited msg).
Proof.
  intros functors super self args w_in w0 w w1 w' pre post attr d err
         H0 H1 Hs Hpre Hcall named exited.
  assert (Hrun : run_delayed functors
                   (sorted_by_priority (delayed_items false (ns w))) w
                 = (Some (attr, err), w')).
  { rewrite Hs, run_delayed_app, Hpre. simpl. now rewrite Hcall. }
  assert (Hres : parse_args functors super self args w_in
                 = match pass2 functors self w with
                   | (Ok _, w2) => run_final_check functors w2
                   | (Raise e, w2) => (Raise e, w2)
                   end).
  { unfold parse_args, resolve, bind. rewrite H0, H1. reflexivity. }
  split.
  - intros msg Hm.
    assert (P : pass2 functors self w = named msg).
    { unfold pass2. rewrite Hrun. destruct Hm as [-> | ->]; reflexivity. }
    split; [exact P|]. rewrite Hres, P. reflexivity.
  - intros msg ->.
    assert (P : pass2 functors self w
                = error self (Some (ArgumentError msg)) msg 2 w').
    { unfold pass2. rewrite Hrun. reflexivity. }
    split; [exact P|].
    rewrite Hres, P, error_result. split; reflexivity.
Qed.

(** C3. Pass 2 calls the delayed values it collected in ascending order
    of priority: its schedule is the collected values sorted by
    priority, the calls it makes are an initial part of the schedule, and
    all of it when no call raises.  With a value of priority 1 under one
    name and a value of priority 2 under another, the first comes before
    the second in the schedule, so it is called strictly before it, and
    the second is never called without the first having been called. *)
Theorem pass2_priority_order :
  forall (functors : F_env) (self : parser) (w : world) (a b : string)
         (da db : delayed),
    In (a, VDelayed da) (ns w) ->
    In (b, VDelayed db) (ns w) ->
    a <> b ->
    priority da = 1%Z ->
    priority db = 2%Z ->
    let schedule := sorted_by_priority (delayed_items false (ns w)) in
    let r := pass2 functors self w in
    Permutation (delayed_items false (ns w)) schedule /\
    StronglySorted by_priority schedule /\
    (exists done todo,
        schedule = done ++ todo
        /\ calls (snd r) = calls w ++ map entry_key done
        /\ (fst r = Ok tt -> todo = [])) /\
    (exists l1 l2 l3, schedule = l1 ++ (a, da) :: l2 ++ (b, db) :: l3) /\
    (fst r = Ok tt ->
     exists l1 l2 l3,
       calls (snd r) = calls w ++ l1 ++ (a, 1%Z) :: l2 ++ (b, 2%Z) :: l3) /\
    (forall l1 l3,
        calls (snd r) = calls w ++ l1 ++ (b, 2%Z) :: l3 -> In (a, 1%Z) l1).
Proof.
  intros functors self w a b da db Ha Hb Hab Pa Pb schedule r.
  pose proof (sorted_by_priority_perm (delayed_items false (ns w))) as HP.
  pose proof (sorted_by_priority_sorted (delayed_items false (ns w))) as HS.
  fold schedule in HP, HS.
  assert (Ia : In (a, da) schedule).
  { eapply Permutation_in; [exact HP|].
    apply delayed_items_In. split; [exact Ha|discriminate]. }
  assert (Ib : In (b, db) schedule).
  { eapply Permutation_in; [exact HP|].
    apply delayed_items_In. split; [exact Hb|discriminate]. }
  (* an entry of priority 1 is never behind one of priority 2 *)
  assert (Before : forall s1 s2 x,
             schedule = s1 ++ x :: s2 -> priority (snd x) = 2%Z -> In (a, da) s1).
  { intros s1 s2 x E Px. rewrite E in Ia, HS.
    apply in_app_or in Ia. destruct Ia as [I|[I|I]]; [exact I| |].
    - subst x. simpl in Px. lia.
    - apply sorted_middle in HS. rewrite Forall_forall in HS.
      specialize (HS _ I). unfold by_priority in HS. simpl in HS. lia. }
  assert (Split : exists l1 l2 l3, schedule = l1 ++ (a, da) :: l2 ++ (b, db) :: l3).
  { destruct (in_split _ _ Ib) as (s1 & s2 & E).
    pose proof (Before s1 s2 (b, db) E Pb) as I.
    destruct (in_split _ _ I) as (l1 & l2 & E1).
    exists l1, l2, s2. rewrite E, E1, <- app_assoc. reflexivity. }
  destruct (pass2_log functors self w) as (done & todo & E & Hc & Hf).
  fold schedule in E. fold r in Hc, Hf.
  repeat match goal with |- _ /\ _ => split end.
  - exact HP.
  - exact HS.
  - exists done, todo. auto.
  - exact Split.
  - intros Hok. specialize (Hf Hok). subst todo. rewrite app_nil_r in E.
    destruct Split as (l1 & l2 & l3 & E1).
    exists (map entry_key l1), (map entry_key l2), (map entry_key l3).
    rewrite Hc, <- E, E1, map_app. simpl. rewrite map_app. simpl.
    unfold entry_key at 2 4. simpl. now rewrite Pa, Pb.
  - intros l1 l3 Hl. rewrite Hc in Hl. apply app_inv_head in Hl.
    apply map_eq_app in Hl. destruct Hl as (s1 & s2 & -> & <- & Hl).
    apply map_eq_cons in Hl. destruct Hl as (x & s3 & -> & Hx & _).
    unfold entry_key in Hx. injection Hx as Hx1 Hx2.
    assert (I : In (a, da) s1).
    { apply (Before s1 (s3 ++ todo) x); [|exact Hx2].
      now rewrite E, <- app_assoc. }
    apply in_map with (f := entry_key) in I.
    unfold entry_key at 1 in I. simpl in I. now rewrite Pa in I.
Qed.

(** ** Pass 1 *)

Lemma set_ns_same (w : world) : set_ns w (ns w) = w.
Proof. now destruct w. Qed.

Lemma remove_absent (k : string) (d : namespace) :
  Dict.has_key k d = false -> Dict.remove k d = d.
Proof.
  unfold Dict.has_key, Dict.remove.
  induction d as [|[k' v] d IH]; simpl; [reflexivity|].
  destruct (String.eqb k' k); simpl; [discriminate|].
  intros H. now rewrite IH.
Qed.

(** [try: delattr(namespace, attr) except AttributeError: pass] leaves
    the namespace without the attribute. *)
Lemma delattr_ignoring (attr : string) (w : world) :
  except_AttributeError (delattr attr) (ret tt) w
  = (Ok tt, set_ns w (Dict.remove attr (ns w))).
Proof.
  unfold except_AttributeError, delattr, bind, get_ns.
  destruct (Dict.has_key attr (ns w)) eqn:E; simpl.
  - reflexivity.
  - unfold ret. now rewrite remove_absent, set_ns_same.
Qed.

Lemma filter_filter {A} (f g : A -> bool) (l : list A) :
  filter f (filter g l) = filter (fun x => g x && f x) l.
Proof.
  induction l as [|x l IH]; simpl; [reflexivity|].
  destruct (g x); simpl; [destruct (f x); now rewrite IH|exact IH].
Qed.


Lemma shrinks_remove (k : string) (d : namespace) :
  shrinks (Dict.remove k d) d [k].
Proof.
  exists (fun kv => negb (String.eqb (fst kv) k)). split; [reflexivity|].
  intros k' v [<-|[]]. simpl. now rewrite String.eqb_refl.
Qed.

Lemma shrinks_refl (d : namespace) : shrinks d d [].
Proof.
  exists (fun _ => true). split; [|intros k v []].
  induction d as [|x d IH]; simpl; [reflexivity|now rewrite <- IH].
Qed.

Lemma shrinks_trans (d1 d2 d3 : namespace) (k1 k2 : list string) :
  shrinks d2 d1 k1 -> shrinks d3 d2 k2 -> shrinks d3 d1 (k1 ++ k2).
Proof.
  intros (f & -> & Hf) (g & -> & Hg).
  exists (fun x => f x && g x). split; [apply filter_filter|].
  intros k v Hk. apply in_app_or in Hk. destruct Hk as [Hk|Hk].
  - now rewrite Hf.
  - rewrite (Hg k v Hk). apply andb_false_r.
Qed.

Lemma shrinks_weaken (d' d : namespace) (k k' : list string) :
  shrinks d' d k -> incl k' k -> shrinks d' d k'.
Proof.
  intros (f & -> & Hf) Hi. exists f. split; [reflexivity|].
  intros x v Hx. apply Hf, Hi, Hx.
Qed.

Lemma wipe_attrs_shrinks (attrs : list string) (w : world) :
  exists d',
    wipe_attrs attrs w = (Ok tt, set_ns w d') /\ shrinks d' (ns w) attrs.
Proof.
  revert w; induction attrs as [|a attrs IH]; intros w; simpl.
  - exists (ns w). unfold ret. rewrite set_ns_same. split; [reflexivity|].
    apply shrinks_refl.
  - unfold bind. rewrite delattr_ignoring.
    destruct (IH (set_ns w (Dict.remove a (ns w)))) as (d' & E & S).
    rewrite E. exists d'. split; [reflexivity|].
    simpl in S. change (a :: attrs) with ([a] ++ attrs).
    eapply shrinks_trans; [apply shrinks_remove|exact S].
Qed.

Lemma _wipe_shrinks (attrs : list string) (trig : string) (w : world) :
  exists d',
    _wipe attrs trig w = (Ok tt, set_ns w d') /\ shrinks d' (ns w) [trig].
Proof.
  unfold _wipe, bind.
  destruct (wipe_attrs_shrinks attrs w) as (d1 & E & S). rewrite E.
  rewrite delattr_ignoring. simpl.
  exists (Dict.remove trig d1). split; [reflexivity|].
  eapply shrinks_weaken.
  - eapply shrinks_trans; [exact S|apply shrinks_remove].
  - intros k [<-|[]]. apply in_or_app. right. now left.
Qed.


Section Pass1.
Variable functors : F_env.

Lemma call_wipe (d : delayed) (attr : string) (w : world) :
  wipe_made d ->
  exists w',
    __call__ functors d (Resolve attr) w = (Ok tt, w')
    /\ shrinks (ns w') (ns w) [attr].
Proof.
  intros [K [attrs I]]. unfold __call__. rewrite K, I. simpl.
  unfold bind at 1. unfold log_call. 
  destruct (_wipe_shrinks attrs attr
              (World (ns w) (stderr w) (calls w ++ [(attr, priority d)])))
    as (d' & E & S).
  rewrite E. eexists. split; [reflexivity|exact S].
Qed.

Lemma run_wipes (schedule : list (string * delayed)) :
  Forall (fun p => wipe_made (snd p)) schedule ->
  forall w,
  exists w',
    run_delayed functors schedule w = (None, w')
    /\ shrinks (ns w') (ns w) (map fst schedule).
Proof.
  induction 1 as [|[attr d] rest Hd Hrest IH]; intros w; simpl.
  - exists w. split; [reflexivity|apply shrinks_refl].
  - destruct (call_wipe d attr w Hd) as (w1 & E & S). rewrite E.
    destruct (IH w1) as (w2 & E2 & S2). exists w2. split; [exact E2|].
    change (attr :: map fst rest) with ([attr] ++ map fst rest).
    eapply shrinks_trans; eassumption.
Qed.

Lemma delayed_items_nil (only_defaults : bool) (d : namespace) :
  (forall attr dv, ~ In (attr, dv) (delayed_items only_defaults d)) ->
  delayed_items only_defaults d = [].
Proof.
  destruct (delayed_items only_defaults d) as [|[attr dv] l];
    [reflexivity|].
  intros H. exfalso. apply (H attr dv). now left.
Qed.

End Pass1.

(** C8. Pass 1 is idempotent on a namespace whose delayed defaults are
    the ones [DelayedDefault.wipe] makes: the first run returns, only
    deletes attributes, and leaves no delayed default behind, so a second
    run finds nothing to call and changes nothing. *)
Theorem pass1_idempotent :
  forall (functors : F_env)
         (w : world),
    (forall attr d,
        In (attr, VDelayed d) (ns w) -> kind d = KDelayedDefault ->
        exists attrs, invokable d = Wipe attrs) ->
    exists w1,
      pass1 functors w = (Ok tt, w1)
      /\ (exists keep, ns w1 = filter keep (ns w))
      /\ delayed_items true (ns w1) = []
      /\ pass1 functors w1 = (Ok tt, w1).
Proof.
  intros functors w Hw.
  set (schedule := sorted_by_priority (delayed_items true (ns w))).
  assert (Hall : Forall (fun p => wipe_made (snd p)) schedule).
  { apply Forall_forall. intros [attr d] Hin.
    apply (Permutation_in _ (Permutation_sym (sorted_by_priority_perm _))) in Hin.
    apply delayed_items_In in Hin. destruct Hin as [Hin K].
    specialize (K eq_refl). split; [exact K|]. eapply Hw; eassumption. }
  destruct (run_wipes functors schedule Hall w) as (w1 & E & keep & Ek & Hk).
  assert (Hnone : delayed_items true (ns w1) = []).
  { apply delayed_items_nil. intros attr dv Hin.
    apply delayed_items_In in Hin. destruct Hin as [Hin K].
    rewrite Ek in Hin. apply filter_In in Hin. destruct Hin as [Hin Hkeep].
    assert (Hs : In (attr, dv) schedule).
    { apply (Permutation_in _ (sorted_by_priority_perm _)).
      apply delayed_items_In. auto. }
    rewrite (Hk attr (VDelayed dv)) in Hkeep; [discriminate|].
    apply in_map with (f := fst) in Hs. exact Hs. }
  exists w1. repeat split.
  - unfold pass1. fold schedule. now rewrite E.
  - exists keep. exact Ek.
  - exact Hnone.
  - unfold pass1. rewrite Hnone. reflexivity.
Qed.

(** ** No delayed value survives a well-behaved resolution *)


Lemma delayed_sub_refl (d : namespace) : delayed_sub d d.
Proof. intros k dv H. exact H. Qed.

Lemma delayed_sub_trans (d1 d2 d3 : namespace) :
  delayed_sub d3 d2 -> delayed_sub d2 d1 -> delayed_sub d3 d1.
Proof. intros H32 H21 k dv H. apply H21, H32, H. Qed.

Lemma delayed_sub_remove (k : string) (d : namespace) :
  delayed_sub (Dict.remove k d) d.
Proof. intros k' dv H. apply filter_In in H. tauto. Qed.

Lemma delayed_sub_set (k : string) (v : value) (d : namespace) :
  is_DelayedValue v = false -> delayed_sub (Dict.set k v d) d.
Proof.
  intros Hv k' dv. unfold Dict.set.
  destruct (Dict.has_key k d).
  - rewrite in_map_iff. intros [[k0 v0] [E H]]. simpl in E.
    destruct (String.eqb k0 k).
    + injection E as _ E. subst v. discriminate.
    + now rewrite <- E.
  - intros H. apply in_app_or in H. destruct H as [H|[H|[]]]; [exact H|].
    injection H as _ E. subst v. discriminate.
Qed.

Lemma no_delayed_at_remove (k : string) (d : namespace) :
  no_delayed_at k (Dict.remove k d).
Proof.
  intros dv H. apply filter_In in H. destruct H as [_ H].
  simpl in H. now rewrite String.eqb_refl in H.
Qed.

Lemma no_delayed_at_sub (k : string) (d' d : namespace) :
  delayed_sub d' d -> no_delayed_at k d -> no_delayed_at k d'.
Proof. intros S N dv H. apply (N dv), S, H. Qed.

Lemma resolved_sub (d' d : namespace) :
  delayed_sub d' d -> resolved d -> resolved d'.
Proof.
  intros S R k v H. destruct v as [| | | | | |dv]; try reflexivity.
  apply S in H. apply (R _ _ H).
Qed.

Lemma well_behaved_sub (functors : F_env) (d' d : namespace) :
  delayed_sub d' d -> well_behaved functors d -> well_behaved functors d'.
Proof. intros S W attr dv H. apply W, S, H. Qed.

Lemma shrinking_ret {A} (a : A) : shrinking (ret a).
Proof. intros w. apply delayed_sub_refl. Qed.

Lemma shrinking_raise {A} (e : exc) : shrinking (@raise A e).
Proof. intros w. apply delayed_sub_refl. Qed.

Lemma shrinking_bind {A B} (m : M A) (k : A -> M B) :
  shrinking m -> (forall a, shrinking (k a)) -> shrinking (bind m k).
Proof.
  intros Hm Hk w. unfold bind. specialize (Hm w).
  destruct (m w) as [[a|e] w1]; simpl in *; [|exact Hm].
  eapply delayed_sub_trans; [apply Hk|exact Hm].
Qed.

Lemma shrinking_except {A} (m h : M A) :
  shrinking m -> shrinking h -> shrinking (except_AttributeError m h).
Proof.
  intros Hm Hh w. unfold except_AttributeError. specialize (Hm w).
  destruct (m w) as [[a|e] w1]; simpl in *; [exact Hm|].
  destruct e; try exact Hm.
  eapply delayed_sub_trans; [apply Hh|exact Hm].
Qed.

Lemma shrinking_get_ns : shrinking get_ns.
Proof. intros w. apply delayed_sub_refl. Qed.

Lemma shrinking_log_call (attr : string) (prio : Z) :
  shrinking (log_call attr prio).
Proof. intros w. apply delayed_sub_refl. Qed.

Lemma shrinking_write_stderr (e : stderr_event) : shrinking (write_stderr e).
Proof. intros w. apply delayed_sub_refl. Qed.

Lemma shrinking_setattr (name : string) (v : value) :
  is_DelayedValue v = false -> shrinking (setattr name v).
Proof. intros Hv w. simpl. now apply delayed_sub_set. Qed.

Lemma shrinking_delattr (name : string) : shrinking (delattr name).
Proof.
  intros w. unfold delattr, bind, get_ns.
  destruct (Dict.has_key name (ns w)); simpl;
    [apply delayed_sub_remove|apply delayed_sub_refl].
Qed.

Lemma shrinking_exit {A} (status : Z) (message : string) :
  shrinking (@exit A status message).
Proof.
  apply shrinking_bind; [|intros; apply shrinking_raise].
  destruct (Py.truthy message);
    [apply shrinking_write_stderr|apply shrinking_ret].
Qed.

Lemma shrinking_error {A} (self : parser) (handling : option exc)
      (message : string) (status : Z) :
  shrinking (@error A self handling message status).
Proof.
  apply shrinking_bind; [|intros; apply shrinking_exit].
  destruct (debug self); [apply shrinking_write_stderr|apply shrinking_ret].
Qed.

Create HintDb shrink.

#[local] Hint Resolve shrinking_ret shrinking_raise shrinking_get_ns
  shrinking_log_call shrinking_write_stderr shrinking_delattr
  shrinking_exit shrinking_error : shrink.

Lemma bind_ok {A B} (m : M A) (k : A -> M B) (w w' : world) (b : B) :
  bind m k w = (Ok b, w') ->
  exists a w1, m w = (Ok a, w1) /\ k a w1 = (Ok b, w').
Proof.
  unfold bind. destruct (m w) as [[a|e] w1]; [eauto|discriminate].
Qed.

Section WellBehaved.
Variable functors : F_env.
Hypothesis no_new : stores_no_delayed functors.

Lemma shrinking_call_functor (id : nat) (args : list pyarg) :
  shrinking (call_functor functors id args).
Proof.
  intros w. unfold call_functor.
  destruct (functors id args (ns w)) as [r d] eqn:E. simpl.
  eapply no_new; eassumption.
Qed.

Lemma shrinking_wipe_attrs (attrs : list string) : shrinking (wipe_attrs attrs).
Proof.
  induction attrs as [|a attrs IH]; simpl; [apply shrinking_ret|].
  apply shrinking_bind; [|intros _; exact IH].
  apply shrinking_except; auto with shrink.
Qed.

Lemma shrinking__wipe (attrs : list string) (trig : string) :
  shrinking (_wipe attrs trig).
Proof.
  apply shrinking_bind; [apply shrinking_wipe_attrs|]. intros _.
  apply shrinking_except; auto with shrink.
Qed.

Lemma shrinking_invoke (c : callable) (args : list pyarg) :
  shrinking (invoke functors c args).
Proof.
  destruct c as [attrs|id]; simpl; [|apply shrinking_call_functor].
  destruct args as [|[] [|[] [|? ?]]];
    try apply shrinking_raise; apply shrinking__wipe.
Qed.

Lemma shrinking___call__ (d : delayed) (site : call_site) :
  shrinking (__call__ functors d site).
Proof.
  unfold __call__.
  apply shrinking_bind; [apply shrinking_log_call|]. intros _.
  destruct (kind d), site; try apply shrinking_invoke;
    (apply shrinking_bind; [apply shrinking_invoke|intros _; auto with shrink]).
Qed.

Lemma shrinking_raw_getattribute (name : string) :
  shrinking (raw_getattribute name).
Proof.
  apply shrinking_bind; [apply shrinking_get_ns|]. intros d.
  destruct (Dict.get name d); auto with shrink.
Qed.

Lemma shrinking___getattribute__ (name : string) :
  shrinking (__getattribute__ functors name).
Proof.
  apply shrinking_bind; [apply shrinking_raw_getattribute|]. intros v.
  destruct v; try apply shrinking_ret.
  apply shrinking_bind; [apply shrinking___call__|].
  intros _. apply shrinking_raw_getattribute.
Qed.

Lemma shrinking_getattr_or_None (name : string) :
  shrinking (getattr_or_None functors name).
Proof.
  apply shrinking_except;
    [apply shrinking___getattribute__|apply shrinking_ret].
Qed.

Lemma shrinking_run_delayed (schedule : list (string * delayed)) (w : world) :
  delayed_sub (ns (snd (run_delayed functors schedule w))) (ns w).
Proof.
  revert w; induction schedule as [|[attr d] rest IH]; intros w; simpl.
  - apply delayed_sub_refl.
  - pose proof (shrinking___call__ d (Resolve attr) w) as H.
    destruct (__call__ functors d (Resolve attr) w) as [[u|e] w1];
      simpl in *; [|exact H].
    eapply delayed_sub_trans; [apply IH|exact H].
Qed.

Lemma shrinking_pass1 : shrinking (pass1 functors).
Proof.
  intros w. unfold pass1.
  pose proof (shrinking_run_delayed
                (sorted_by_priority (delayed_items true (ns w))) w) as H.
  destruct (run_delayed functors _ w) as [[[attr e]|] w1]; exact H.
Qed.

Lemma shrinking_call_value (v : value) : shrinking (call_value functors v).
Proof.
  destruct v; simpl; try apply shrinking_raise.
  - apply shrinking_call_functor.
  - apply shrinking___call__.
Qed.

Lemma shrinking_run_final_check : shrinking (run_final_check functors).
Proof.
  apply shrinking_bind; [apply shrinking_getattr_or_None|]. intros v.
  destruct v; try apply shrinking_ret;
    (apply shrinking_bind;
     [apply shrinking_delattr|intros _; apply shrinking_call_value]).
Qed.

(** A call that returns has resolved its attribute. *)
Lemma call_resolves (d : delayed) (attr : string) (w w' : world) :
  resolves_itself functors attr d ->
  __call__ functors d (Resolve attr) w = (Ok tt, w') ->
  no_delayed_at attr (ns w').
Proof.
  unfold resolves_itself, __call__. intros R H.
  apply bind_ok in H. destruct H as (u & w1 & _ & H). clear u.
  destruct (invokable d) as [attrs|id], (kind d); simpl in H.
  - destruct (_wipe_shrinks attrs attr w1) as (d' & E & keep & -> & K).
    rewrite E in H. injection H as <-. simpl.
    intros dv Hin. apply filter_In in Hin. destruct Hin as [_ Hin].
    rewrite K in Hin; [discriminate|now left].
  - destruct (_wipe_shrinks attrs attr w1) as (d' & E & keep & -> & K).
    rewrite E in H. injection H as <-. simpl.
    intros dv Hin. apply filter_In in Hin. destruct Hin as [_ Hin].
    rewrite K in Hin; [discriminate|now left].
  - discriminate.
  - discriminate.
  - unfold call_functor in H.
    destruct (functors id [ANamespace; AStr attr] (ns w1)) as [r d'] eqn:E.
    injection H as -> <-. simpl. eapply R; eassumption.
  - unfold call_functor in H.
    destruct (functors id [ANamespace; AStr attr] (ns w1)) as [r d'] eqn:E.
    injection H as -> <-. simpl. eapply R; eassumption.
  - unfold call_functor in H.
    destruct (functors id [] (ns w1)) as [r d'] eqn:E.
    injection H as -> <-. simpl. eapply R; eassumption.
  - apply bind_ok in H. destruct H as (u & w2 & _ & H).
    unfold delattr, bind, get_ns in H.
    destruct (Dict.has_key attr (ns w2)); [|discriminate].
    injection H as <-. simpl. apply no_delayed_at_remove.
Qed.

Lemma run_resolves (schedule : list (string * delayed)) :
  forall w w',
    (forall attr dv, In (attr, dv) schedule ->
                     resolves_itself functors attr dv) ->
    run_delayed functors schedule w = (None, w') ->
    forall attr dv, In (attr, dv) schedule -> no_delayed_at attr (ns w').
Proof.
  induction schedule as [|[a d] rest IH]; intros w w' R H attr dv Hin;
    [destruct Hin|].
  simpl in H.
  destruct (__call__ functors d (Resolve a) w) as [[[]|e] w1] eqn:E;
    [|discriminate].
  destruct Hin as [Hin|Hin].
  - injection Hin as -> ->.
    pose proof (shrinking_run_delayed rest w1) as S. rewrite H in S.
    eapply no_delayed_at_sub; [exact S|].
    eapply call_resolves; [|exact E]. apply R. now left.
  - eapply (IH w1 w'); eauto. intros. apply R. now right.
Qed.

(** After a pass 2 that returns, nothing delayed is left. *)
Lemma pass2_resolved (self : parser) (w w' : world) :
  well_behaved functors (ns w) ->
  pass2 functors self w = (Ok tt, w') ->
  resolved (ns w').
Proof.
  intros W H. unfold pass2 in H.
  destruct (run_delayed functors _ w) as [[[attr err]|] w1] eqn:E.
  - destruct err; try discriminate.
    rewrite error_result in H. discriminate.
  - injection H as <-.
    intros k v Hin. destruct v as [| | | | | |dv]; try reflexivity.
    exfalso.
    pose proof (shrinking_run_delayed
                  (sorted_by_priority (delayed_items false (ns w))) w) as S.
    rewrite E in S. simpl in S.
    assert (I : In (k, dv) (sorted_by_priority (delayed_items false (ns w)))).
    { apply (Permutation_in _ (sorted_by_priority_perm _)).
      apply delayed_items_In. split; [now apply S|discriminate]. }
    eapply (run_resolves _ w w1); [|exact E|exact I|exact Hin].
    intros a d Ha. apply W.
    apply (Permutation_in _ (Permutation_sym (sorted_by_priority_perm _))) in Ha.
    now apply delayed_items_In in Ha.
Qed.

Lemma resolve_resolved (self : parser) (w w' : world) :
  well_behaved functors (ns w) ->
  resolve functors self w = (Ok tt, w') ->
  resolved (ns w').
Proof.
  intros W H. unfold resolve in H.
  apply bind_ok in H. destruct H as ([] & w1 & H1 & H).
  apply bind_ok in H. destruct H as ([] & w2 & H2 & H3).
  pose proof (shrinking_pass1 w) as S1. rewrite H1 in S1.
  pose proof (shrinking_run_final_check w2) as S3. rewrite H3 in S3.
  eapply resolved_sub; [exact S3|].
  eapply pass2_resolved; [|exact H2].
  eapply well_behaved_sub; eassumption.
Qed.

End WellBehaved.

(** ** [parse_args] as a whole *)

Lemma shrinking_subparsers_get (self : parser) (name : value) :
  shrinking (subparsers_get self name).
Proof. destruct name; simpl; auto with shrink. Qed.

(** C1, as the code has it. When [parse_args] returns, the namespace
    holds no delayed value provided the user callables behave: none of
    them stores a delayed value into the namespace, and the callable of
    every delayed value that tokenizing left there replaces or deletes
    the attribute it is called for.  Delayed defaults made by [wipe] and
    [OrderedParse] values remove themselves in any case. *)
Theorem parse_args_leaves_no_delayed :
  forall (functors : F_env)
         (super__parse_known_args : parser -> list string -> M (list string))
         (self : parser) (args : list string) (w w' : world),
    stores_no_delayed functors ->
    well_behaved functors
      (ns (snd (parse_known_args functors super__parse_known_args self args w))) ->
    parse_args functors super__parse_known_args self args w = (Ok tt, w') ->
    resolved (ns w').
Proof.
  intros functors super self args w w' no_new W H. unfold parse_args in H.
  apply bind_ok in H. destruct H as ([] & w5 & Hh & H).
  unfold parse_args_head in Hh.
  apply bind_ok in Hh. destruct Hh as (unknown & w1 & H1 & Hh).
  rewrite H1 in W. simpl in W.
  apply bind_ok in Hh. destruct Hh as (subcommand & w2 & H2 & Hh).
  apply bind_ok in Hh. destruct Hh as (sub & w3 & H3 & Hh).
  apply bind_ok in Hh. destruct Hh as ([] & w4 & H4 & H5).
  pose proof (shrinking_getattr_or_None functors no_new "subcommand" w1) as S2.
  rewrite H2 in S2.
  pose proof (shrinking_subparsers_get self subcommand w2) as S3.
  rewrite H3 in S3.
  assert (S4 : delayed_sub (ns w4) (ns w3)).
  { destruct sub as [sub|].
    - assert (Q : shrinking
                    (setattr "prog" (VStr (prog sub)) ;;;
                     match main_func sub with
                     | Some f => setattr "main_func" (VFunc f)
                     | None => ret tt
                     end ;;;
                     match final_check sub with
                     | Some f => setattr "final_check" (VFunc f)
                     | None => ret tt
                     end)).
      { apply shrinking_bind; [now apply shrinking_setattr|]. intros _.
        apply shrinking_bind.
        - destruct (main_func sub);
            [now apply shrinking_setattr|apply shrinking_ret].
        - intros _. destruct (final_check sub);
            [now apply shrinking_setattr|apply shrinking_ret]. }
      specialize (Q w3). now rewrite H4 in Q.
    - injection H4 as <-. apply delayed_sub_refl. }
  assert (S5 : delayed_sub (ns w5) (ns w4)).
  { destruct unknown.
    - injection H5 as <-. apply delayed_sub_refl.
    - pose proof (@shrinking_error unit self None
                    ("unrecognized arguments: "
                       ++ Py.join " " (s :: unknown)) 2 w4) as Q.
      now rewrite H5 in Q. }
  eapply resolve_resolved; [exact no_new| |exact H].
  repeat (eapply well_behaved_sub; [eassumption|]). exact W.
Qed.

Lemma store_stores_no_delayed : stores_no_delayed Examples.store.
Proof.
  intros id args d r d' H. unfold Examples.store in H.
  destruct id as [|id];
    [|injection H as _ <-; apply delayed_sub_refl].
  destruct args as [|[] [|[| |attr] [|? ?]]];
    try (injection H as _ <-; apply delayed_sub_refl).
  injection H as _ <-. now apply delayed_sub_set.
Qed.

Lemma no_delayed_at_set (k : string) (v : value) (d : namespace) :
  is_DelayedValue v = false -> no_delayed_at k (Dict.set k v d).
Proof.
  intros Hv dv. unfold Dict.set.
  destruct (Dict.has_key k d) eqn:E.
  - rewrite in_map_iff. intros [[k0 v0] [Eq H]]. simpl in Eq.
    destruct (String.eqb k0 k) eqn:Ek.
    + injection Eq as _ Eq. subst v. discriminate.
    + injection Eq as -> _. now rewrite String.eqb_refl in Ek.
  - intros H. apply in_app_or in H. destruct H as [H|[H|[]]].
    + unfold Dict.has_key in E.
      assert (X : existsb (fun kv => String.eqb (fst kv) k) d = true).
      { apply existsb_exists. exists (k, VDelayed dv). split; [exact H|].
        apply String.eqb_refl. }
      congruence.
    + injection H as Eq. subst v. discriminate.
Qed.

Lemma parse_args_leaves_no_delayed_witness :
  parse_args Examples.store (Argparse.tokenize Examples.store)
             Examples.plain [] Examples.fresh
  = (Ok tt, World [("x", VInt 42)] [] [("x", 0%Z)])
  /\ resolved [("x", VInt 42)].
Proof.
  split; [reflexivity|].
  apply (parse_args_leaves_no_delayed
           Examples.store (Argparse.tokenize Examples.store)
           Examples.plain [] Examples.fresh
           (World [("x", VInt 42)] [] [("x", 0%Z)])).
  - exact store_stores_no_delayed.
  - intros attr dv H. simpl in H. destruct H as [H|[]].
    injection H as <- <-. simpl.
    intros d d' E. injection E as <-. now apply no_delayed_at_set.
  - reflexivity.
Defined.

(** The claim C1 fails on a callable that returns without touching the
    namespace: [parse_args] returns normally and the delayed value is
    still there. *)
Lemma delayed_value_survives :
  parse_args Examples.idle (Argparse.tokenize Examples.idle)
             Examples.plain [] Examples.fresh
  = (Ok tt, World [("x", VDelayed Examples.delayed_x)] [] [("x", 0%Z)])
  /\ ~ resolved [("x", VDelayed Examples.delayed_x)].
Proof.
  split; [reflexivity|].
  intros R. specialize (R "x" (VDelayed Examples.delayed_x) (or_introl eq_refl)).
  discriminate.
Qed.

(** ** The default subcommand *)

Section Fallback.
Variable super__parse_known_args : parser -> list string -> M (list string).

Let parse := _parse_known_args super__parse_known_args.

(** The method, with the loop over the parents named. *)
Lemma _parse_known_args_unfold (self : parser) (arg_strings : list string)
      (w : world) :
  parse self arg_strings w
  = if skip_subparser_fallback self arg_strings
    then super__parse_known_args self arg_strings w
    else
      match default_subparser self with
      | None => super__parse_known_args self arg_strings w
      | Some default =>
          if negb (known_subparser default self)
          then (Raise (ValueError (unknown_subparser_message self default)), w)
          else
            (rest <- parse_parents super__parse_known_args
                       (parents self) arg_strings ;;
             super__parse_known_args self (default :: rest)) w
      end.
Proof.
  unfold parse. destruct self as [pr db df subs ps mf fc opts defs].
  cbn [_parse_known_args].
  destruct (skip_subparser_fallback _ arg_strings); [reflexivity|].
  cbn [default_subparser parents].
  destruct df as [default|]; [|reflexivity].
  destruct (negb (known_subparser default _)); [reflexivity|].
  unfold bind.
  match goal with
  | |- match ?f ps arg_strings w with _ => _ end
       = match parse_parents _ ps arg_strings w with _ => _ end =>
      assert (E : forall l a w0,
                 f l a w0 = parse_parents super__parse_known_args l a w0)
  end.
  { induction l as [|q l IH]; intros a w0; [reflexivity|].
    cbn [parse_parents]. unfold bind.
    destruct (_parse_known_args super__parse_known_args q a w0)
      as [[x|e] w1]; [apply IH|reflexivity]. }
  now rewrite E.
Qed.

(** With the default given first, the fallback is skipped. *)
Lemma explicit_subcommand (self : parser) (default : string)
      (arg_strings : list string) (w : world) :
  known_subparser default self = true ->
  parse self (default :: arg_strings) w
  = super__parse_known_args self (default :: arg_strings) w.
Proof.
  intros K. rewrite _parse_known_args_unfold.
  assert (S : skip_subparser_fallback self (default :: arg_strings) = true).
  { unfold skip_subparser_fallback. cbn [help_requested existsb].
    rewrite K. now rewrite !orb_true_r. }
  now rewrite S.
Qed.

Lemma implicit_subcommand (self : parser) (default : string)
      (arg_strings : list string) (w : world) :
  default_subparser self = Some default ->
  known_subparser default self = true ->
  skip_subparser_fallback self arg_strings = false ->
  parse self arg_strings w
  = (rest <- parse_parents super__parse_known_args (parents self) arg_strings ;;
     super__parse_known_args self (default :: rest)) w.
Proof.
  intros D K S. rewrite _parse_known_args_unfold, S, D, K. reflexivity.
Qed.

Lemma unknown_default (self : parser) (default : string)
      (arg_strings : list string) (w : world) :
  default_subparser self = Some default ->
  known_subparser default self = false ->
  skip_subparser_fallback self arg_strings = false ->
  parse self arg_strings w
  = (Raise (ValueError (unknown_subparser_message self default)), w).
Proof.
  intros D K S. rewrite _parse_known_args_unfold, S, D, K. reflexivity.
Qed.

Lemma fallback_skipped (self : parser) (arg_strings : list string) (w : world) :
  skip_subparser_fallback self arg_strings = true ->
  parse self arg_strings w = super__parse_known_args self arg_strings w.
Proof. intros S. now rewrite _parse_known_args_unfold, S. Qed.

End Fallback.

(** [parse_args] depends on the argument list through
    [_parse_known_args] only. *)
Lemma parse_args_ext (functors : F_env)
      (super__parse_known_args : parser -> list string -> M (list string))
      (self : parser) (args args' : list string) :
  (forall w, _parse_known_args super__parse_known_args self args w
             = _parse_known_args super__parse_known_args self args' w) ->
  forall w,
    parse_args functors super__parse_known_args self args w
    = parse_args functors super__parse_known_args self args' w.
Proof.
  intros E w. unfold parse_args, parse_args_head, parse_known_args.
  unfold bind at 1. symmetry. unfold bind at 1. symmetry.
  unfold bind at 1. symmetry. unfold bind at 1. symmetry.
  unfold bind at 1. symmetry. unfold bind at 1. symmetry.
  destruct (add_defaults functors (defaults self) w) as [[u|e] w1];
    [|reflexivity].
  unfold bind at 1. symmetry. unfold bind at 1. symmetry.
  now rewrite E.
Qed.

(** C2, as the code has it. For a parser whose default subcommand is the
    registered name build and an argument list that asks for no help and
    does not start with a subcommand, [_parse_known_args] first lets the
    parent parsers work on the list and then tokenizes build followed by
    what they left; with build given explicitly the list is tokenized as
    it is.  The two agree when the parser has no parents, or when its
    parents leave the list and the namespace as they were, and then
    [parse_args] returns the same for both. *)
Theorem default_subcommand_fallback :
  forall (functors : F_env)
         (super__parse_known_args : parser -> list string -> M (list string))
         (self : parser) (args : list string) (w : world),
    default_subparser self = Some "build" ->
    known_subparser "build" self = true ->
    skip_subparser_fallback self args = false ->
    let parse := _parse_known_args super__parse_known_args self in
    parse args w
    = (rest <- parse_parents super__parse_known_args (parents self) args ;;
       super__parse_known_args self ("build" :: rest)) w
    /\ parse ("build" :: args) w
       = super__parse_known_args self ("build" :: args) w
    /\ (parse_parents super__parse_known_args (parents self) args w
        = (Ok args, w) ->
        parse args w = parse ("build" :: args) w)
    /\ (parents self = [] ->
        parse args w = parse ("build" :: args) w
        /\ parse_args functors super__parse_known_args self args w
           = parse_args functors super__parse_known_args self ("build" :: args) w).
Proof.
  intros functors super self args w D K S parse.
  assert (I : forall w0,
             parse args w0
             = (rest <- parse_parents super (parents self) args ;;
                super self ("build" :: rest)) w0).
  { intros w0. now apply implicit_subcommand. }
  assert (X : forall w0, parse ("build" :: args) w0 = super self ("build" :: args) w0).
  { intros w0. now apply explicit_subcommand. }
  split; [apply I|]. split; [apply X|]. split.
  - intros P. rewrite I, X. unfold bind. now rewrite P.
  - intros P.
    assert (E : forall w0, parse args w0 = parse ("build" :: args) w0).
    { intros w0. rewrite I, X, P. reflexivity. }
    split; [apply E|]. now apply parse_args_ext.
Qed.

Lemma default_subcommand_fallback_witness :
  parse_args Examples.idle (Argparse.tokenize Examples.idle)
             Examples.orphan ["--flag"] Examples.fresh
  = parse_args Examples.idle (Argparse.tokenize Examples.idle)
               Examples.orphan ["build"; "--flag"] Examples.fresh.
Proof.
  apply (default_subcommand_fallback
           Examples.idle (Argparse.tokenize Examples.idle)
           Examples.orphan ["--flag"] Examples.fresh
           eq_refl eq_refl eq_refl).
  reflexivity.
Defined.

(** The claim C2 fails on a parser whose parent knows the flag: given
    alone the flag is bound by the parent before build is prepended and
    the parse succeeds; after an explicit build it goes to the
    subcommand, which does not know it, and the parse ends in the error
    exit. *)
Lemma parent_flag_breaks_fallback :
  parse_args Examples.idle (Argparse.tokenize Examples.idle)
             Examples.root ["--flag"] Examples.fresh
  = (Ok tt,
     World [("flag", VBool true); ("subcommand", VStr "build");
            ("prog", VStr "prog build")] [] [])
  /\ parse_args Examples.idle (Argparse.tokenize Examples.idle)
                Examples.root ["build"; "--flag"] Examples.fresh
     = (Raise (SystemExit 2),
        World [("flag", VBool false); ("subcommand", VStr "build");
               ("prog", VStr "prog build")]
              [Printed ("prog: error: unrecognized arguments: --flag" ++ nl)]
              [])
  /\ parse_args Examples.idle (Argparse.tokenize Examples.idle)
                Examples.root ["--flag"] Examples.fresh
     <> parse_args Examples.idle (Argparse.tokenize Examples.idle)
                   Examples.root ["build"; "--flag"] Examples.fresh.
Proof.
  split; [reflexivity|]. split; [reflexivity|]. discriminate.
Qed.

(** C5, as the code has it. A default subcommand that is not
    registered is not noticed at set-up: [add_subparsers] stores the name
    and nothing else.  It is noticed when an argument list that needs the
    fallback is parsed, one without a help flag that does not start with
    a registered subcommand: [_parse_known_args] then raises a value
    error before the parent parsers and the tokenizer see the list, and
    [parse_args] passes it on to the caller with nothing printed.  When
    the fallback is skipped the list is tokenized as usual. *)
Theorem unknown_default_subparser :
  forall (functors : F_env)
         (super__parse_known_args : parser -> list string -> M (list string))
         (self : parser) (default : string) (args : list string) (w : world),
    default_subparser self = Some default ->
    known_subparser default self = false ->
    let failure := ValueError (unknown_subparser_message self default) in
    (forall d p, default_subparser (add_subparsers d p) = d
                 /\ subparsers (add_subparsers d p) = subparsers p
                 /\ parents (add_subparsers d p) = parents p) /\
    (skip_subparser_fallback self args = false ->
     _parse_known_args super__parse_known_args self args w = (Raise failure, w)
     /\ forall w1,
         add_defaults functors (defaults self) w = (Ok tt, w1) ->
         parse_args functors super__parse_known_args self args w
         = (Raise failure, w1)) /\
    (skip_subparser_fallback self args = true ->
     _parse_known_args super__parse_known_args self args w
     = super__parse_known_args self args w).
Proof.
  intros functors super self default args w D K failure.
  split; [intros d p; now destruct p|]. split.
  - intros S. split; [now apply unknown_default|].
    intros w1 A. unfold parse_args, parse_args_head, parse_known_args.
    unfold bind at 1. unfold bind at 1. unfold bind at 1. rewrite A.
    unfold bind at 1.
    rewrite (unknown_default super self default args w1 D K S).
    reflexivity.
  - intros S. now apply fallback_skipped.
Qed.

Lemma unknown_default_subparser_witness :
  parse_args Examples.idle (Argparse.tokenize Examples.idle)
             Examples.misconfigured ["--flag"] Examples.fresh
  = (Raise (ValueError "unknown subparser 'bogus' (available subparsers build)"),
     Examples.fresh).
Proof.
  apply (unknown_default_subparser
           Examples.idle (Argparse.tokenize Examples.idle)
           Examples.misconfigured "bogus" ["--flag"] Examples.fresh
           eq_refl eq_refl); reflexivity.
Defined.

(** The claim C5 fails on a command line that names a registered
    subcommand: the set-up with the unknown default raises nothing, and
    neither does the parse. *)
Lemma unknown_default_unnoticed :
  default_subparser Examples.misconfigured = Some "bogus"
  /\ known_subparser "bogus" Examples.misconfigured = false
  /\ parse_args Examples.idle (Argparse.tokenize Examples.idle)
                Examples.misconfigured ["build"] Examples.fresh
     = (Ok tt,
        World [("subcommand", VStr "build"); ("prog", VStr "prog build")] [] []).
Proof. repeat split. Qed.

(** ** Instances of the resolution theorems *)

Lemma pass2_priority_order_witness :
  calls (snd (pass2 Examples.store Examples.bare Examples.two_delayed))
  = [("a", 1%Z); ("b", 2%Z)]
  /\ exists l1 l2 l3,
      calls (snd (pass2 Examples.store Examples.bare Examples.two_delayed))
      = calls Examples.two_delayed ++ l1 ++ ("a", 1%Z) :: l2 ++ ("b", 2%Z) :: l3.
Proof.
  split; [reflexivity|].
  apply (pass2_priority_order
           Examples.store Examples.bare Examples.two_delayed "a" "b"
           (Delayed KDelayedValue 1 (Functor 0))
           (Delayed KDelayedValue 2 (Functor 0))).
  - simpl. auto.
  - simpl. auto.
  - discriminate.
  - reflexivity.
  - reflexivity.
  - reflexivity.
Defined.

Lemma pass2_error_handling_witness :
  parse_args Examples.failing (Argparse.tokenize Examples.failing)
             Examples.plain [] Examples.fresh
  = (Raise (TypeError "failed loading/parsing 'x': bad value"),
     World [("x", VDelayed Examples.delayed_x)] [] [("x", 0%Z)]).
Proof.
  apply (pass2_error_handling
           Examples.failing (Argparse.tokenize Examples.failing)
           Examples.plain [] Examples.fresh
           Examples.one_delayed Examples.one_delayed Examples.one_delayed
           (World [("x", VDelayed Examples.delayed_x)] [] [("x", 0%Z)])
           [] [] "x" Examples.delayed_x (ValueError "bad value")
           eq_refl eq_refl eq_refl eq_refl eq_refl).
  now right.
Defined.

Lemma pass1_idempotent_witness :
  exists w1,
    pass1 Examples.idle Examples.suppressing = (Ok tt, w1)
    /\ (exists keep, ns w1 = filter keep (ns Examples.suppressing))
    /\ delayed_items true (ns w1) = []
    /\ pass1 Examples.idle w1 = (Ok tt, w1).
Proof.
  apply (pass1_idempotent Examples.idle Examples.suppressing).
  intros attr d H K. simpl in H.
  destruct H as [H|[H|[]]]; [discriminate|].
  injection H as _ <-. eexists. reflexivity.
Defined.

(** * Further properties of the code *)

(** ** The namespace as a dictionary *)

Lemma has_key_get (k : string) (d : namespace) :
  Dict.has_key k d = match Dict.get k d with Some _ => true | None => false end.
Proof.
  unfold Dict.has_key. induction d as [|[k' v] d IH]; simpl; [reflexivity|].
  destruct (String.eqb k' k); [reflexivity|exact IH].
Qed.

Lemma set_absent (k : string) (v : value) (d : namespace) :
  Dict.get k d = None -> Dict.set k v d = d ++ [(k, v)].
Proof.
  intros H. unfold Dict.set. now rewrite has_key_get, H.
Qed.

Lemma map_set_absent (k : string) (v : value) (d : namespace) :
  Dict.get k d = None ->
  map (fun kv => if String.eqb (fst kv) k then (fst kv, v) else kv) d = d.
Proof.
  induction d as [|[k' v'] d IH]; simpl; [reflexivity|].
  destruct (String.eqb k' k); [discriminate|].
  intros H. now rewrite IH.
Qed.

Lemma has_key_set (k : string) (v : value) (d : namespace) :
  Dict.has_key k (Dict.set k v d) = true.
Proof.
  unfold Dict.set. destruct (Dict.has_key k d) eqn:E.
  - unfold Dict.has_key in *. rewrite existsb_exists in *.
    destruct E as [[k' v'] [Hin Hk]]. simpl in Hk.
    exists (k', v). split; [|exact Hk].
    apply in_map_iff. exists (k', v'). simpl. now rewrite Hk.
  - unfold Dict.has_key. rewrite existsb_app. simpl.
    now rewrite String.eqb_refl, orb_true_r.
Qed.

(** Assigning twice is assigning the last value. *)
Lemma set_set (k : string) (v1 v2 : value) (d : namespace) :
  Dict.set k v2 (Dict.set k v1 d) = Dict.set k v2 d.
Proof.
  unfold Dict.set at 1. rewrite has_key_set.
  unfold Dict.set. destruct (Dict.has_key k d) eqn:E.
  - rewrite map_map. apply map_ext. intros [k' v']. simpl.
    destruct (String.eqb k' k) eqn:Ek; simpl; now rewrite Ek.
  - rewrite map_app. simpl. rewrite String.eqb_refl.
    rewrite map_set_absent; [reflexivity|].
    rewrite has_key_get in E. now destruct (Dict.get k d).
Qed.

Lemma get_set_same (k : string) (v : value) (d : namespace) :
  Dict.get k (Dict.set k v d) = Some v.
Proof.
  unfold Dict.set. destruct (Dict.has_key k d) eqn:E.
  - induction d as [|[k' v'] d IH]; [discriminate|].
    simpl in *. destruct (String.eqb k' k) eqn:Ek; simpl; rewrite Ek;
      [reflexivity|]. apply IH. unfold Dict.has_key. exact E.
  - rewrite has_key_get in E.
    induction d as [|[k' v'] d IH]; simpl in *.
    + now rewrite String.eqb_refl.
    + destruct (String.eqb k' k); [discriminate|]. now apply IH.
Qed.

Lemma get_set_other (k k' : string) (v : value) (d : namespace) :
  k' <> k -> Dict.get k' (Dict.set k v d) = Dict.get k' d.
Proof.
  intros N. unfold Dict.set. destruct (Dict.has_key k d).
  - induction d as [|[k0 v0] d IH]; [reflexivity|].
    simpl. destruct (String.eqb k0 k) eqn:E; simpl.
    + apply String.eqb_eq in E. subst k0.
      destruct (String.eqb k k') eqn:E'; [|exact IH].
      apply String.eqb_eq in E'. congruence.
    + destruct (String.eqb k0 k'); [reflexivity|exact IH].
  - induction d as [|[k0 v0] d IH]; simpl.
    + destruct (String.eqb k k') eqn:E'; [|reflexivity].
      apply String.eqb_eq in E'. congruence.
    + destruct (String.eqb k0 k'); [reflexivity|exact IH].
Qed.

Lemma set_ns_set_ns (w : world) (d1 d2 : namespace) :
  set_ns (set_ns w d1) d2 = set_ns w d2.
Proof. reflexivity. Qed.

(** ** The appending actions *)

Section Extend.
Variable functors : F_env.

(** Reading an attribute that holds no delayed value. *)
Lemma getattribute_plain (name : string) (v : value) (w : world) :
  Dict.get name (ns w) = Some v -> is_DelayedValue v = false ->
  __getattribute__ functors name w = (Ok v, w).
Proof.
  intros G D. unfold __getattribute__, raw_getattribute, bind, get_ns.
  rewrite G. unfold ret. now destruct v.
Qed.

Lemma getattribute_missing (name : string) (w : world) :
  Dict.get name (ns w) = None ->
  __getattribute__ functors name w = (Raise (AttributeError name), w).
Proof.
  intros G. unfold __getattribute__, raw_getattribute, bind, get_ns.
  now rewrite G.
Qed.

(** [_ensure_value] on an attribute that is missing, [None] or a list:
    the list comes back, and the attribute is there afterwards. *)
Lemma ensure_value_list (dest : string) (old : list string) (w : world) :
  stored_list dest (ns w) = Some old ->
  exists d1,
    Actions._ensure_value functors dest (VStrs []) w
    = (Ok (VStrs old), set_ns w d1)
    /\ forall v, Dict.set dest v d1 = Dict.set dest v (ns w).
Proof.
  unfold stored_list. intros H.
  unfold Actions._ensure_value, getattr_or_None, except_AttributeError.
  unfold bind at 1. unfold bind at 1.
  destruct (Dict.get dest (ns w)) as [v|] eqn:G.
  - destruct v; try discriminate.
    + injection H as <-.
      rewrite (getattribute_plain dest VNone w G eq_refl).
      unfold setattr, bind, get_ns, put_ns. cbv beta iota.
      rewrite (getattribute_plain dest (VStrs [])).
      * eexists. split; [reflexivity|]. intros v. apply set_set.
      * apply get_set_same.
      * reflexivity.
    + injection H as <-.
      rewrite (getattribute_plain dest (VStrs l) w G eq_refl).
      unfold ret at 1. cbv beta iota.
      rewrite (getattribute_plain dest (VStrs l) w G eq_refl).
      exists (ns w). rewrite set_ns_same. split; reflexivity.
  - injection H as <-.
    rewrite (getattribute_missing dest w G).
    unfold ret at 1. unfold setattr, bind, get_ns, put_ns. cbv beta iota.
    rewrite (getattribute_plain dest (VStrs [])).
    + eexists. split; [reflexivity|]. intros v. apply set_set.
    + apply get_set_same.
    + reflexivity.
Qed.

Lemma extend_call (dest : string) (vs : values) (old : list string)
      (w : world) :
  stored_list dest (ns w) = Some old ->
  Actions.ExtendAction__call__ functors dest vs w
  = (Ok tt, set_ns w (Dict.set dest (VStrs (old ++ iterate vs)) (ns w))).
Proof.
  intros H. unfold Actions.ExtendAction__call__. unfold bind at 1.
  destruct (ensure_value_list dest old w H) as (d1 & E & S).
  rewrite E. unfold setattr, bind, get_ns, put_ns. simpl.
  now rewrite S.
Qed.

Lemma stored_list_set (dest : string) (l : list string) (d : namespace) :
  stored_list dest (Dict.set dest (VStrs l) d) = Some l.
Proof. unfold stored_list. now rewrite get_set_same. Qed.

End Extend.

(** X1. [ExtendAction] keeps one flat list under its destination: a
    call appends its values to the list found there (the empty list when
    the attribute is missing or [None]), two calls in a row leave the
    values of both in order, every other attribute keeps its value, and
    a destination that holds something without [extend] is an attribute
    error that changes nothing. *)
Theorem extend_action_accumulates :
  forall (functors : F_env) (dest : string) (vs1 vs2 : values)
         (old : list string) (w : world),
    stored_list dest (ns w) = Some old ->
    let call := Actions.ExtendAction__call__ functors dest in
    call vs1 w
    = (Ok tt, set_ns w (Dict.set dest (VStrs (old ++ iterate vs1)) (ns w)))
    /\ (call vs1 ;;; call vs2) w
       = (Ok tt,
          set_ns w (Dict.set dest
                      (VStrs (old ++ iterate vs1 ++ iterate vs2)) (ns w)))
    /\ (forall k, k <> dest ->
                  Dict.get k (ns (snd ((call vs1 ;;; call vs2) w)))
                  = Dict.get k (ns w))
    /\ (forall (w' : world) (v : value),
           Dict.get dest (ns w') = Some v ->
           is_DelayedValue v = false ->
           stored_list dest (ns w') = None ->
           call vs1 w' = (Raise (AttributeError "extend"), w')).
Proof.
  intros functors dest vs1 vs2 old w H call.
  assert (E1 : call vs1 w
               = (Ok tt, set_ns w (Dict.set dest (VStrs (old ++ iterate vs1))
                                            (ns w)))).
  { now apply extend_call. }
  assert (E2 : (call vs1 ;;; call vs2) w
               = (Ok tt,
                  set_ns w (Dict.set dest
                              (VStrs (old ++ iterate vs1 ++ iterate vs2))
                              (ns w)))).
  { unfold bind. rewrite E1. unfold call.
    rewrite (extend_call functors dest vs2 (old ++ iterate vs1)).
    - simpl. now rewrite set_set, <- app_assoc.
    - simpl. apply stored_list_set. }
  split; [exact E1|]. split; [exact E2|]. split.
  - intros k N. rewrite E2. simpl. now apply get_set_other.
  - intros w' v G D S. unfold call, Actions.ExtendAction__call__.
    unfold bind at 1. unfold Actions._ensure_value, getattr_or_None,
      except_AttributeError.
    unfold bind at 1. unfold bind at 1.
    rewrite (getattribute_plain functors dest v w' G D).
    unfold stored_list in S. rewrite G in S.
    destruct v; try discriminate; unfold ret at 1; cbv beta iota;
      rewrite (getattribute_plain functors dest _ w' G D); reflexivity.
Qed.

Lemma extend_action_accumulates_witness :
  (Actions.ExtendAction__call__ Examples.idle "targets" (Strs ["b"]) ;;;
   Actions.ExtendAction__call__ Examples.idle "targets" (Strs ["c"; "d"]))
    (World [("targets", VStrs ["a"]); ("color", VBool true)] [] [])
  = (Ok tt,
     World [("targets", VStrs ["a"; "b"; "c"; "d"]); ("color", VBool true)]
           [] []).
Proof.
  apply (extend_action_accumulates
           Examples.idle "targets" (Strs ["b"]) (Strs ["c"; "d"]) ["a"]
           (World [("targets", VStrs ["a"]); ("color", VBool true)] [] [])
           eq_refl).
Defined.

(** X2. [CommaSeparatedValues] overrides: a call never raises and
    leaves exactly the tokens of its values under the destination,
    whatever was there, so of two calls only the last one counts; other
    attributes keep their value. *)
Theorem csv_call_overrides :
  forall (dest : string) (vs1 vs2 : values) (w : world),
    let call := Actions.CommaSeparatedValues__call__ dest in
    call vs2 w = (Ok tt, set_ns w (Dict.set dest (VStrs (all_tokens vs2)) (ns w)))
    /\ Dict.get dest (ns (snd (call vs2 w))) = Some (VStrs (all_tokens vs2))
    /\ (call vs1 ;;; call vs2) w = call vs2 w
    /\ (forall k, k <> dest ->
                  Dict.get k (ns (snd (call vs2 w))) = Dict.get k (ns w)).
Proof.
  intros dest vs1 vs2 w call.
  assert (E : forall vs w0,
             call vs w0
             = (Ok tt, set_ns w0 (Dict.set dest (VStrs (all_tokens vs)) (ns w0)))).
  { intros vs w0. unfold call, Actions.CommaSeparatedValues__call__.
    now rewrite csv_parse_values_tokens. }
  split; [apply E|]. split; [rewrite E; apply get_set_same|]. split.
  - unfold bind. rewrite (E vs1 w), !E. simpl. now rewrite set_set.
  - intros k N. rewrite E. simpl. now apply get_set_other.
Qed.

(** X3. [CommaSeparatedValuesAppend] accumulates: a call appends the
    tokens of its values to the list under the destination, and two
    calls leave what one call with the values of both would leave. *)
Theorem csv_append_accumulates :
  forall (functors : F_env) (dest : string) (vs1 vs2 : values)
         (old : list string) (w : world),
    stored_list dest (ns w) = Some old ->
    let call := Actions.CommaSeparatedValuesAppend__call__ functors dest in
    call vs1 w
    = (Ok tt, set_ns w (Dict.set dest (VStrs (old ++ all_tokens vs1)) (ns w)))
    /\ (call vs1 ;;; call vs2) w
       = (Ok tt,
          set_ns w (Dict.set dest
                      (VStrs (old ++ all_tokens vs1 ++ all_tokens vs2)) (ns w)))
    /\ (call vs1 ;;; call vs2) w
       = call (Strs (as_list vs1 ++ as_list vs2)) w.
Proof.
  intros functors dest vs1 vs2 old w H call.
  assert (E : forall vs l w0,
             stored_list dest (ns w0) = Some l ->
             call vs w0
             = (Ok tt, set_ns w0 (Dict.set dest (VStrs (l ++ all_tokens vs))
                                           (ns w0)))).
  { intros vs l w0 S. unfold call, Actions.CommaSeparatedValuesAppend__call__.
    rewrite csv_parse_values_tokens.
    now rewrite (extend_call functors dest _ l w0 S). }
  assert (E2 : (call vs1 ;;; call vs2) w
               = (Ok tt,
                  set_ns w (Dict.set dest
                              (VStrs (old ++ all_tokens vs1 ++ all_tokens vs2))
                              (ns w)))).
  { unfold bind. rewrite (E vs1 old w H).
    rewrite (E vs2 (old ++ all_tokens vs1)).
    - simpl. now rewrite set_set, <- app_assoc.
    - simpl. apply stored_list_set. }
  split; [now apply E|]. split; [exact E2|].
  rewrite E2, (E _ old w H). unfold all_tokens. simpl.
  now rewrite flat_map_app.
Qed.

Lemma csv_append_accumulates_witness :
  (Actions.CommaSeparatedValuesAppend__call__ Examples.idle "repo" (Str "a,,b") ;;;
   Actions.CommaSeparatedValuesAppend__call__ Examples.idle "repo" (Str ",c"))
    Examples.fresh
  = (Ok tt, World [("repo", VStrs ["a"; "b"; "c"])] [] []).
Proof.
  apply (csv_append_accumulates
           Examples.idle "repo" (Str "a,,b") (Str ",c") [] Examples.fresh
           eq_refl).
Defined.

(** ** The signed appending actions *)

Section SignedLoops.
Variable split_negations : list string -> result (list string * list string).
Variable split_elements :
  list string -> result (list string * list string * list string).

Lemma negations_loop_acc (l : list string) :
  forall d e,
    CommaSeparatedNegations.loop split_negations l d e
    = match CommaSeparatedNegations.loop split_negations l [] [] with
      | Ok (dd, ee) => Ok (d ++ dd, e ++ ee)
      | Raise x => Raise x
      end.
Proof.
  induction l as [|v l IH]; intros d e; simpl.
  - now rewrite !app_nil_r.
  - destruct (split_negations (comma_tokens v)) as [[neg pos]|x];
      [|now destruct (is_ValueError x)].
    rewrite (IH (d ++ neg) (e ++ pos)), (IH neg pos).
    destruct (CommaSeparatedNegations.loop split_negations l [] [])
      as [[dd ee]|x]; [|reflexivity].
    now rewrite !app_assoc.
Qed.

Lemma negations_loop_app (l1 l2 : list string) :
  forall d e,
    CommaSeparatedNegations.loop split_negations (l1 ++ l2) d e
    = match CommaSeparatedNegations.loop split_negations l1 d e with
      | Ok (d', e') => CommaSeparatedNegations.loop split_negations l2 d' e'
      | Raise x => Raise x
      end.
Proof.
  induction l1 as [|v l1 IH]; intros d e; simpl; [reflexivity|].
  destruct (split_negations (comma_tokens v)) as [[neg pos]|x];
    [apply IH|now destruct (is_ValueError x)].
Qed.

Lemma elements_loop_acc (l : list string) :
  forall d n e,
    CommaSeparatedElements.loop split_elements l d n e
    = match CommaSeparatedElements.loop split_elements l [] [] [] with
      | Ok (dd, nn, ee) => Ok (d ++ dd, n ++ nn, e ++ ee)
      | Raise x => Raise x
      end.
Proof.
  induction l as [|v l IH]; intros d n e; simpl.
  - now rewrite !app_nil_r.
  - destruct (split_elements (comma_tokens v)) as [[[neg neu] pos]|x];
      [|now destruct (is_ValueError x)].
    rewrite (IH (d ++ neg) (n ++ neu) (e ++ pos)), (IH neg neu pos).
    destruct (CommaSeparatedElements.loop split_elements l [] [] [])
      as [[[dd nn] ee]|x]; [|reflexivity].
    now rewrite !app_assoc.
Qed.

Lemma elements_loop_app (l1 l2 : list string) :
  forall d n e,
    CommaSeparatedElements.loop split_elements (l1 ++ l2) d n e
    = match CommaSeparatedElements.loop split_elements l1 d n e with
      | Ok (d', n', e') =>
          CommaSeparatedElements.loop split_elements l2 d' n' e'
      | Raise x => Raise x
      end.
Proof.
  induction l1 as [|v l1 IH]; intros d n e; simpl; [reflexivity|].
  destruct (split_elements (comma_tokens v)) as [[[neg neu] pos]|x];
    [apply IH|now destruct (is_ValueError x)].
Qed.
End SignedLoops.

Lemma zip_add_twice2 (old : list (list string)) (a b c d : list string) :
  Actions.zip_add (Actions.zip_add old [a; b]) [c; d]
  = Actions.zip_add old [a ++ c; b ++ d].
Proof.
  unfold Actions.zip_add.
  destruct old as [|x [|y old]]; simpl;
    rewrite ?combine_nil, <- ?app_assoc; reflexivity.
Qed.

Lemma zip_add_twice3 (old : list (list string)) (a b c d e f : list string) :
  Actions.zip_add (Actions.zip_add old [a; b; c]) [d; e; f]
  = Actions.zip_add old [a ++ d; b ++ e; c ++ f].
Proof.
  unfold Actions.zip_add.
  destruct old as [|x [|y [|z old]]]; simpl;
    rewrite ?combine_nil, <- ?app_assoc; reflexivity.
Qed.

(** X4. The appending variants of the signed comma-list actions
    accumulate list by list: when the values of two occurrences of the
    option parse, handling them one after the other leaves what one
    occurrence with the values of both would leave, the lists of the
    second appended to those of the first; starting from a missing
    attribute the first occurrence stores what the overriding action
    would store.  This holds for any splitting routine. *)
Theorem signed_append_accumulates :
  forall (split_negations : list string -> result (list string * list string))
         (split_elements :
            list string -> result (list string * list string * list string))
         (vs1 vs2 : values) (dest : Actions.tuple_attr),
    let both := Strs (as_list vs1 ++ as_list vs2) in
    let neg := Actions.CommaSeparatedNegationsAppend__call__ split_negations in
    let elt := Actions.CommaSeparatedElementsAppend__call__ split_elements in
    (forall d1 e1 d2 e2,
        CommaSeparatedNegations.parse_values split_negations vs1 = Ok (d1, e1) ->
        CommaSeparatedNegations.parse_values split_negations vs2 = Ok (d2, e2) ->
        CommaSeparatedNegations.parse_values split_negations both
        = Ok (d1 ++ d2, e1 ++ e2)
        /\ neg vs2 (snd (neg vs1 dest)) = neg both dest
        /\ neg vs1 None
           = Actions.CommaSeparatedNegations__call__ split_negations vs1 None
        /\ neg vs2 (snd (neg vs1 None)) = (Ok tt, Some [d1 ++ d2; e1 ++ e2])) /\
    (forall d1 n1 e1 d2 n2 e2,
        CommaSeparatedElements.parse_values split_elements vs1
        = Ok (d1, n1, e1) ->
        CommaSeparatedElements.parse_values split_elements vs2
        = Ok (d2, n2, e2) ->
        CommaSeparatedElements.parse_values split_elements both
        = Ok (d1 ++ d2, n1 ++ n2, e1 ++ e2)
        /\ elt vs2 (snd (elt vs1 dest)) = elt both dest
        /\ elt vs1 None
           = Actions.CommaSeparatedElements__call__ split_elements vs1 None
        /\ elt vs2 (snd (elt vs1 None))
           = (Ok tt, Some [d1 ++ d2; n1 ++ n2; e1 ++ e2])).
Proof.
  intros split_negations split_elements vs1 vs2 dest both neg elt. split.
  - intros d1 e1 d2 e2 P1 P2.
    assert (PB : CommaSeparatedNegations.parse_values split_negations both
                 = Ok (d1 ++ d2, e1 ++ e2)).
    { unfold CommaSeparatedNegations.parse_values in *. unfold both. simpl.
      rewrite negations_loop_app, P1, negations_loop_acc, P2. reflexivity. }
    split; [exact PB|].
    unfold neg, Actions.CommaSeparatedNegationsAppend__call__,
      Actions.CommaSeparatedNegations__call__.
    rewrite P1, PB. simpl. rewrite P2.
    repeat split; now rewrite ?zip_add_twice2.
  - intros d1 n1 e1 d2 n2 e2 P1 P2.
    assert (PB : CommaSeparatedElements.parse_values split_elements both
                 = Ok (d1 ++ d2, n1 ++ n2, e1 ++ e2)).
    { unfold CommaSeparatedElements.parse_values in *. unfold both. simpl.
      rewrite elements_loop_app, P1, elements_loop_acc, P2. reflexivity. }
    split; [exact PB|].
    unfold elt, Actions.CommaSeparatedElementsAppend__call__,
      Actions.CommaSeparatedElements__call__.
    rewrite P1, PB. simpl. rewrite P2.
    repeat split; now rewrite ?zip_add_twice3.
Qed.

(** ** Setting up a parser *)

Lemma count_nonneg (x : string) (argv : list string) : (0 <= Init.count x argv)%Z.
Proof. unfold Init.count. lia. Qed.

Lemma count_zero (x : string) (argv : list string) :
  Init.count x argv = 0%Z <-> ~ In x argv.
Proof.
  unfold Init.count. rewrite (count_occ_not_In string_dec). lia.
Qed.

Lemma count_app (x : string) (a b : list string) :
  Init.count x (a ++ b) = (Init.count x a + Init.count x b)%Z.
Proof. unfold Init.count. rewrite count_occ_app. lia. Qed.

Lemma count_perm (x : string) (a b : list string) :
  Permutation a b -> Init.count x a = Init.count x b.
Proof.
  intros P. unfold Init.count. f_equal.
  now apply (proj1 (Permutation_count_occ string_dec a b)).
Qed.

Lemma quiet_count (argv : list string) :
  (Init.count "-q" argv + Init.count "--quiet" argv = 0)%Z <-> ~ quiet_flag argv.
Proof.
  pose proof (count_nonneg "-q" argv). pose proof (count_nonneg "--quiet" argv).
  pose proof (count_zero "-q" argv) as Z1.
  pose proof (count_zero "--quiet" argv) as Z2.
  unfold quiet_flag. split.
  - intros E [I|I]; [apply (proj1 Z1)|apply (proj1 Z2)]; auto; lia.
  - intros N.
    assert (Init.count "-q" argv = 0%Z) by (apply Z1; tauto).
    assert (Init.count "--quiet" argv = 0%Z) by (apply Z2; tauto). lia.
Qed.

Lemma quiet_flag_dec (argv : list string) : quiet_flag argv \/ ~ quiet_flag argv.
Proof.
  unfold quiet_flag.
  destruct (in_dec string_dec "-q" argv); [tauto|].
  destruct (in_dec string_dec "--quiet" argv); tauto.
Qed.

Lemma verbose_disabled (argv : list string) : Init.verbose_attr 0 argv = 0%Z.
Proof. reflexivity. Qed.

Lemma verbose_quiet (verbose : Z) (argv : list string) :
  verbose <> 0%Z -> quiet_flag argv -> Init.verbose_attr verbose argv = (-1)%Z.
Proof.
  intros N Q. unfold Init.verbose_attr.
  apply Z.eqb_neq in N. rewrite N.
  destruct (Init.count "-q" argv + Init.count "--quiet" argv =? 0)%Z eqn:E;
    [|reflexivity].
  apply Z.eqb_eq, quiet_count in E. contradiction.
Qed.

Lemma verbose_counted (verbose : Z) (argv : list string) :
  verbose <> 0%Z -> ~ quiet_flag argv ->
  Init.verbose_attr verbose argv
  = (Init.count "-v" argv + Init.count "--verbose" argv)%Z.
Proof.
  intros N Q. unfold Init.verbose_attr.
  apply Z.eqb_neq in N. rewrite N.
  apply quiet_count, Z.eqb_eq in Q. now rewrite Q.
Qed.

Lemma quiet_flag_perm (a b : list string) :
  Permutation a b -> quiet_flag a -> quiet_flag b.
Proof.
  unfold quiet_flag. intros P [I|I]; [left|right];
    eapply Permutation_in; eassumption.
Qed.

(** X5. The verbosity that [ArgumentParser.__init__] reads off the
    command line: 0 when the parameter disables it; otherwise -1 exactly
    when a quiet flag is present, however many verbose flags there are,
    and else the number of [-v] and [--verbose] arguments.  It is never
    below -1, does not depend on the order of the arguments, and adds
    up over concatenated command lines without a quiet flag.  The debug
    attribute is set exactly when the parameter allows it and [--debug]
    is an argument. *)
Theorem verbosity_from_argv :
  forall (verbose : Z) (debug : bool) (argv argv' : list string),
    let v := Init.verbose_attr verbose argv in
    (-1 <= v)%Z /\
    (verbose = 0%Z -> v = 0%Z) /\
    (verbose <> 0%Z -> (v = (-1)%Z <-> quiet_flag argv)) /\
    (verbose <> 0%Z -> ~ quiet_flag argv ->
     v = (Init.count "-v" argv + Init.count "--verbose" argv)%Z) /\
    (Permutation argv argv' -> Init.verbose_attr verbose argv' = v) /\
    (verbose <> 0%Z -> ~ quiet_flag argv -> ~ quiet_flag argv' ->
     Init.verbose_attr verbose (argv ++ argv')
     = (v + Init.verbose_attr verbose argv')%Z) /\
    (Init.debug_attr debug argv = true <-> debug = true /\ In "--debug" argv).
Proof.
  intros verbose debug argv argv' v.
  pose proof (count_nonneg "-v" argv) as V1.
  pose proof (count_nonneg "--verbose" argv) as V2.
  assert (C0 : verbose = 0%Z -> v = 0%Z).
  { intros ->. reflexivity. }
  assert (CQ : verbose <> 0%Z -> quiet_flag argv -> v = (-1)%Z).
  { intros. now apply verbose_quiet. }
  assert (CV : verbose <> 0%Z -> ~ quiet_flag argv ->
               v = (Init.count "-v" argv + Init.count "--verbose" argv)%Z).
  { intros. now apply verbose_counted. }
  split.
  { destruct (Z.eq_dec verbose 0) as [E|N]; [rewrite (C0 E); lia|].
    destruct (quiet_flag_dec argv) as [Q|Q];
      [rewrite (CQ N Q); lia|rewrite (CV N Q); lia]. }
  split; [exact C0|]. split.
  { intros N. split; [|now apply CQ].
    intros E. destruct (quiet_flag_dec argv) as [Q|Q]; [exact Q|].
    rewrite (CV N Q) in E. lia. }
  split; [exact CV|]. split.
  { intros P. unfold v.
    destruct (Z.eq_dec verbose 0) as [->|N]; [reflexivity|].
    destruct (quiet_flag_dec argv) as [Q|Q].
    - rewrite (verbose_quiet verbose argv N Q).
      apply verbose_quiet; [exact N|]. eapply quiet_flag_perm; eassumption.
    - rewrite (verbose_counted verbose argv N Q).
      rewrite verbose_counted; [|exact N|].
      + now rewrite !(count_perm _ argv argv' P).
      + intros Q'. apply Q.
        eapply quiet_flag_perm; [apply Permutation_sym; exact P|exact Q']. }
  split.
  { intros N Q Q'. unfold v.
    rewrite (verbose_counted verbose argv N Q).
    rewrite (verbose_counted verbose argv' N Q').
    rewrite verbose_counted; [rewrite !count_app; lia|exact N|].
    unfold quiet_flag in *. rewrite !in_app_iff. tauto. }
  unfold Init.debug_attr. rewrite andb_true_iff, str_in_In. tauto.
Qed.

(** ** Splitting a dotted name *)

Lemma join_cons_char (sep : string) (c : ascii) (p : string) (more : list string) :
  Py.join sep (String c p :: more) = String c (Py.join sep (p :: more)).
Proof. destruct more; reflexivity. Qed.

(** Joining the pieces of a split gives the string back. *)
Lemma join_split (sep : ascii) (s : string) :
  Py.join (String sep EmptyString) (Py.split sep s) = s.
Proof.
  induction s as [|c s IH]; [reflexivity|].
  simpl. destruct (Ascii.eqb c sep) eqn:E.
  - apply Ascii.eqb_eq in E. subst c.
    destruct (Py.split sep s) as [|p more] eqn:S;
      [now apply split_not_nil in S|].
    change (Py.join (String sep "") ("" :: p :: more))
      with (String sep (Py.join (String sep "") (p :: more))).
    now rewrite IH.
  - destruct (Py.split sep s) as [|p more] eqn:S;
      [now apply split_not_nil in S|].
    rewrite join_cons_char. now rewrite IH.
Qed.

Lemma contains_false_cons (sep c : ascii) (s : string) :
  Py.contains sep (String c s) = false
  <-> Ascii.eqb c sep = false /\ Py.contains sep s = false.
Proof.
  simpl. rewrite orb_false_iff, (Ascii.eqb_sym sep c). tauto.
Qed.

Lemma split_pieces_no_sep (sep : ascii) (s : string) :
  Forall (fun p => Py.contains sep p = false) (Py.split sep s).
Proof.
  induction s as [|c s IH]; simpl; [repeat constructor|].
  destruct (Ascii.eqb c sep) eqn:E; [constructor; [reflexivity|exact IH]|].
  destruct (Py.split sep s) as [|p more]; [repeat constructor|].
  - simpl. now rewrite (Ascii.eqb_sym sep c), E.
  - inversion IH; subst. constructor; [|assumption].
    apply contains_false_cons. auto.
Qed.

Lemma split_no_sep (sep : ascii) (s : string) :
  Py.contains sep s = false -> Py.split sep s = [s].
Proof.
  induction s as [|c s IH]; [reflexivity|].
  intros H. apply contains_false_cons in H. destruct H as [E H].
  simpl. rewrite E, (IH H). reflexivity.
Qed.

Lemma append_assoc_cons (c : ascii) (a b : string) :
  (String c a ++ b)%string = String c (a ++ b)%string.
Proof. reflexivity. Qed.

Lemma last_piece_In (l : list string) :
  l <> [] -> In (PyStr.last_piece l) l.
Proof.
  induction l as [|x l IH]; [congruence|]. intros _.
  destruct l as [|y l]; [now left|].
  right. apply IH. discriminate.
Qed.

(** The first piece is the whole string, or what stands before the
    first separator. *)
Lemma split_first (sep : ascii) (s : string) :
  let first := hd EmptyString (Py.split sep s) in
  s = first \/ exists rest, s = (first ++ String sep rest)%string.
Proof.
  induction s as [|c s IH]; [now left|].
  simpl. destruct (Ascii.eqb c sep) eqn:E.
  - apply Ascii.eqb_eq in E. subst c. right. now exists s.
  - destruct (Py.split sep s) as [|p more] eqn:S;
      [now apply split_not_nil in S|].
    cbv zeta in IH. simpl in IH. simpl.
    destruct IH as [IH|[rest IH]]; [left|right; exists rest];
      simpl; now rewrite <- IH.
Qed.

(** The last piece is the whole string, or what stands after the last
    separator. *)
Lemma split_last (sep : ascii) (s : string) :
  let last := PyStr.last_piece (Py.split sep s) in
  s = last \/ exists front, s = (front ++ String sep last)%string.
Proof.
  induction s as [|c s IH]; [now left|].
  simpl. destruct (Ascii.eqb c sep) eqn:E.
  - apply Ascii.eqb_eq in E. subst c.
    destruct (Py.split sep s) as [|p more] eqn:S;
      [now apply split_not_nil in S|].
    change (PyStr.last_piece ("" :: p :: more))
      with (PyStr.last_piece (p :: more)).
    cbv zeta in IH. right. destruct IH as [IH|[front IH]].
    + exists EmptyString. rewrite <- IH. reflexivity.
    + exists (String sep front). rewrite append_assoc_cons, <- IH. reflexivity.
  - destruct (Py.split sep s) as [|p more] eqn:S;
      [now apply split_not_nil in S|].
    destruct more as [|q more].
    + left. pose proof (join_split sep s) as J. rewrite S in J. simpl in J.
      now subst p.
    + change (PyStr.last_piece (String c p :: q :: more))
        with (PyStr.last_piece (p :: q :: more)).
      cbv zeta in IH. destruct IH as [IH|[front IH]].
      * exfalso.
        assert (N : Py.contains sep s = false).
        { rewrite IH.
          pose proof (split_pieces_no_sep sep s) as F. rewrite S in F.
          rewrite Forall_forall in F. apply F.
          apply last_piece_In. discriminate. }
        apply split_no_sep in N. rewrite S in N. discriminate.
      * right. exists (String c front).
        rewrite append_assoc_cons, <- IH. reflexivity.
Qed.

(** X6. The names [__init__] takes from [script=(__file__, __name__)]:
    the project is what stands before the first dot of the module name
    and the program name what stands after the last one, so neither
    holds a dot and a module name without dots is both; a program name
    given explicitly is kept; a script path that does not exist is a
    value error. *)
Theorem script_names_of_module :
  forall (script_module : string) (prog : option string),
    (exists project name,
        Init.script_names true script_module None = Ok (project, name)
        /\ Py.contains "." project = false
        /\ Py.contains "." name = false
        /\ (script_module = project
            \/ exists rest, script_module = (project ++ String "." rest)%string)
        /\ (script_module = name
            \/ exists front, script_module = (front ++ String "." name)%string)
        /\ (Py.contains "." script_module = false ->
            project = script_module /\ name = script_module)
        /\ forall given, Init.script_names true script_module (Some given)
                         = Ok (project, given)) /\
    Init.script_names false script_module prog
    = Raise (ValueError
               "invalid script parameter, should be (__file__, __name__)").
Proof.
  intros script_module prog. split; [|reflexivity].
  exists (hd EmptyString (Py.split "." script_module)),
         (PyStr.last_piece (Py.split "." script_module)).
  pose proof (split_pieces_no_sep "." script_module) as F.
  rewrite Forall_forall in F.
  assert (NE : Py.split "." script_module <> []) by apply split_not_nil.
  repeat match goal with |- _ /\ _ => split end.
  - reflexivity.
  - apply F. destruct (Py.split "." script_module); [congruence|now left].
  - apply F. now apply last_piece_In.
  - apply split_first.
  - apply split_last.
  - intros N. rewrite (split_no_sep _ _ N). now split.
  - reflexivity.
Qed.

(** ** The description of a parser *)

Lemma split1_spec (sep : ascii) (s : string) :
  (PyStr.split1 sep s = [s] /\ Py.contains sep s = false)
  \/ exists a b,
      PyStr.split1 sep s = [a; b]
      /\ s = (a ++ String sep b)%string
      /\ Py.contains sep a = false.
Proof.
  induction s as [|c s IH]; [now left|].
  simpl. destruct (Ascii.eqb c sep) eqn:E.
  - apply Ascii.eqb_eq in E. subst c. right.
    exists EmptyString, s. repeat split.
  - rewrite (Ascii.eqb_sym sep c), E. simpl.
    destruct IH as [[-> N]|(a & b & -> & -> & N)].
    + left. now split.
    + right. exists (String c a), b. repeat split.
      apply contains_false_cons. auto.
Qed.

Lemma lstrip_spec (s : string) :
  PyStr.lstrip s = EmptyString
  \/ exists c r, PyStr.lstrip s = String c r /\ PyStr.isspace c = false.
Proof.
  induction s as [|c s IH]; [now left|].
  simpl. destruct (PyStr.isspace c) eqn:E; [exact IH|].
  right. now exists c, s.
Qed.

Lemma rstrip_keeps_head (c : ascii) (r : string) :
  PyStr.isspace c = false ->
  exists r', PyStr.rstrip (String c r) = String c r'.
Proof.
  intros E. simpl. destruct (PyStr.rstrip r); [rewrite E|]; eauto.
Qed.

(** A stripped string is empty or starts with a character that is not
    white space. *)
Lemma strip_spec (s : string) :
  PyStr.strip s = EmptyString
  \/ exists c r, PyStr.strip s = String c r /\ PyStr.isspace c = false.
Proof.
  unfold PyStr.strip. destruct (lstrip_spec s) as [->|(c & r & -> & E)].
  - now left.
  - right. destruct (rstrip_keeps_head c r E) as [r' ->]. now exists c, r'.
Qed.

(** X7. [_update_desc] returns the first line of the stripped
    description: it holds no newline, and unless the description is
    blank it is not empty and starts with a character that is not white
    space.  When docs are generated and none are given, the rest of the
    description becomes the docs, and the first line, a newline and the
    docs together are the stripped description again; docs that are given
    are kept; without doc generation no docs are stored.  Without a
    description none is returned. *)
Theorem update_desc_first_line :
  forall (generate_docs : bool) (d : string) (docs : option string),
    let line_feed := ascii_of_nat 10 in
    let r := Init._update_desc generate_docs (Some d) docs in
    (exists first,
        fst r = Some first
        /\ Py.contains line_feed first = false
        /\ (PyStr.strip d <> EmptyString ->
            exists c rest, first = String c rest /\ PyStr.isspace c = false)
        /\ (generate_docs = true -> docs = None ->
            (snd r = Some None /\ PyStr.strip d = first)
            \/ exists rest,
                snd r = Some (Some rest)
                /\ PyStr.strip d = (first ++ String line_feed rest)%string)) /\
    (generate_docs = false -> snd r = None) /\
    (generate_docs = true -> forall given,
          docs = Some given -> snd r = Some (Some given)) /\
    Init._update_desc generate_docs None docs
    = (None, if generate_docs then Some docs else None).
Proof.
  intros generate_docs d docs line_feed r.
  split; [|split; [|split]].
  - unfold r, Init._update_desc. fold line_feed. cbn [fst snd].
    destruct (split1_spec line_feed (PyStr.strip d))
      as [[S N]|(a & b & S & E & N)]; rewrite S; cbn [hd].
    + exists (PyStr.strip d). repeat split; [exact N| |].
      * intros NE. destruct (strip_spec d) as [Z|(c & rest & Z & W)];
          [contradiction|]. exists c, rest. now split.
      * intros -> ->. left. now split.
    + exists a. repeat split; [exact N| |].
      * intros NE. destruct (strip_spec d) as [Z|(c & rest & Z & W)];
          [contradiction|].
        rewrite Z in E. destruct a as [|c' a'].
        -- simpl in E. injection E as -> _. discriminate.
        -- simpl in E. injection E as <- _. exists c, a'. now split.
      * intros -> ->. right. exists b. now split.
  - intros ->. reflexivity.
  - intros -> given ->. unfold r, Init._update_desc. cbn [snd]. reflexivity.
  - unfold Init._update_desc. destruct generate_docs, docs; reflexivity.
Qed.

(** ** The subparsers action *)

(** X8. [_SubParser.add_parser] links description and help: a keyword
    that is given is never changed, a missing one is filled from the
    other, so afterwards both are set or both are missing, and linking
    twice changes nothing more.  The parser is built with the linked
    keywords by the class asked for, or by the current one; the
    [_parser_class] attribute is back to its old value after a normal
    return, and is left at the class used when building raises. *)
Theorem add_parser_links_help :
  forall (parser_object : Type)
         (super_add_parser :
            nat -> string -> SubParser.kwds -> result parser_object)
         (name : string) (cls : option nat) (k : SubParser.kwds)
         (_parser_class : nat),
    let linked := SubParser.link k in
    let used := match cls with Some c => c | None => _parser_class end in
    let r := SubParser.add_parser parser_object super_add_parser
                                  name cls k _parser_class in
    SubParser.link linked = linked /\
    (forall d, SubParser.kw_description k = Some d ->
               SubParser.kw_description linked = Some d) /\
    (forall h, SubParser.kw_help k = Some h ->
               SubParser.kw_help linked = Some h) /\
    (SubParser.kw_description linked = None <-> SubParser.kw_help linked = None) /\
    (SubParser.kw_description linked = None <->
     SubParser.kw_description k = None /\ SubParser.kw_help k = None) /\
    fst r = super_add_parser used name linked /\
    ((exists p, fst r = Ok p) -> snd r = _parser_class) /\
    ((exists e, fst r = Raise e) -> snd r = used).
Proof.
  intros parser_object super name cls [[d|] [h|]] pc linked used r;
    unfold r, SubParser.add_parser; subst linked used; cbn;
    (repeat match goal with |- _ /\ _ => split | |- _ <-> _ => split end);
    try reflexivity; try congruence; try tauto;
    try (intros [? ?]; congruence);
    try (destruct (super _ _ _); reflexivity);
    try (intros [x Hx]; destruct (super _ _ _); [reflexivity|discriminate]);
    try (intros [x Hx]; destruct (super _ _ _); [discriminate|reflexivity]).
Qed.

(** ** Batching of writes *)

Lemma glue_cons2 (x y : item) (l1 l2 : list item) :
  glue (x :: y :: l1) l2 = x :: glue (y :: l1) l2.
Proof. reflexivity. Qed.

Lemma glue_nil_r (l : list item) : glue l [] = l.
Proof.
  induction l as [|x l IH]; [reflexivity|].
  destruct l as [|y l]; [now destruct x|].
  rewrite glue_cons2. now rewrite IH.
Qed.

Lemma glue_not_nil (l1 l2 : list item) : l1 <> [] -> glue l1 l2 <> [].
Proof.
  destruct l1 as [|x [|y l1]]; [congruence| |discriminate].
  intros _. destruct x, l2 as [|[] l2]; discriminate.
Qed.

Lemma glue_app_left (front l1 l2 : list item) :
  l1 <> [] -> glue (front ++ l1) l2 = front ++ glue l1 l2.
Proof.
  intros N. induction front as [|x front IH]; [reflexivity|].
  simpl app. destruct (front ++ l1) as [|y l] eqn:E.
  - destruct front; [simpl in E; congruence|discriminate].
  - rewrite glue_cons2. now rewrite IH.
Qed.

(** [write] glues what it collected to the stream. *)
Lemma write_glue (self : ListStream.t) (args : list item) :
  ListStream.write self args = glue self (ListStream.collect args [] []).
Proof.
  unfold ListStream.write.
  generalize (ListStream.collect args [] []) as l2. intros l2.
  induction self as [|x self IH]; [reflexivity|].
  destruct self as [|y self].
  - simpl. destruct x, l2 as [|[] l2]; reflexivity.
  - rewrite glue_cons2, <- IH.
    change (ListStream.last_entry (x :: y :: self))
      with (ListStream.last_entry (y :: self)).
    change (removelast (x :: y :: self)) with (x :: removelast (y :: self)).
    destruct (ListStream.last_entry (y :: self)) as [[t|o|n]|];
      destruct l2 as [|[h|o'|n'] r]; reflexivity.
Qed.

Lemma glue_assoc (s x y : list item) :
  glue (glue s x) y = glue s (glue x y).
Proof.
  induction s as [|e s IH]; [reflexivity|].
  destruct s as [|e' s].
  - destruct x as [|x1 [|x2 x]].
    + rewrite glue_nil_r. reflexivity.
    + destruct e, x1, y as [|[] y]; simpl; rewrite <- ?app_assoc; reflexivity.
    + rewrite (glue_cons2 x1 x2 x y).
      destruct e, x1; reflexivity.
  - rewrite !glue_cons2.
    destruct (glue (e' :: s) x) as [|g1 g] eqn:G.
    + exfalso. revert G. apply glue_not_nil. discriminate.
    + destruct g as [|g2 g].
      * rewrite <- IH.
        change (glue (e :: [g1]) y) with (e :: glue [g1] y). reflexivity.
      * rewrite glue_cons2, <- IH. reflexivity.
Qed.

Lemma collect_from (args : list item) :
  forall stringlist objectlist,
    ListStream.collect args stringlist objectlist
    = objectlist
        ++ glue [Bytes (concat stringlist)] (ListStream.collect args [] []).
Proof.
  induction args as [|arg args IH]; intros sl ol.
  - simpl. now rewrite app_nil_r.
  - destruct (collect_shape args [] []) as (h & ps & E & _). simpl in E.
    destruct arg as [b|o|n buf]; simpl.
    + rewrite (IH (sl ++ [b]) ol), (IH [b] []), E. simpl.
      rewrite concat_app. simpl. now rewrite !app_nil_r, <- app_assoc.
    + rewrite (IH [] (ol ++ [Bytes (concat sl); Fmt o])),
        (IH [] [Bytes []; Fmt o]).
      simpl. now rewrite <- app_assoc, app_nil_r.
    + rewrite (IH [] (ol ++ [Bytes (concat sl); Other n buf])),
        (IH [] [Bytes []; Other n buf]).
      simpl. now rewrite <- app_assoc, app_nil_r.
Qed.

Lemma collect_app (a b : list item) :
  forall stringlist objectlist,
    ListStream.collect (a ++ b) stringlist objectlist
    = glue (ListStream.collect a stringlist objectlist)
           (ListStream.collect b [] []).
Proof.
  induction a as [|arg a IH]; intros sl ol.
  - simpl. rewrite (collect_from b sl ol).
    rewrite glue_app_left; [reflexivity|discriminate].
  - destruct arg; simpl; apply IH.
Qed.

(** X10. How the arguments are spread over [write] calls makes no
    difference to a [ListStream]: writing some arguments and then some
    more leaves the stream that one call with all of them leaves, and so
    does any longer series of calls. *)
Theorem writes_can_be_batched :
  forall (self : ListStream.t) (a b : list item) (calls : list (list item)),
    ListStream.write (ListStream.write self a) b
    = ListStream.write self (a ++ b)
    /\ fold_left ListStream.write calls (ListStream.write self a)
       = ListStream.write self (a ++ concat calls)
    /\ FakeStreamFormatter.stream (written (a :: calls))
       = ListStream.write [] (a ++ concat calls).
Proof.
  intros self a b calls.
  assert (Two : forall s x y,
             ListStream.write (ListStream.write s x) y
             = ListStream.write s (x ++ y)).
  { intros s x y. rewrite !write_glue, collect_app. apply glue_assoc. }
  assert (Many : forall l s x,
             fold_left ListStream.write l (ListStream.write s x)
             = ListStream.write s (x ++ concat l)).
  { induction l as [|y l IH]; intros s x; simpl.
    - now rewrite app_nil_r.
    - rewrite Two, IH, app_assoc. reflexivity. }
  split; [apply Two|]. split; [apply Many|].
  unfold written, FakeStreamFormatter.init. simpl.
  unfold FakeStreamFormatter.write at 2. simpl.
  rewrite <- Many.
  generalize (ListStream.write [] a) as s.
  induction calls as [|y l IH]; intros s; [reflexivity|].
  simpl. unfold FakeStreamFormatter.write at 2. simpl. apply IH.
Qed.

(** ** Reading the text stream *)

Lemma first_non_ascii_none (b : list byte) :
  is_ascii b = true -> forall i, first_non_ascii i b = None.
Proof.
  induction b as [|c b IH]; intros H i; [reflexivity|].
  simpl in *. apply andb_true_iff in H. destruct H as [Hc Hb].
  rewrite Hc. now apply IH.
Qed.

Lemma first_non_ascii_some (b : list byte) :
  is_ascii b = false ->
  forall i, exists pos c,
    first_non_ascii i b = Some (i + pos, c)
    /\ nth_error b pos = Some c
    /\ is_ascii (firstn pos b) = true
    /\ (Byte.to_N c <? 128)%N = false.
Proof.
  induction b as [|c b IH]; intros H i; [discriminate|].
  simpl in *. destruct (Byte.to_N c <? 128)%N eqn:Hc.
  - simpl in H. destruct (IH H (S i)) as (pos & c' & E & N & A & B).
    exists (S pos), c'. rewrite E. simpl. rewrite Hc, A.
    rewrite <- plus_n_Sm. auto.
  - exists 0, c. rewrite Nat.add_0_r. auto.
Qed.

Lemma decode_ascii_ok (b : list byte) :
  is_ascii b = true -> decode_ascii b = Ok (string_of_list_byte b).
Proof.
  intros H. unfold decode_ascii. now rewrite first_non_ascii_none.
Qed.

Lemma joined_of_app (l1 l2 : list item) :
  joined_of (l1 ++ l2) = joined_of l1 ++ joined_of l2.
Proof. apply flat_map_app. Qed.

Lemma collect_joined (args : list item) :
  forall stringlist objectlist,
    joined_of (ListStream.collect args stringlist objectlist)
    = joined_of objectlist ++ concat stringlist ++ joined_of args.
Proof.
  induction args as [|arg args IH]; intros sl ol; simpl.
  - rewrite joined_of_app. simpl. now rewrite !app_nil_r.
  - destruct arg as [b|o|n buf]; rewrite IH.
    + rewrite concat_app. simpl. now rewrite app_nil_r, <- !app_assoc.
    + rewrite joined_of_app. simpl. now rewrite app_nil_r, <- !app_assoc.
    + rewrite joined_of_app. simpl. now rewrite !app_nil_r, <- !app_assoc.
Qed.

Lemma glue_joined (l1 l2 : list item) :
  joined_of (glue l1 l2) = joined_of l1 ++ joined_of l2.
Proof.
  induction l1 as [|x l1 IH]; [reflexivity|].
  destruct l1 as [|y l1].
  - destruct x, l2 as [|[] l2]; simpl; rewrite ?app_nil_r, <- ?app_assoc;
      reflexivity.
  - rewrite glue_cons2.
    change (x :: glue (y :: l1) l2) with ([x] ++ glue (y :: l1) l2).
    change (x :: y :: l1) with ([x] ++ (y :: l1)).
    rewrite !joined_of_app, IH. now rewrite app_assoc.
Qed.

Lemma write_joined (self : ListStream.t) (args : list item) :
  joined_of (ListStream.write self args) = joined_of self ++ joined_of args.
Proof.
  rewrite write_glue, glue_joined. f_equal.
  now rewrite (collect_joined args [] []).
Qed.

Lemma written_joined (calls : list (list item)) :
  forall self,
    joined_of (FakeStreamFormatter.stream
                 (fold_left FakeStreamFormatter.write calls
                            (FakeStreamFormatter.Make self)))
    = joined_of self ++ joined_of (concat calls).
Proof.
  induction calls as [|args calls IH]; intros self; simpl.
  - now rewrite app_nil_r.
  - unfold FakeStreamFormatter.write at 2. simpl.
    rewrite IH, write_joined, joined_of_app. now rewrite app_assoc.
Qed.

Lemma find_unjoinable_objects (l : list item) :
  find unjoinable l = find unjoinable (objects_of l).
Proof.
  unfold objects_of.
  induction l as [|x l IH]; [reflexivity|].
  destruct x as [b|o|n buf]; simpl; [exact IH|exact IH|].
  now destruct buf.
Qed.

Lemma join_from_joined (l : list item) :
  find unjoinable l = None ->
  forall i,
    join_from i (filter (fun x => negb (is_FormatterObject x)) l)
    = Ok (joined_of l).
Proof.
  induction l as [|x l IH]; intros H i; [reflexivity|].
  destruct x as [b|o|n [buf|]]; simpl in *.
  - now rewrite IH.
  - now apply IH.
  - now rewrite IH.
  - discriminate.
Qed.

Lemma join_from_unjoinable (l : list item) (x : item) :
  find unjoinable l = Some x ->
  forall i, exists j,
    join_from i (filter (fun x => negb (is_FormatterObject x)) l)
    = Raise (join_error j (type_name_of x)).
Proof.
  induction l as [|y l IH]; intros H i; [discriminate|].
  destruct y as [b|o|n [buf|]]; simpl in *.
  - destruct (IH H (S i)) as [j E]. exists j. now rewrite E.
  - now apply IH.
  - destruct (IH H (S i)) as [j E]. exists j. now rewrite E.
  - injection H as <-. exists i. reflexivity.
Qed.

(** X11. What [get_text_stream] gives after any series of writes to a
    fresh formatter.  When something was written that is neither a
    marker nor an object with a buffer, the join is a type error naming
    the type of the first such object.  Otherwise the text is decoded
    from the written [bytes] and the contents of the written objects
    with a buffer ([bytearray], [memoryview]), in the order written:
    the string of these bytes when all are ASCII, and else the decoding
    error for the first byte that is not.  The bytes of an ASCII string
    are read back as that string, and after [resetstream] the text is
    empty. *)
Theorem text_stream_outcome :
  forall (calls : list (list item)) (s : string),
    let f := written calls in
    let joined := joined_of (concat calls) in
    match find unjoinable (concat calls) with
    | Some x =>
        exists i, FakeStreamFormatter.get_text_stream f
                  = Raise (join_error i (type_name_of x))
    | None =>
        FakeStreamFormatter.get_text_stream f = decode_ascii joined
        /\ (is_ascii joined = true ->
            FakeStreamFormatter.get_text_stream f
            = Ok (string_of_list_byte joined))
        /\ (is_ascii joined = false ->
            exists pos c,
              nth_error joined pos = Some c
              /\ is_ascii (firstn pos joined) = true
              /\ (Byte.to_N c <? 128)%N = false
              /\ FakeStreamFormatter.get_text_stream f
                 = Raise (ascii_decode_error pos c))
    end
    /\ (is_ascii (list_byte_of_string s) = true ->
        FakeStreamFormatter.get_text_stream
          (written [[Bytes (list_byte_of_string s)]]) = Ok s)
    /\ FakeStreamFormatter.get_text_stream (FakeStreamFormatter.resetstream f)
       = Ok EmptyString
    /\ FakeStreamFormatter.get_text_stream
         (written [[Bytes [x61]]; [Fmt Bold; Other "bytearray" (Some [x62])]])
       = Ok "ab"
    /\ FakeStreamFormatter.get_text_stream
         (written [[Bytes [x61]; Fmt Bold; Other "str" None]])
       = Raise (TypeError
                  "sequence item 2: expected a bytes-like object, str found")
    /\ FakeStreamFormatter.get_text_stream (written [[Bytes [x61; xe9]]])
       = Raise (UnicodeDecodeError
                  "'ascii' codec can't decode byte 0xe9 in position 1: ordinal not in range(128)").
Proof.
  intros calls s f joined.
  assert (Joined : forall l,
             joined_of (FakeStreamFormatter.stream (written l))
             = joined_of (concat l)).
  { intros l. unfold written, FakeStreamFormatter.init.
    now rewrite written_joined. }
  assert (Found : forall l,
             find unjoinable (FakeStreamFormatter.stream (written l))
             = find unjoinable (concat l)).
  { intros l. destruct (written_text_objects l []) as [_ Ho]. simpl in Ho.
    fold FakeStreamFormatter.init in Ho. fold (written l) in Ho.
    now rewrite find_unjoinable_objects, Ho, <- find_unjoinable_objects. }
  assert (Clean : forall l,
             find unjoinable (concat l) = None ->
             FakeStreamFormatter.get_text_stream (written l)
             = decode_ascii (joined_of (concat l))).
  { intros l N. unfold FakeStreamFormatter.get_text_stream, join_bytes.
    rewrite join_from_joined; [now rewrite Joined|]. now rewrite Found. }
  split.
  - destruct (find unjoinable (concat calls)) as [x|] eqn:U.
    + unfold FakeStreamFormatter.get_text_stream, join_bytes.
      rewrite <- Found in U.
      destruct (join_from_unjoinable _ x U 0) as [j E].
      exists j. unfold f. now rewrite E.
    + pose proof (Clean calls U) as E. fold f in E. fold joined in E.
      split; [exact E|]. split.
      * intros A. rewrite E. now apply decode_ascii_ok.
      * intros A. destruct (first_non_ascii_some joined A 0)
          as (pos & c & F & N & P & B).
        exists pos, c. repeat split; try assumption.
        rewrite E. unfold decode_ascii. now rewrite F.
  - split; [|split; [reflexivity|split; [|split]]; vm_compute; reflexivity].
    intros A. rewrite Clean by reflexivity. simpl. rewrite app_nil_r.
    rewrite decode_ascii_ok by exact A.
    now rewrite string_of_list_byte_of_string.
Qed.

(** ** What a wipe does *)

Lemma str_in_app (x : string) (a b : list string) :
  Py.str_in x (a ++ b) = Py.str_in x a || Py.str_in x b.
Proof. unfold Py.str_in. apply existsb_app. Qed.

Lemma remove_without (k : string) (d : namespace) :
  Dict.remove k d = without [k] d.
Proof.
  unfold Dict.remove, without. apply filter_ext. intros [k' v]. simpl.
  now rewrite orb_false_r.
Qed.

Lemma without_without (a b : list string) (d : namespace) :
  without b (without a d) = without (a ++ b) d.
Proof.
  unfold without. rewrite filter_filter. apply filter_ext. intros [k v].
  simpl. rewrite str_in_app. now rewrite negb_orb.
Qed.

Lemma without_nil (d : namespace) : without [] d = d.
Proof.
  unfold without. induction d as [|x d IH]; simpl; [reflexivity|].
  f_equal. exact IH.
Qed.

Lemma get_without (names : list string) (k : string) (d : namespace) :
  Dict.get k (without names d)
  = if Py.str_in k names then None else Dict.get k d.
Proof.
  unfold without. induction d as [|[k' v] d IH]; simpl.
  - now destruct (Py.str_in k names).
  - destruct (Py.str_in k' names) eqn:E; simpl.
    + rewrite IH. destruct (String.eqb k' k) eqn:Ek; [|reflexivity].
      apply String.eqb_eq in Ek. subst k'. now rewrite E.
    + destruct (String.eqb k' k) eqn:Ek; [|exact IH].
      apply String.eqb_eq in Ek. subst k'. now rewrite E.
Qed.

Lemma wipe_attrs_exact (attrs : list string) (w : world) :
  wipe_attrs attrs w = (Ok tt, set_ns w (without attrs (ns w))).
Proof.
  revert w; induction attrs as [|a attrs IH]; intros w; simpl.
  - unfold ret. now rewrite without_nil, set_ns_same.
  - unfold bind. rewrite delattr_ignoring, IH. simpl.
    rewrite remove_without, without_without. reflexivity.
Qed.

Lemma _wipe_exact (attrs : list string) (trig : string) (w : world) :
  _wipe attrs trig w = (Ok tt, set_ns w (without (attrs ++ [trig]) (ns w))).
Proof.
  unfold _wipe, bind. rewrite wipe_attrs_exact, delattr_ignoring. simpl.
  now rewrite remove_without, without_without.
Qed.

(** X12. [DelayedDefault._wipe] never raises: it leaves the namespace
    without the named attributes and without the triggering one,
    whether they were there or not, and with every other attribute as it
    was; wiping a second time changes nothing.  Called as a delayed
    default made by [wipe], it does this and nothing else. *)
Theorem wipe_deletes_exactly :
  forall (functors : F_env) (attrs : list string) (trig : string)
         (priority : Z) (w : world),
    let gone := attrs ++ [trig] in
    let w' := set_ns w (without gone (ns w)) in
    _wipe attrs trig w = (Ok tt, w')
    /\ (forall k, In k gone -> Dict.get k (ns w') = None)
    /\ (forall k, ~ In k gone -> Dict.get k (ns w') = Dict.get k (ns w))
    /\ _wipe attrs trig w' = (Ok tt, w')
    /\ __call__ functors (DelayedDefault.wipe (Strs attrs) priority)
                (Resolve trig) w
       = (Ok tt,
          World (without gone (ns w)) (stderr w)
                (calls w ++ [(trig, priority)])).
Proof.
  intros functors attrs trig priority w gone w'.
  split; [apply _wipe_exact|]. split; [|split; [|split]].
  - intros k I. unfold w'. simpl. rewrite get_without.
    apply str_in_In in I. now rewrite I.
  - intros k N. unfold w'. simpl. rewrite get_without.
    destruct (Py.str_in k gone) eqn:E; [|reflexivity].
    apply str_in_In in E. contradiction.
  - rewrite _wipe_exact. unfold w'. simpl. fold gone.
    rewrite without_without. f_equal. unfold set_ns. simpl. f_equal.
    unfold without. apply filter_ext. intros [k v]. simpl.
    rewrite str_in_app. now rewrite orb_diag.
  - unfold __call__, DelayedDefault.wipe. simpl.
    unfold bind, log_call. rewrite _wipe_exact. reflexivity.
Qed.

(** ** Suppression by a delayed default *)

Section Suppression.
Variable functors : F_env.

Lemma call_wipe_exact (d : delayed) (attr : string) (w : world) :
  wipe_made d ->
  __call__ functors d (Resolve attr) w
  = (Ok tt,
     World (without (wiped_by (attr, d)) (ns w)) (stderr w)
           (calls w ++ [(attr, priority d)])).
Proof.
  intros [K [attrs I]]. unfold __call__, wiped_by. simpl. rewrite K, I.
  simpl. unfold bind, log_call. rewrite _wipe_exact. reflexivity.
Qed.

Lemma run_wipes_exact (schedule : list (string * delayed)) :
  Forall (fun p => wipe_made (snd p)) schedule ->
  forall w,
    run_delayed functors schedule w
    = (None,
       World (without (flat_map wiped_by schedule) (ns w)) (stderr w)
             (calls w ++ map entry_key schedule)).
Proof.
  induction 1 as [|[attr d] rest Hd Hrest IH]; intros w; simpl.
  - rewrite without_nil, app_nil_r. now destruct w.
  - rewrite (call_wipe_exact d attr w Hd), IH. simpl.
    rewrite without_without, <- app_assoc. reflexivity.
Qed.

(** Pass 1 on a namespace whose delayed defaults are made by [wipe]. *)
Lemma pass1_exact (w : world) :
  (forall attr d,
      In (attr, VDelayed d) (ns w) -> kind d = KDelayedDefault ->
      exists attrs, invokable d = Wipe attrs) ->
  let schedule := sorted_by_priority (delayed_items true (ns w)) in
  pass1 functors w
  = (Ok tt,
     World (without (flat_map wiped_by schedule) (ns w)) (stderr w)
           (calls w ++ map entry_key schedule)).
Proof.
  intros Hw schedule. unfold pass1. fold schedule.
  rewrite run_wipes_exact; [reflexivity|].
  apply Forall_forall. intros [attr d] Hin.
  apply (Permutation_in _ (Permutation_sym (sorted_by_priority_perm _))) in Hin.
  apply delayed_items_In in Hin. destruct Hin as [Hin K].
  specialize (K eq_refl). split; [exact K|]. eapply Hw; eassumption.
Qed.
End Suppression.

(** X13. A delayed default made by [wipe] suppresses what it names
    before anything else is resolved.  When the delayed defaults of the
    namespace are made by [wipe], pass 1 calls them in priority order and
    returns with exactly the attributes they name and their own
    attributes deleted: these are gone, every other attribute is as it
    was, and nothing is printed.  A delayed value of another class
    stored under a name that one of them lists is therefore called
    neither by pass 1 nor by pass 2. *)
Theorem suppressed_value_never_called :
  forall (functors : F_env) (self : parser) (w : world)
         (target trig : string) (attrs : list string) (prio : Z),
    (forall attr d,
        In (attr, VDelayed d) (ns w) -> kind d = KDelayedDefault ->
        exists a, invokable d = Wipe a) ->
    In (trig, VDelayed (Delayed KDelayedDefault prio (Wipe attrs))) (ns w) ->
    In target attrs ->
    (forall d, In (target, VDelayed d) (ns w) -> kind d <> KDelayedDefault) ->
    let schedule := sorted_by_priority (delayed_items true (ns w)) in
    let gone := flat_map wiped_by schedule in
    let w1 := World (without gone (ns w)) (stderr w)
                    (calls w ++ map entry_key schedule) in
    pass1 functors w = (Ok tt, w1)
    /\ (forall k,
           In k gone <->
           exists attr d a,
             In (attr, VDelayed d) (ns w) /\ kind d = KDelayedDefault
             /\ invokable d = Wipe a /\ (In k a \/ k = attr))
    /\ (forall k, In k gone -> Dict.get k (ns w1) = None)
    /\ (forall k, ~ In k gone -> Dict.get k (ns w1) = Dict.get k (ns w))
    /\ In target gone /\ In trig gone
    /\ exists later,
        calls (snd ((pass1 functors ;;; pass2 functors self) w))
        = calls w ++ map entry_key schedule ++ later
        /\ forall p, ~ In (target, p) (map entry_key schedule ++ later).
Proof.
  intros functors self w target trig attrs prio Hw Htrig Htarget Hkind
         schedule gone w1.
  pose proof (pass1_exact functors w Hw) as P1. cbv zeta in P1.
  fold schedule in P1. fold gone in P1. fold w1 in P1.
  assert (Sched : forall attr d,
             In (attr, d) schedule
             <-> In (attr, VDelayed d) (ns w) /\ kind d = KDelayedDefault).
  { intros attr d. unfold schedule. split.
    - intros I.
      apply (Permutation_in _ (Permutation_sym (sorted_by_priority_perm _)))
        in I.
      apply delayed_items_In in I. destruct I as [I K]. auto.
    - intros [I K]. apply (Permutation_in _ (sorted_by_priority_perm _)).
      apply delayed_items_In. auto. }
  assert (Gone : forall k,
             In k gone <->
             exists attr d a,
               In (attr, VDelayed d) (ns w) /\ kind d = KDelayedDefault
               /\ invokable d = Wipe a /\ (In k a \/ k = attr)).
  { intros k. unfold gone. rewrite in_flat_map. split.
    - intros [[attr d] [I W]]. apply Sched in I. destruct I as [I K].
      destruct (Hw attr d I K) as [a Ia].
      exists attr, d, a. repeat split; try assumption.
      unfold wiped_by in W. simpl in W. rewrite Ia in W.
      apply in_app_or in W. destruct W as [W|[W|[]]]; auto.
    - intros (attr & d & a & I & K & Ia & W).
      exists (attr, d). split; [apply Sched; auto|].
      unfold wiped_by. simpl. rewrite Ia. apply in_or_app.
      destruct W as [W| ->]; [now left|right; now left]. }
  assert (Gt : In target gone).
  { apply Gone. exists trig, (Delayed KDelayedDefault prio (Wipe attrs)), attrs.
    repeat split; auto. }
  assert (Gg : In trig gone).
  { apply Gone. exists trig, (Delayed KDelayedDefault prio (Wipe attrs)), attrs.
    repeat split; auto. }
  destruct (pass2_log functors self w1) as (done & todo & E & Hc & _).
  split; [exact P1|]. split; [exact Gone|].
  split; [|split; [|split; [exact Gt|split; [exact Gg|]]]].
  - intros k I. unfold w1. simpl. rewrite get_without.
    apply str_in_In in I. now rewrite I.
  - intros k N. unfold w1. simpl. rewrite get_without.
    destruct (Py.str_in k gone) eqn:Ek; [|reflexivity].
    apply str_in_In in Ek. contradiction.
  - exists (map entry_key done). split.
    + unfold bind. rewrite P1. rewrite Hc. unfold w1. simpl.
      now rewrite app_assoc.
    + intros p I. apply in_app_or in I. destruct I as [I|I].
      * apply in_map_iff in I. destruct I as [[a d] [Ek I]].
        unfold entry_key in Ek. simpl in Ek. injection Ek as -> _.
        apply Sched in I. destruct I as [I K]. exact (Hkind d I K).
      * apply in_map_iff in I. destruct I as [[a d] [Ek I]].
        unfold entry_key in Ek. simpl in Ek. injection Ek as -> _.
        assert (I2 : In (target, d)
                        (sorted_by_priority (delayed_items false (ns w1)))).
        { rewrite E. apply in_or_app. now left. }
        apply (Permutation_in _ (Permutation_sym (sorted_by_priority_perm _)))
          in I2.
        apply delayed_items_In in I2. destruct I2 as [I2 _].
        unfold w1 in I2. simpl in I2. unfold without in I2.
        apply filter_In in I2. destruct I2 as [_ I2]. simpl in I2.
        apply str_in_In in Gt. rewrite Gt in I2. discriminate.
Qed.

Lemma suppressed_value_never_called_witness :
  let w := World [("config", VDelayed (Delayed KDelayedValue 5 (Functor 0)));
                  ("no_config",
                   VDelayed (DelayedDefault.wipe (Str "config") 0));
                  ("color", VBool true)] [] [] in
  pass1 Examples.store w
  = (Ok tt, World [("color", VBool true)] [] [("no_config", 0%Z)])
  /\ calls (snd ((pass1 Examples.store ;;; pass2 Examples.store Examples.bare)
                   w))
     = [("no_config", 0%Z)].
Proof.
  intros w.
  assert (H1 : forall attr d,
             In (attr, VDelayed d) (ns w) -> kind d = KDelayedDefault ->
             exists a, invokable d = Wipe a).
  { intros attr d H K. simpl in H. destruct H as [H|[H|[H|[]]]].
    - injection H as _ <-. discriminate.
    - injection H as _ <-. eexists. reflexivity.
    - discriminate. }
  assert (H2 : forall d, In ("config", VDelayed d) (ns w) ->
                         kind d <> KDelayedDefault).
  { intros d H. simpl in H. destruct H as [H|[H|[H|[]]]].
    - injection H as <-. discriminate.
    - discriminate.
    - discriminate. }
  destruct (suppressed_value_never_called
              Examples.store Examples.bare w "config" "no_config" ["config"]
              0%Z H1 (or_intror (or_introl eq_refl)) (or_introl eq_refl) H2)
    as (P & _).
  split; [exact P|reflexivity].
Defined.

(** ** Ties between priorities *)

Lemma filter_map_key (p : Z) (l : list (string * delayed)) :
  filter (fun c => (snd c =? p)%Z) (map entry_key l)
  = map entry_key (filter (fun e => (priority (snd e) =? p)%Z) l).
Proof.
  induction l as [|e l IH]; [reflexivity|].
  simpl. destruct (priority (snd e) =? p)%Z; simpl; now rewrite IH.
Qed.

(** X14. Delayed values of equal priority are called in the order in
    which the namespace holds them: when pass 2 returns, it has called
    the collected values in the order of the stable sort by priority, so
    the calls of any one priority are the values of that priority in
    namespace order. *)
Theorem equal_priority_in_namespace_order :
  forall (functors : F_env) (self : parser) (w : world) (p : Z),
    fst (pass2 functors self w) = Ok tt ->
    let collected := delayed_items false (ns w) in
    exists made,
      calls (snd (pass2 functors self w)) = calls w ++ made
      /\ made = map entry_key (sorted_by_priority collected)
      /\ filter (fun c => (snd c =? p)%Z) made
         = map entry_key
             (filter (fun e => (priority (snd e) =? p)%Z) collected).
Proof.
  intros functors self w p Hok collected.
  destruct (pass2_log functors self w) as (done & todo & E & Hc & Hf).
  specialize (Hf Hok). subst todo. rewrite app_nil_r in E.
  exists (map entry_key done). split; [exact Hc|].
  fold collected in E. rewrite <- E. split; [reflexivity|].
  rewrite filter_map_key. now rewrite sorted_by_priority_stable.
Qed.

Lemma equal_priority_in_namespace_order_witness :
  exists made,
    calls (snd (pass2 Examples.store Examples.bare
                      (World [("z", VDelayed (Delayed KDelayedValue 1 (Functor 0)));
                              ("m", VDelayed (Delayed KDelayedValue 0 (Functor 0)));
                              ("a", VDelayed (Delayed KDelayedValue 1 (Functor 0)))]
                             [] [])))
    = [] ++ made
    /\ made = [("m", 0%Z); ("z", 1%Z); ("a", 1%Z)]
    /\ filter (fun c => (snd c =? 1)%Z) made = [("z", 1%Z); ("a", 1%Z)].
Proof.
  apply (equal_priority_in_namespace_order
           Examples.store Examples.bare
           (World [("z", VDelayed (Delayed KDelayedValue 1 (Functor 0)));
                   ("m", VDelayed (Delayed KDelayedValue 0 (Functor 0)));
                   ("a", VDelayed (Delayed KDelayedValue 1 (Functor 0)))]
                  [] [])
           1%Z eq_refl).
Defined.

(** ** Reading a delayed value early *)

Section EarlyRead.
Variable functors : F_env.

(** A read of an attribute that holds a delayed value: one call, then
    the plain lookup. *)
Lemma getattribute_delayed (name : string) (d : delayed) (w : world) :
  Dict.get name (ns w) = Some (VDelayed d) ->
  __getattribute__ functors name w
  = match __call__ functors d (Resolve name) w with
    | (Ok _, w') => raw_getattribute name w'
    | (Raise e, w') => (Raise e, w')
    end.
Proof.
  intros G. unfold __getattribute__. unfold bind at 1.
  unfold raw_getattribute at 1, bind, get_ns. rewrite G. unfold ret.
  reflexivity.
Qed.

Lemma raw_getattribute_same (name : string) (w : world) :
  snd (raw_getattribute name w) = w.
Proof.
  unfold raw_getattribute, bind, get_ns.
  now destruct (Dict.get name (ns w)).
Qed.

Lemma getattribute_delayed_calls (name : string) (d : delayed) (w : world) :
  Dict.get name (ns w) = Some (VDelayed d) ->
  calls (snd (__getattribute__ functors name w))
  = calls w ++ [(name, priority d)].
Proof.
  intros G. rewrite (getattribute_delayed name d w G).
  destruct (call_logged functors d (Resolve name) w) as [C _].
  destruct (__call__ functors d (Resolve name) w) as [[u|e] w'];
    simpl in C; [|exact C].
  now rewrite raw_getattribute_same.
Qed.
End EarlyRead.

(** X15. Reading an attribute that holds a [DelayedValue] calls that
    object once, with the namespace and the name, and then gives what is
    under the name; what the call raises leaves the read.  For a plain
    [DelayedValue] whose callable returns: a value that is not delayed
    is returned, and later reads return it without a further call; a
    delayed value left under the name is returned as the object it is,
    and the next read calls it again; an attribute that the callable
    deleted is an attribute error, which [getattr] with a default and
    [hasattr] turn into [None] and false. *)
Theorem delayed_value_read_once :
  forall (functors : F_env) (name : string) (d : delayed) (w : world),
    Dict.get name (ns w) = Some (VDelayed d) ->
    let called := __call__ functors d (Resolve name) w in
    __getattribute__ functors name w
    = match fst called with
      | Ok _ => raw_getattribute name (snd called)
      | Raise e => (Raise e, snd called)
      end
    /\ calls (snd (__getattribute__ functors name w))
       = calls w ++ [(name, priority d)]
    /\ forall (id : nat) (left : namespace),
        kind d = KDelayedValue ->
        invokable d = Functor id ->
        functors id [ANamespace; AStr name] (ns w) = (Ok tt, left) ->
        let w' := World left (stderr w) (calls w ++ [(name, priority d)]) in
        (forall v,
            Dict.get name left = Some v ->
            __getattribute__ functors name w = (Ok v, w')
            /\ (is_DelayedValue v = false ->
                __getattribute__ functors name w' = (Ok v, w')
                /\ getattr_or_None functors name w = (Ok v, w')
                /\ hasattr functors name w = (Ok true, w'))
            /\ (forall d', v = VDelayed d' ->
                  calls (snd (__getattribute__ functors name w'))
                  = calls w' ++ [(name, priority d')])) /\
        (Dict.get name left = None ->
         __getattribute__ functors name w = (Raise (AttributeError name), w')
         /\ getattr_or_None functors name w = (Ok VNone, w')
         /\ hasattr functors name w = (Ok false, w')).
Proof.
  intros functors name d w G called.
  split; [|split].
  - rewrite (getattribute_delayed functors name d w G). unfold called.
    now destruct (__call__ functors d (Resolve name) w) as [[u|e] w'].
  - now apply getattribute_delayed_calls.
  - intros id left K I F w'.
    assert (Call : __call__ functors d (Resolve name) w = (Ok tt, w')).
    { unfold __call__. rewrite K, I. simpl.
      unfold bind, log_call, call_functor. simpl. rewrite F. reflexivity. }
    assert (Read : __getattribute__ functors name w
                   = raw_getattribute name w').
    { rewrite (getattribute_delayed functors name d w G). now rewrite Call. }
    split.
    + intros v Gv.
      assert (R : __getattribute__ functors name w = (Ok v, w')).
      { rewrite Read. unfold raw_getattribute, bind, get_ns. simpl.
        now rewrite Gv. }
      split; [exact R|]. split.
      * intros Dv. split; [|split].
        -- apply getattribute_plain; assumption.
        -- unfold getattr_or_None, except_AttributeError. now rewrite R.
        -- unfold hasattr, except_AttributeError, bind. now rewrite R.
      * intros d' ->. now apply getattribute_delayed_calls.
    + intros Gn.
      assert (R : __getattribute__ functors name w
                  = (Raise (AttributeError name), w')).
      { rewrite Read. unfold raw_getattribute, bind, get_ns. simpl.
        now rewrite Gn. }
      split; [exact R|]. split.
      * unfold getattr_or_None, except_AttributeError. now rewrite R.
      * unfold hasattr, except_AttributeError, bind. now rewrite R.
Qed.

Lemma delayed_value_read_once_witness :
  (__getattribute__ Examples.store "x" Examples.one_delayed
   = (Ok (VInt 42), World [("x", VInt 42)] [] [("x", 0%Z)])
   /\ __getattribute__ Examples.store "x"
                       (World [("x", VInt 42)] [] [("x", 0%Z)])
      = (Ok (VInt 42), World [("x", VInt 42)] [] [("x", 0%Z)])) /\
  (__getattribute__ Examples.idle "x" Examples.one_delayed
   = (Ok (VDelayed Examples.delayed_x),
      World [("x", VDelayed Examples.delayed_x)] [] [("x", 0%Z)])
   /\ calls (snd (__getattribute__ Examples.idle "x"
                    (World [("x", VDelayed Examples.delayed_x)] []
                           [("x", 0%Z)])))
      = [("x", 0%Z); ("x", 0%Z)]).
Proof.
  split.
  - destruct (delayed_value_read_once
                Examples.store "x" Examples.delayed_x Examples.one_delayed
                eq_refl) as (_ & _ & H).
    destruct (H 0%nat [("x", VInt 42)] eq_refl eq_refl eq_refl) as [Hv _].
    destruct (Hv (VInt 42) eq_refl) as (H1 & H2 & _).
    split; [exact H1|exact (proj1 (H2 eq_refl))].
  - destruct (delayed_value_read_once
                Examples.idle "x" Examples.delayed_x Examples.one_delayed
                eq_refl) as (_ & _ & H).
    destruct (H 0%nat [("x", VDelayed Examples.delayed_x)]
                eq_refl eq_refl eq_refl) as [Hv _].
    destruct (Hv (VDelayed Examples.delayed_x) eq_refl) as (H1 & _ & H3).
    split; [exact H1|exact (H3 Examples.delayed_x eq_refl)].
Defined.

(** ** After the tokenizer: the subcommand's attributes, leftovers *)

Section Head.
Variable functors : F_env.
Variable super__parse_known_args : parser -> list string -> M (list string).

Lemma getattr_or_None_plain (name : string) (w : world) :
  (forall v, Dict.get name (ns w) = Some v -> is_DelayedValue v = false) ->
  getattr_or_None functors name w
  = (Ok match Dict.get name (ns w) with Some v => v | None => VNone end, w).
Proof.
  intros H. unfold getattr_or_None, except_AttributeError.
  destruct (Dict.get name (ns w)) as [v|] eqn:G.
  - now rewrite (getattribute_plain functors name v w G (H v eq_refl)).
  - now rewrite (getattribute_missing functors name w G).
Qed.

(** The three assignments of lines 635 to 641, as a function of the
    attributes. *)
Lemma override_run (sub : parser) (w : world) :
  (setattr "prog" (VStr (prog sub)) ;;;
   match main_func sub with
   | Some f => setattr "main_func" (VFunc f)
   | None => ret tt
   end ;;;
   match final_check sub with
   | Some f => setattr "final_check" (VFunc f)
   | None => ret tt
   end) w
  = (Ok tt,
     set_ns w
       (let d1 := Dict.set "prog" (VStr (prog sub)) (ns w) in
        let d2 := match main_func sub with
                  | Some f => Dict.set "main_func" (VFunc f) d1
                  | None => d1
                  end in
        match final_check sub with
        | Some f => Dict.set "final_check" (VFunc f) d2
        | None => d2
        end)).
Proof.
  unfold bind, setattr, get_ns, put_ns, ret, set_ns. simpl.
  destruct w as [d e c]. simpl.
  destruct (main_func sub), (final_check sub); reflexivity.
Qed.

Lemma override_quiet (sub : parser) :
  quiet (setattr "prog" (VStr (prog sub)) ;;;
         match main_func sub with
         | Some f => setattr "main_func" (VFunc f)
         | None => ret tt
         end ;;;
         match final_check sub with
         | Some f => setattr "final_check" (VFunc f)
         | None => ret tt
         end).
Proof.
  intros w. rewrite override_run. split; reflexivity.
Qed.

End Head.

(** X16. When the tokenizer leaves nothing over and the namespace names a
    registered subcommand, [parse_args] goes on to the resolution with
    the subcommand's [prog] in the namespace, with [main_func] and
    [final_check] replaced by the subcommand's where it has them and
    kept where it has none, and with every other attribute as the
    tokenizer left it. *)
Theorem subcommand_parser_overrides :
  forall (functors : F_env)
         (super__parse_known_args : parser -> list string -> M (list string))
         (self sub : parser) (args : list string) (w w1 : world)
         (name : string),
    parse_known_args functors super__parse_known_args self args w
    = (Ok [], w1) ->
    Dict.get "subcommand" (ns w1) = Some (VStr name) ->
    find_parser name (subparsers self) = Some sub ->
    exists d,
      parse_args_head functors super__parse_known_args self args w
      = (Ok tt, set_ns w1 d)
      /\ parse_args functors super__parse_known_args self args w
         = resolve functors self (set_ns w1 d)
      /\ Dict.get "prog" d = Some (VStr (prog sub))
      /\ Dict.get "main_func" d
         = match main_func sub with
           | Some f => Some (VFunc f)
           | None => Dict.get "main_func" (ns w1)
           end
      /\ Dict.get "final_check" d
         = match final_check sub with
           | Some f => Some (VFunc f)
           | None => Dict.get "final_check" (ns w1)
           end
      /\ forall k, k <> "prog" -> k <> "main_func" -> k <> "final_check" ->
                   Dict.get k d = Dict.get k (ns w1).
Proof.
  intros functors super self sub args w w1 name P G F.
  assert (Hd : forall v, Dict.get "subcommand" (ns w1) = Some v ->
                         is_DelayedValue v = false).
  { intros v E. rewrite G in E. now inversion E. }
  pose (d1 := Dict.set "prog" (VStr (prog sub)) (ns w1)).
  pose (d2 := match main_func sub with
              | Some f => Dict.set "main_func" (VFunc f) d1
              | None => d1
              end).
  pose (d3 := match final_check sub with
              | Some f => Dict.set "final_check" (VFunc f) d2
              | None => d2
              end).
  assert (Head : parse_args_head functors super self args w
                 = (Ok tt, set_ns w1 d3)).
  { unfold parse_args_head. unfold bind at 1. rewrite P.
    unfold bind at 1. rewrite (getattr_or_None_plain functors _ w1 Hd), G.
    unfold bind at 1. simpl subparsers_get. unfold ret at 1. rewrite F.
    unfold bind at 1. rewrite override_run. reflexivity. }
  exists d3. split; [exact Head|]. split.
  { unfold parse_args. unfold bind at 1. now rewrite Head. }
  assert (G1 : Dict.get "prog" d1 = Some (VStr (prog sub)))
    by apply get_set_same.
  assert (G2 : Dict.get "prog" d2 = Some (VStr (prog sub))).
  { unfold d2. destruct (main_func sub); [|exact G1].
    rewrite get_set_other; [exact G1|discriminate]. }
  split.
  { unfold d3. destruct (final_check sub); [|exact G2].
    rewrite get_set_other; [exact G2|discriminate]. }
  assert (M2 : Dict.get "main_func" d2
               = match main_func sub with
                 | Some f => Some (VFunc f)
                 | None => Dict.get "main_func" (ns w1)
                 end).
  { unfold d2. destruct (main_func sub); [apply get_set_same|].
    unfold d1. apply get_set_other. discriminate. }
  split.
  { unfold d3. destruct (final_check sub); [|exact M2].
    rewrite get_set_other; [exact M2|discriminate]. }
  split.
  { unfold d3. destruct (final_check sub); [apply get_set_same|].
    unfold d2. destruct (main_func sub).
    - rewrite get_set_other by discriminate. unfold d1.
      apply get_set_other. discriminate.
    - unfold d1. apply get_set_other. discriminate. }
  intros k N1 N2 N3. unfold d3, d2, d1.
  destruct (final_check sub), (main_func sub);
    repeat (rewrite get_set_other by assumption); reflexivity.
Qed.

Lemma subcommand_parser_overrides_witness :
  exists d,
    parse_args_head Examples.idle (Argparse.tokenize Examples.idle)
                    Examples.orphan ["build"] Examples.fresh
    = (Ok tt,
       set_ns (World [("flag", VBool false); ("subcommand", VStr "build")]
                     [] []) d)
    /\ Dict.get "prog" d = Some (VStr "prog build")
    /\ Dict.get "flag" d = Some (VBool false).
Proof.
  destruct (subcommand_parser_overrides
              Examples.idle (Argparse.tokenize Examples.idle)
              Examples.orphan Examples.build ["build"] Examples.fresh
              (World [("flag", VBool false); ("subcommand", VStr "build")]
                     [] [])
              "build" eq_refl eq_refl eq_refl)
    as (d & H & _ & Hp & _ & _ & Hk).
  exists d. split; [exact H|]. split; [exact Hp|].
  apply (Hk "flag"); discriminate.
Defined.

(** X17. Arguments that the tokenizer hands back end the parse before
    any resolution: [parse_args] leaves with exit status 2 after printing
    the unrecognized arguments, joined by spaces, behind the name of the
    parser itself (also when a subcommand was chosen), and no delayed
    value has been called by then. *)
Theorem unrecognized_arguments_exit :
  forall (functors : F_env)
         (super__parse_known_args : parser -> list string -> M (list string))
         (self : parser) (args : list string) (w w1 : world)
         (first : string) (others : list string),
    parse_known_args functors super__parse_known_args self args w
    = (Ok (first :: others), w1) ->
    (forall v, Dict.get "subcommand" (ns w1) = Some v ->
               is_DelayedValue v = false /\ forall l, v <> VStrs l) ->
    let r := parse_args functors super__parse_known_args self args w in
    fst r = Raise (SystemExit 2)
    /\ stderr (snd r)
       = stderr w1
           ++ (if debug self then [Traceback None] else [])
           ++ [Printed (prog self ++ ": error: unrecognized arguments: "
                          ++ Py.join " " (first :: others) ++ nl)]
    /\ calls (snd r) = calls w1.
Proof.
  intros functors super self args w w1 first others P H r.
  assert (Hd : forall v, Dict.get "subcommand" (ns w1) = Some v ->
                         is_DelayedValue v = false).
  { intros v E. now destruct (H v E). }
  assert (Sub : exists o, forall w', subparsers_get self
                  match Dict.get "subcommand" (ns w1) with
                  | Some v => v | None => VNone end w' = (Ok o, w')).
  { destruct (Dict.get "subcommand" (ns w1)) as [v|] eqn:G.
    - destruct v; try (eexists; intros; reflexivity).
      destruct (H _ eq_refl) as [_ N]. now destruct (N l).
    - eexists. intros. reflexivity. }
  destruct Sub as [o Sub].
  assert (Head : exists w2,
             parse_args_head functors super self args w
             = error self None
                 ("unrecognized arguments: " ++ Py.join " " (first :: others))
                 2 w2
             /\ stderr w2 = stderr w1 /\ calls w2 = calls w1).
  { unfold parse_args_head. unfold bind at 1. rewrite P.
    unfold bind at 1. rewrite (getattr_or_None_plain functors _ w1 Hd).
    unfold bind at 1. rewrite Sub.
    destruct o as [sub|].
    - unfold bind at 1. rewrite override_run.
      eexists. split; [reflexivity|]. split; reflexivity.
    - unfold bind at 1. unfold ret at 1.
      eexists. split; [reflexivity|]. split; reflexivity. }
  destruct Head as (w2 & Head & E2 & C2).
  assert (R : r = error self None
                 ("unrecognized arguments: " ++ Py.join " " (first :: others))
                 2 w2).
  { unfold r, parse_args, bind. rewrite Head, error_result. reflexivity. }
  rewrite R, error_result. cbn [fst snd stderr calls]. rewrite E2, C2.
  repeat match goal with |- _ /\ _ => split end; reflexivity.
Qed.

Lemma unrecognized_arguments_exit_witness :
  let r := parse_args Examples.store (Argparse.tokenize Examples.store)
                      Examples.orphan ["build"; "--bogus"]
                      Examples.one_delayed in
  fst r = Raise (SystemExit 2)
  /\ stderr (snd r)
     = [Printed ("prog: error: unrecognized arguments: --bogus" ++ nl)]
  /\ calls (snd r) = [].
Proof.
  apply (unrecognized_arguments_exit
           Examples.store (Argparse.tokenize Examples.store)
           Examples.orphan ["build"; "--bogus"] Examples.one_delayed
           (World [("x", VDelayed Examples.delayed_x);
                   ("flag", VBool false); ("subcommand", VStr "build")]
                  [] [])
           "--bogus" [] eq_refl).
  intros v E. inversion E. split; [reflexivity|discriminate].
Defined.

(** ** The final check *)

Lemma get_In (k : string) (v : value) (d : namespace) :
  Dict.get k d = Some v -> In (k, v) d.
Proof.
  induction d as [|[k' v'] d IH]; simpl; [discriminate|].
  destruct (String.eqb k' k) eqn:E.
  - apply String.eqb_eq in E. subst k'. intros H. inversion H. now left.
  - intros H. right. now apply IH.
Qed.

Lemma resolved_no_items (only_defaults : bool) (d : namespace) :
  resolved d -> delayed_items only_defaults d = [].
Proof.
  intros R. apply delayed_items_nil. intros attr dv H.
  apply delayed_items_In in H. destruct H as [H _].
  now specialize (R attr (VDelayed dv) H).
Qed.

Lemma get_remove_same (k : string) (d : namespace) :
  Dict.get k (Dict.remove k d) = None.
Proof.
  rewrite remove_without, get_without. simpl. now rewrite String.eqb_refl.
Qed.

Section FinalCheck.
Variable functors : F_env.

(** With no delayed value in the namespace the two passes do
    nothing. *)
Lemma resolve_resolved_ns (self : parser) (w : world) :
  resolved (ns w) ->
  resolve functors self w = run_final_check functors w.
Proof.
  intros R. unfold resolve, bind, pass1, pass2.
  rewrite (resolved_no_items true _ R). simpl.
  rewrite (resolved_no_items false _ R). reflexivity.
Qed.

End FinalCheck.

(** X18. On a namespace without delayed values the resolution is the
    final check alone.  Without a [final_check] attribute, or with
    [None] under it, nothing happens; a function under it is called with
    the parser and the namespace after the attribute has been deleted,
    and whatever it returns or raises is the outcome of the resolution
    as it is: its exceptions are not wrapped, and nothing is printed. *)
Theorem final_check_runs_last :
  forall (functors : F_env) (self : parser) (w : world),
    resolved (ns w) ->
    (Dict.get "final_check" (ns w) = None \/
     Dict.get "final_check" (ns w) = Some VNone ->
     resolve functors self w = (Ok tt, w)) /\
    (forall id,
        Dict.get "final_check" (ns w) = Some (VFunc id) ->
        let d := Dict.remove "final_check" (ns w) in
        let r := functors id [AParser; ANamespace] d in
        Dict.get "final_check" d = None
        /\ resolve functors self w
           = (fst r, World (snd r) (stderr w) (calls w))).
Proof.
  intros functors self w R. split.
  - intros H. rewrite (resolve_resolved_ns functors self w R).
    unfold run_final_check. unfold bind at 1.
    rewrite getattr_or_None_plain.
    + now destruct H as [H|H]; rewrite H.
    + intros v G. apply (R "final_check"%string v). now apply get_In.
  - intros id G d r. split; [apply get_remove_same|].
    rewrite (resolve_resolved_ns functors self w R).
    unfold run_final_check. unfold bind at 1.
    rewrite getattr_or_None_plain.
    + rewrite G.
      assert (Del : delattr "final_check" w = (Ok tt, set_ns w d)).
      { unfold delattr, bind, get_ns, put_ns. now rewrite has_key_get, G. }
      unfold bind. rewrite Del. simpl. unfold call_functor. simpl.
      fold r. now destruct r.
    + intros v G'. apply (R "final_check"%string v). now apply get_In.
Qed.

Lemma final_check_runs_last_witness :
  resolve Examples.failing Examples.bare
          (World [("final_check", VFunc 0); ("x", VInt 1)] [] [])
  = (Raise (ValueError "bad value"), World [("x", VInt 1)] [] []).
Proof.
  assert (R : resolved [("final_check", VFunc 0); ("x", VInt 1)]).
  { intros k v [H|[H|[]]]; inversion H; reflexivity. }
  exact (proj2 (proj2 (final_check_runs_last
                         Examples.failing Examples.bare
                         (World [("final_check", VFunc 0); ("x", VInt 1)]
                                [] []) R) 0%nat eq_refl)).
Defined.

(** ** Arguments from standard input *)

Lemma rstrip_idempotent (s : string) :
  PyStr.rstrip (PyStr.rstrip s) = PyStr.rstrip s.
Proof.
  induction s as [|c s IH]; [reflexivity|].
  simpl. destruct (PyStr.rstrip s) as [|c' kept] eqn:E.
  - destruct (PyStr.isspace c) eqn:Ec; [reflexivity|].
    simpl. now rewrite Ec.
  - change (PyStr.rstrip (String c (String c' kept)))
      with (match PyStr.rstrip (String c' kept) with
            | EmptyString =>
                if PyStr.isspace c then EmptyString else String c EmptyString
            | kept' => String c kept'
            end).
    now rewrite IH.
Qed.

Lemma strip_idempotent (s : string) :
  PyStr.strip (PyStr.strip s) = PyStr.strip s.
Proof.
  destruct (strip_spec s) as [E|(c & r & E & Ec)].
  - now rewrite E.
  - unfold PyStr.strip at 1. rewrite E. simpl PyStr.lstrip. rewrite Ec.
    rewrite <- E. unfold PyStr.strip. apply rstrip_idempotent.
Qed.

Lemma stripped_lines_bare (lines : list string) :
  Forall bare_word (ParseStdin.stripped_lines lines).
Proof.
  unfold ParseStdin.stripped_lines.
  induction lines as [|x lines IH]; simpl; [constructor|].
  destruct (String.eqb (PyStr.strip x) EmptyString) eqn:E; simpl;
    [exact IH|].
  constructor; [|exact IH]. split.
  - apply String.eqb_neq. exact E.
  - apply strip_idempotent.
Qed.

(** X19. [ParseStdin] reads standard input only for the single
    argument [-] of an action made with [allow_stdin].  With input piped
    in, the lines are read, and then the terminal is opened: when that
    succeeds the destination is extended by the stripped lines that are
    not blank, in order (no stored value is empty or has white space
    around it), and standard input is the terminal afterwards; when it
    raises, the error leaves the action with nothing stored and the
    input read to its end.  On a terminal the argument is an argument
    error that names the action, and the namespace stays as it was.
    Everything else is handled as by [ExtendAction], without the input
    being touched. *)
Theorem parse_stdin_dash :
  forall (functors : F_env) (open_tty : result Stdin.t) (stdin : Stdin.t)
         (self : ParseStdin.action) (old : list string) (w : world),
    stored_list (ParseStdin.dest self) (ns w) = Some old ->
    let call := ParseStdin.__call__ functors open_tty self in
    let kept := ParseStdin.stripped_lines (Stdin.readlines stdin) in
    let extend := Actions.ExtendAction__call__ functors (ParseStdin.dest self) in
    (forall vs,
        ParseStdin.allow_stdin self = true -> ParseStdin.is_dash vs = true ->
        (Stdin.isatty stdin = false ->
         (forall tty,
             open_tty = Ok tty ->
             call vs stdin w
             = ((Ok tt,
                 set_ns w (Dict.set (ParseStdin.dest self)
                                    (VStrs (old ++ kept)) (ns w))), tty)) /\
         (forall e,
             open_tty = Raise e ->
             call vs stdin w = ((Raise e, w), Stdin.Make false []))) /\
        (Stdin.isatty stdin = true ->
         call vs stdin w
         = ((Raise (ArgumentError
                      match ParseStdin._get_action_name self with
                      | Some name =>
                          "argument " ++ name
                            ++ ": '-' is only valid when piping data in"
                      | None => "'-' is only valid when piping data in"
                      end), w),
            stdin))) /\
    Forall bare_word kept /\
    (forall x, In x (Stdin.readlines stdin) ->
               PyStr.strip x <> EmptyString -> In (PyStr.strip x) kept) /\
    (forall vs,
        ParseStdin.allow_stdin self = false \/ ParseStdin.is_dash vs = false ->
        call vs stdin w = (extend vs w, stdin)).
Proof.
  intros functors open_tty stdin self old w H call kept extend.
  split; [|split; [|split]].
  - intros vs A D. split.
    + intros T. split.
      * intros tty O. unfold call, ParseStdin.__call__.
        rewrite A, D, T, O. simpl.
        now rewrite (extend_call functors _ _ old w H).
      * intros e O. unfold call, ParseStdin.__call__.
        now rewrite A, D, T, O.
    + intros T. unfold call, ParseStdin.__call__. rewrite A, D, T. simpl.
      unfold ParseStdin.argument_error.
      now destruct (ParseStdin._get_action_name self).
  - apply stripped_lines_bare.
  - intros x I N. unfold kept, ParseStdin.stripped_lines.
    apply in_map. apply filter_In. split; [exact I|].
    apply negb_true_iff. now apply String.eqb_neq.
  - intros vs [A|D]; unfold call, ParseStdin.__call__.
    + now rewrite A.
    + rewrite D. now rewrite andb_false_r.
Qed.

Lemma parse_stdin_dash_witness :
  let self := ParseStdin.Action ["-t"; "--targets"] None "targets" true in
  let piped := Stdin.Make false [(" a " ++ nl)%string; nl; ("b" ++ nl)%string] in
  ParseStdin.__call__ Examples.idle (Ok (Stdin.Make true [])) self
                      (Strs ["-"]) piped Examples.fresh
  = ((Ok tt, World [("targets", VStrs ["a"; "b"])] [] []), Stdin.Make true [])
  /\ ParseStdin.__call__ Examples.idle (Raise (OtherError "No such device"))
                         self (Strs ["-"]) piped Examples.fresh
     = ((Raise (OtherError "No such device"), Examples.fresh),
        Stdin.Make false [])
  /\ ParseStdin.__call__ Examples.idle (Ok (Stdin.Make true [])) self
                         (Strs ["-"]) (Stdin.Make true []) Examples.fresh
     = ((Raise (ArgumentError
                  "argument -t/--targets: '-' is only valid when piping data in"),
         Examples.fresh),
        Stdin.Make true []).
Proof.
  intros self piped.
  split; [|split].
  - exact (proj1 (proj1 (proj1 (parse_stdin_dash
             Examples.idle (Ok (Stdin.Make true [])) piped self []
             Examples.fresh eq_refl) (Strs ["-"]) eq_refl eq_refl) eq_refl)
             (Stdin.Make true []) eq_refl).
  - exact (proj2 (proj1 (proj1 (parse_stdin_dash
             Examples.idle (Raise (OtherError "No such device")) piped self []
             Examples.fresh eq_refl) (Strs ["-"]) eq_refl eq_refl) eq_refl)
             (OtherError "No such device") eq_refl).
  - exact (proj2 (proj1 (parse_stdin_dash
             Examples.idle (Ok (Stdin.Make true [])) (Stdin.Make true [])
             self [] Examples.fresh eq_refl) (Strs ["-"]) eq_refl eq_refl)
             eq_refl).
Defined.

(** ** The subparsers action *)

(** What [argparse]'s [parse_known_args] makes of the strings the
    tokenizer handed back: the list found under [_unrecognized_args] is
    put behind them, and the attribute is deleted. *)
Lemma parse_known_args_leftovers (functors : F_env)
      (super__parse_known_args : parser -> list string -> M (list string))
      (sub : parser) (rest new old : list string) (w w0 w1 : world) :
  add_defaults functors (defaults sub) w = (Ok tt, w0) ->
  _parse_known_args super__parse_known_args sub rest w0 = (Ok new, w1) ->
  Dict.get _UNRECOGNIZED_ARGS_ATTR (ns w1) = Some (VStrs old)
  \/ (Dict.get _UNRECOGNIZED_ARGS_ATTR (ns w1) = None /\ old = []) ->
  parse_known_args functors super__parse_known_args sub rest w
  = (Ok (new ++ old),
     set_ns w1 (Dict.remove _UNRECOGNIZED_ARGS_ATTR (ns w1))).
Proof.
  intros D T G. unfold parse_known_args. unfold bind at 1. rewrite D.
  unfold bind at 1. rewrite T.
  destruct G as [G|[G ->]].
  - assert (R : __getattribute__ functors _UNRECOGNIZED_ARGS_ATTR w1
                = (Ok (VStrs old), w1))
      by now apply getattribute_plain.
    unfold bind at 1. unfold hasattr, except_AttributeError.
    unfold bind at 1. rewrite R. unfold ret at 1.
    unfold bind at 1. rewrite R.
    unfold bind at 1. unfold delattr, bind, get_ns, put_ns.
    rewrite has_key_get, G. reflexivity.
  - assert (R : __getattribute__ functors _UNRECOGNIZED_ARGS_ATTR w1
                = (Raise (AttributeError _UNRECOGNIZED_ARGS_ATTR), w1))
      by now apply getattribute_missing.
    unfold bind at 1. unfold hasattr, except_AttributeError.
    unfold bind at 1. rewrite R. unfold ret.
    rewrite app_nil_r, remove_absent, set_ns_same; [reflexivity|].
    now rewrite has_key_get, G.
Qed.

(** X9. [_SubParser.__call__] records the name of the subcommand before
    it looks the parser up.  A name that is not registered ends in a
    name error, raised by the handler of the failed lookup, with the
    name already stored.  For a registered name the rest of the strings
    is parsed into the same namespace by the parser of the subcommand,
    whose [parse_known_args] hands back what its tokenizer did not
    recognise followed by the list it found under [_unrecognized_args],
    if any, and deletes that attribute; the action stores the strings
    handed back, in this order, as the new [_unrecognized_args], and
    stores nothing when there are none.  What the parser of the
    subcommand raises is passed on. *)
Theorem subparser_call :
  forall (functors : F_env)
         (super__parse_known_args : parser -> list string -> M (list string))
         (dest : option string) (_name_parser_map : list (string * parser))
         (name : string) (rest : list string) (w : world),
    let call :=
      SubParser.__call__ functors
        (parse_known_args functors super__parse_known_args)
        dest _name_parser_map in
    let named :=
      match dest with
      | Some d => set_ns w (Dict.set d (VStr name) (ns w))
      | None => w
      end in
    (find_parser name _name_parser_map = None ->
     call (name :: rest) w
     = (Raise (OtherError "name '_' is not defined"), named)) /\
    (forall sub new old w0 w1,
        find_parser name _name_parser_map = Some sub ->
        add_defaults functors (defaults sub) named = (Ok tt, w0) ->
        _parse_known_args super__parse_known_args sub rest w0 = (Ok new, w1) ->
        Dict.get _UNRECOGNIZED_ARGS_ATTR (ns w1) = Some (VStrs old)
        \/ (Dict.get _UNRECOGNIZED_ARGS_ATTR (ns w1) = None /\ old = []) ->
        let kept := Dict.remove _UNRECOGNIZED_ARGS_ATTR (ns w1) in
        Dict.get _UNRECOGNIZED_ARGS_ATTR kept = None
        /\ call (name :: rest) w
           = (Ok tt,
              match new ++ old with
              | [] => set_ns w1 kept
              | extras =>
                  set_ns w1 (Dict.set _UNRECOGNIZED_ARGS_ATTR (VStrs extras)
                                      kept)
              end)) /\
    (forall sub e w2,
        find_parser name _name_parser_map = Some sub ->
        parse_known_args functors super__parse_known_args sub rest named
        = (Raise e, w2) ->
        call (name :: rest) w = (Raise e, w2)).
Proof.
  intros functors super dest pmap name rest w call named.
  assert (Named : match dest with
                  | Some d => setattr d (VStr name)
                  | None => ret tt
                  end w = (Ok tt, named)).
  { unfold named. destruct dest; reflexivity. }
  split; [|split].
  - intros F. unfold call, SubParser.__call__. unfold bind at 1.
    rewrite Named, F. reflexivity.
  - intros sub new old w0 w1 F D T G kept.
    assert (K : Dict.get _UNRECOGNIZED_ARGS_ATTR kept = None)
      by apply get_remove_same.
    split; [exact K|].
    unfold call, SubParser.__call__. unfold bind at 1.
    rewrite Named, F. unfold bind at 1.
    rewrite (parse_known_args_leftovers functors super sub rest new old
               named w0 w1 D T G).
    fold kept. destruct (new ++ old) as [|x extras]; [reflexivity|].
    unfold bind at 1. unfold get_ns at 1. unfold bind at 1.
    cbn [ns set_ns]. rewrite has_key_get, K.
    unfold setattr at 1, bind at 1, get_ns at 1, put_ns at 1.
    cbn [ns set_ns]. unfold bind at 1.
    rewrite (getattribute_plain functors _UNRECOGNIZED_ARGS_ATTR (VStrs []));
      [|apply get_set_same|reflexivity].
    unfold setattr, bind, get_ns, put_ns. cbn [ns set_ns app].
    now rewrite set_set.
  - intros sub e w2 F P. unfold call, SubParser.__call__. unfold bind at 1.
    rewrite Named, F. unfold bind at 1. now rewrite P.
Qed.

Lemma subparser_call_witness :
  SubParser.__call__ Examples.idle
    (parse_known_args Examples.idle (Argparse.tokenize Examples.idle))
    (Some "subcommand") [("build", Examples.build)]
    ["build"; "--bogus"]
    (World [("_unrecognized_args", VStrs ["--old"])] [] [])
  = (Ok tt,
     World [("subcommand", VStr "build");
            ("_unrecognized_args", VStrs ["--bogus"; "--old"])] [] []).
Proof.
  destruct (subparser_call
              Examples.idle (Argparse.tokenize Examples.idle)
              (Some "subcommand") [("build", Examples.build)]
              "build" ["--bogus"]
              (World [("_unrecognized_args", VStrs ["--old"])] [] []))
    as (_ & H & _).
  exact (proj2 (H Examples.build ["--bogus"] ["--old"]
                  (World [("_unrecognized_args", VStrs ["--old"]);
                          ("subcommand", VStr "build")] [] [])
                  (World [("_unrecognized_args", VStrs ["--old"]);
                          ("subcommand", VStr "build")] [] [])
                  eq_refl eq_refl eq_refl (or_introl eq_refl))).
Defined.
